(** * Correlation and ranking engine of sp500-network-analysis

    A shallow embedding of the analysis core of the repository:

    - [analysis/stock_analyzer.py]        (bounded-heap top-k / bottom-k,
                                           performance of one stock)
    - [analysis/correlation_calculator.py] (windowed correlation, matrix queries)
    - [analysis/sharpe_ratio_calculator.py] (Sharpe ratios and ranking)
    - [network/correlation_network.py]    (directed correlation graph, neighbour queries)
    - [data/company_data_manager.py]      (the indexes built by [_load_data])
    - [network/visualizer.py]             (the connected part of the graph)

    Conventions of the embedding.

    - Python exceptions are the [Raise] branch of [result].
    - Scores, returns and correlations that are only negated and compared
      are integers ([Z], think of fixed-point units): no NaN.  Where the
      source adds floats ([DataFrame.sum], [Series.sum]), divides or takes
      roots (Sharpe ratios), the arithmetic is a parameter of the model, and
      so is the sort of [Series.sort_values], whose order among equal values
      pandas does not fix.
    - A [dict] is an association list in insertion order, a [set] is a list
      without duplicates, a [list] is a list.
    - [heapq] is the array heap of the Python standard library, embedded
      from [Lib/heapq.py]. *)

From Stdlib Require Import String Ascii.
From Stdlib Require Import List ZArith Lia Bool Arith PeanoNat.
From Stdlib Require Import Permutation Sorting.Sorted.
From Stdlib Require Import QArith.
From Stdlib Require Import Structures.OrderedTypeEx.
Import ListNotations.

Close Scope Q_scope.
Open Scope nat_scope.

Set Implicit Arguments.

(** ** Exceptions *)

Inductive PyError : Type :=
| ValueError
| KeyError
| IndexError
| ZeroDivisionError
| TypeError.

Inductive result (A : Type) : Type :=
| Ok (a : A)
| Raise (e : PyError).

Arguments Ok {A} a.
Arguments Raise {A} e.

Definition bind {A B : Type} (r : result A) (k : A -> result B) : result B :=
  match r with
  | Ok a => k a
  | Raise e => Raise e
  end.

Notation "x <- r ;; k" := (bind r (fun x => k))
  (at level 61, r at next level, right associativity).
Notation "' p <- r ;; k" := (bind r (fun p => k))
  (at level 61, p pattern, r at next level, right associativity).

(** ** Python lists *)

(** [l[i] = v] for an index in range. *)
Fixpoint set_item {A : Type} (l : list A) (i : nat) (v : A) : list A :=
  match l, i with
  | [], _ => []
  | _ :: t, O => v :: t
  | h :: t, S i' => h :: set_item t i' v
  end.

(** [l.pop()]: the last element and the list without it. *)
Definition list_pop {A : Type} (l : list A) : result (A * list A) :=
  match rev l with
  | [] => Raise IndexError
  | x :: r => Ok (x, rev r)
  end.

(** [l[0]]. *)
Definition first_item {A : Type} (l : list A) : result A :=
  match l with
  | [] => Raise IndexError
  | x :: _ => Ok x
  end.

(** ** [heapq]: a binary min-heap stored in a list *)

Section Heapq.
Context {A : Type}.
(** [lt x y] is the items' [x < y]. *)
Variable lt : A -> A -> bool.

(** The [while pos > startpos] loop of [_siftdown]; [pos] strictly
    decreases, so [pos] steps of fuel are enough. *)
Fixpoint siftdown_loop (fuel : nat) (heap : list A) (startpos pos : nat)
         (newitem : A) : list A :=
  match fuel with
  | O => set_item heap pos newitem
  | S fuel' =>
      if startpos <? pos then
        let parentpos := Nat.div2 (pos - 1) in
        let parent := nth parentpos heap newitem in
        if lt newitem parent then
          siftdown_loop fuel' (set_item heap pos parent) startpos parentpos newitem
        else set_item heap pos newitem
      else set_item heap pos newitem
  end.

Definition _siftdown (heap : list A) (startpos pos : nat) : list A :=
  match nth_error heap pos with
  | Some newitem => siftdown_loop pos heap startpos pos newitem
  | None => heap
  end.

(** The [while childpos < endpos] loop of [_siftup]: the smaller child is
    moved up until a leaf is reached; returns the heap and the leaf. *)
Fixpoint siftup_loop (fuel : nat) (heap : list A) (endpos pos : nat)
         (newitem : A) : list A * nat :=
  match fuel with
  | O => (heap, pos)
  | S fuel' =>
      let childpos := 2 * pos + 1 in
      if childpos <? endpos then
        let rightpos := childpos + 1 in
        let childpos :=
          if (rightpos <? endpos)
             && negb (lt (nth childpos heap newitem) (nth rightpos heap newitem))
          then rightpos else childpos in
        siftup_loop fuel' (set_item heap pos (nth childpos heap newitem))
                    endpos childpos newitem
      else (heap, pos)
  end.

Definition _siftup (heap : list A) (pos : nat) : list A :=
  match nth_error heap pos with
  | Some newitem =>
      let endpos := length heap in
      let '(heap1, leaf) := siftup_loop endpos heap endpos pos newitem in
      _siftdown (set_item heap1 leaf newitem) pos leaf
  | None => heap
  end.

Definition heappush (heap : list A) (item : A) : list A :=
  _siftdown (heap ++ [item]) 0 (length heap).

(** Returns the popped item and the heap left behind. *)
Definition heappop (heap : list A) : result (A * list A) :=
  '(lastelt, heap1) <- list_pop heap ;;
  match heap1 with
  | returnitem :: _ => Ok (returnitem, _siftup (set_item heap1 0 lastelt) 0)
  | [] => Ok (lastelt, [])
  end.

(** Returns the item handed back and the heap left behind. *)
Definition heappushpop (heap : list A) (item : A) : A * list A :=
  match heap with
  | top :: _ =>
      if lt top item then (top, _siftup (set_item heap 0 item) 0)
      else (item, heap)
  | [] => (item, heap)
  end.

End Heapq.

(** ** Sorting as [sorted] and [list.sort] do it *)

Section PySort.
Context {A K : Type}.
Variable key : A -> K.
Variable lt : K -> K -> bool.
Variable reverse : bool.

(** [x] has to go behind [y]: with [reverse=True] when [x < y], otherwise
    when [y < x]; items with equal keys keep their order (stable). *)
Definition goes_behind (x y : A) : bool :=
  if reverse then lt (key x) (key y) else lt (key y) (key x).

Fixpoint sort_insert (x : A) (l : list A) : list A :=
  match l with
  | [] => [x]
  | y :: l' => if goes_behind x y then y :: sort_insert x l' else x :: y :: l'
  end.

Fixpoint py_sorted (l : list A) : list A :=
  match l with
  | [] => []
  | x :: l' => sort_insert x (py_sorted l')
  end.
End PySort.

(** [for x in l: s = body(s, x)], stopping at the first exception. *)
Fixpoint for_each {S X : Type} (body : S -> X -> result S) (s : S) (l : list X)
  : result S :=
  match l with
  | [] => Ok s
  | x :: l' => s' <- body s x ;; for_each body s' l'
  end.

(** ** Tuples [(number, ticker)] and their order *)

Definition ticker := string.
Definition entry : Type := (Z * ticker)%type.

(** Python's [<] on tuples [(float, str)]: by the first component, then by
    the second. *)
Definition tuple_lt (a b : entry) : bool :=
  (fst a <? fst b)%Z || ((fst a =? fst b)%Z && String.ltb (snd a) (snd b)).

(** ** Data frames *)

(** A frame of returns: column labels (tickers) and rows, oldest first. *)
Record DataFrame (V : Type) : Type := {
  columns : list ticker;
  rows : list (list V)
}.

Definition len {V : Type} (df : DataFrame V) : Z := Z.of_nat (length (rows df)).

(** [DataFrame.tail(n)]: the last [n] rows; for a negative [n], all rows but
    the first [-n]. *)
Definition tail {V : Type} (n : Z) (rs : list (list V)) : list (list V) :=
  if (n =? 0)%Z then []
  else if (0 <? n)%Z then skipn (length rs - Z.to_nat n) rs
  else skipn (Z.to_nat (- n)) rs.

Section FrameSum.
(** [DataFrame.sum()] adds the float64 values of a column with rounding, in
    an order of its own ([Series.sum()] adds in another): the sum of a
    column is a parameter of the model, and nothing is assumed of it. *)
Variable frame_sum : list Z -> Z.

(** [DataFrame.sum()]: one sum per column, labelled by the column. *)
Definition column_sum (rs : list (list Z)) (j : nat) : Z :=
  frame_sum (map (fun r => nth j r 0%Z) rs).

Definition sum_columns (cols : list ticker) (rs : list (list Z)) : list (ticker * Z) :=
  combine cols (map (column_sum rs) (seq 0 (length cols))).

(** Lines 97-104 of [topk_stocks] and [leastk_stocks]: the window check and
    the per-ticker total over the window. *)
Definition total_returns (returns_df : DataFrame Z) (n_days : Z)
  : result (list (ticker * Z)) :=
  if (n_days >? len returns_df)%Z then Raise ValueError
  else Ok (sum_columns (columns returns_df) (tail n_days (rows returns_df))).
End FrameSum.

(** ** [StockAnalyzer.topk_stocks] and [StockAnalyzer.leastk_stocks] *)

(** Body of the loop of [topk_stocks] over [total_returns.items()]. *)
Definition topk_body (k_stocks : Z) (min_heap : list entry) (item : ticker * Z)
  : result (list entry) :=
  let '(ticker, total_return) := item in
  if (Z.of_nat (length min_heap) <? k_stocks)%Z then
    Ok (heappush tuple_lt min_heap (total_return, ticker))
  else
    top <- first_item min_heap ;;
    if (total_return >? fst top)%Z then
      Ok (snd (heappushpop tuple_lt min_heap (total_return, ticker)))
    else Ok min_heap.

(** Lines 106-118: the bounded min-heap over a stream of items, then
    [sorted(min_heap, reverse=True)]. *)
Definition topk_heap (items : list (ticker * Z)) (k_stocks : Z)
  : result (list entry) :=
  min_heap <- for_each (topk_body k_stocks) [] items ;;
  Ok (py_sorted id tuple_lt true min_heap).

Definition topk_stocks (frame_sum : list Z -> Z) (returns_df : DataFrame Z)
           (n_days k_stocks : Z) : result (list entry) :=
  totals <- total_returns frame_sum returns_df n_days ;;
  topk_heap totals k_stocks.

(** Body of the loop of [leastk_stocks]: the heap holds negated returns. *)
Definition leastk_body (k_stocks : Z) (max_heap : list entry) (item : ticker * Z)
  : result (list entry) :=
  let '(ticker, total_return) := item in
  if (Z.of_nat (length max_heap) <? k_stocks)%Z then
    Ok (heappush tuple_lt max_heap ((- total_return)%Z, ticker))
  else
    top <- first_item max_heap ;;
    if (total_return <? - fst top)%Z then
      Ok (snd (heappushpop tuple_lt max_heap ((- total_return)%Z, ticker)))
    else Ok max_heap.

Definition leastk_heap (items : list (ticker * Z)) (k_stocks : Z)
  : result (list entry) :=
  max_heap <- for_each (leastk_body k_stocks) [] items ;;
  let bottom_stocks :=
    map (fun '(return_val, ticker) => ((- return_val)%Z, ticker)) max_heap in
  Ok (py_sorted id tuple_lt false bottom_stocks).

Definition leastk_stocks (frame_sum : list Z -> Z) (returns_df : DataFrame Z)
           (n_days k_stocks : Z) : result (list entry) :=
  totals <- total_returns frame_sum returns_df n_days ;;
  leastk_heap totals k_stocks.


(** ** [CorrelationCalculator] *)

(** A correlation matrix as [DataFrame.corr()] returns it: labelled on both
    axes, one row of values per index label. *)
Record CorrelationMatrix : Type := {
  cm_columns : list ticker;
  cm_index : list ticker;
  cm_values : list (list Z)
}.

(** A pandas [Series]: labelled values, in order. *)
Definition Series : Type := list (ticker * Z).

Fixpoint index_of (t : ticker) (l : list ticker) : option nat :=
  match l with
  | [] => None
  | x :: l' => if String.eqb x t then Some 0
               else option_map S (index_of t l')
  end.

Definition contains (l : list ticker) (t : ticker) : bool :=
  existsb (String.eqb t) l.

(** [correlation_matrix[ticker]]: the column of that label. *)
Definition getitem_column (m : CorrelationMatrix) (t : ticker) : result Series :=
  match index_of t (cm_columns m) with
  | Some j => Ok (combine (cm_index m) (map (fun r => nth j r 0%Z) (cm_values m)))
  | None => Raise KeyError
  end.

(** [Series.drop(label)]. *)
Definition drop (t : ticker) (s : Series) : result Series :=
  if contains (map fst s) t
  then Ok (filter (fun e => negb (String.eqb (fst e) t)) s)
  else Raise KeyError.

(** [Series.nlargest(k)] and [Series.nsmallest(k)] with [keep='first']:
    among equal values the first of the series comes first. *)
Definition nlargest (k : Z) (s : Series) : Series :=
  firstn (Z.to_nat k) (py_sorted snd Z.ltb true s).

Definition nsmallest (k : Z) (s : Series) : Series :=
  firstn (Z.to_nat k) (py_sorted snd Z.ltb false s).

Section CorrelationCalculator.
(** [DataFrame.corr()]: the Pearson correlation of the columns of a frame
    (floating point, outside the model). *)
Variable corr : DataFrame Z -> CorrelationMatrix.

Definition calculate_correlation_matrix (returns_df : DataFrame Z) (n_days : Z)
  : result CorrelationMatrix :=
  if (n_days >? len returns_df)%Z then Raise ValueError
  else
    let last_n_returns :=
      {| columns := columns returns_df; rows := tail n_days (rows returns_df) |} in
    Ok (corr last_n_returns).
End CorrelationCalculator.

Definition get_topk_similar_stocks (correlation_matrix : CorrelationMatrix)
           (t : ticker) (k : Z) : result Series :=
  if negb (contains (cm_columns correlation_matrix) t) then Raise ValueError
  else
    correlations <- getitem_column correlation_matrix t ;;
    correlations <- drop t correlations ;;
    Ok (nlargest k correlations).

Definition get_leastk_similar_stocks (correlation_matrix : CorrelationMatrix)
           (t : ticker) (k : Z) : result Series :=
  if negb (contains (cm_columns correlation_matrix) t) then Raise ValueError
  else
    correlations <- getitem_column correlation_matrix t ;;
    correlations <- drop t correlations ;;
    Ok (nsmallest k correlations).

Section ThresholdQueries.
(** [Series.sort_values(ascending=...)] sorts with the default
    [kind='quicksort'], which is not stable: pandas does not fix the order
    it leaves among equal values.  The sort is a parameter of the model;
    what is known of it is the contract [sorts] below: the result holds the
    entries of the series, in order. *)
Variable sort_values : bool -> Series -> Series.

Definition get_similar_stocks_threshold (correlation_matrix : CorrelationMatrix)
           (t : ticker) (threshold : Z) : result Series :=
  if negb (contains (cm_columns correlation_matrix) t) then Raise ValueError
  else
    column <- getitem_column correlation_matrix t ;;
    correlations <- drop t column ;;
    Ok (sort_values false (filter (fun e => (snd e >=? threshold)%Z) correlations)).

Definition get_dissimilar_stocks_threshold (correlation_matrix : CorrelationMatrix)
           (t : ticker) (threshold : Z) : result Series :=
  if negb (contains (cm_columns correlation_matrix) t) then Raise ValueError
  else
    column <- getitem_column correlation_matrix t ;;
    correlations <- drop t column ;;
    Ok (sort_values true (filter (fun e => (snd e <=? threshold)%Z) correlations)).
End ThresholdQueries.

(** The brute-force reading of [aboveThreshold]: take the row of [t], keep
    the other tickers whose score is at least the threshold, sort them
    descending with a sort of one's choice. *)
Definition matrix_row (m : CorrelationMatrix) (t : ticker) : result Series :=
  match index_of t (cm_index m) with
  | Some i => Ok (combine (cm_columns m) (nth i (cm_values m) []))
  | None => Raise KeyError
  end.

Definition above_threshold_row (m : CorrelationMatrix) (t : ticker)
           (threshold : Z) : result Series :=
  row <- matrix_row m t ;;
  Ok (filter (fun e => negb (String.eqb (fst e) t) && (threshold <=? snd e)%Z) row).

Definition above_threshold_brute_force (sort : bool -> Series -> Series)
           (m : CorrelationMatrix) (t : ticker) (threshold : Z) : result Series :=
  kept <- above_threshold_row m t threshold ;;
  Ok (sort false kept).

(** ** [SharpeRatioCalculator] *)

(** The floating-point operations the Sharpe computation uses (Python
    floats, [numpy.sqrt], [Series.mean], [Series.std]), as an interface. *)
Class FloatOps (num : Type) : Type := {
  f_zero : num;                      (* the literal 0.0 *)
  f_of_int : Z -> num;               (* an int used as a float *)
  f_mul : num -> num -> num;
  f_sub : num -> num -> num;
  f_div : num -> num -> num;
  f_sqrt : num -> num;
  f_eqb : num -> num -> bool;        (* == *)
  f_ltb : num -> num -> bool;        (* < *)
  series_mean : list num -> num;
  series_std : list num -> num
}.

(** [l[:n]] for an int [n]. *)
Definition slice_to {A : Type} (n : Z) (l : list A) : list A :=
  if (0 <=? n)%Z then firstn (Z.to_nat n) l
  else firstn (length l - Z.to_nat (- n)) l.

Section SharpeRatioCalculator.
Context {num : Type} {F : FloatOps num}.

(** A cell is [None] where the frame holds NaN. *)
Variable returns_df : DataFrame (option num).
Variable ordered_tickers : list ticker.

(** [self.returns_df[ticker]]. *)
Definition getitem (t : ticker) : result (list (option num)) :=
  match index_of t (columns returns_df) with
  | Some j => Ok (map (fun r => nth j r None) (rows returns_df))
  | None => Raise KeyError
  end.

Fixpoint dropna (s : list (option num)) : list num :=
  match s with
  | [] => []
  | Some v :: s' => v :: dropna s'
  | None :: s' => dropna s'
  end.

(** The score of one series, lines 30-38. *)
Definition sharpe_ratio_of (returns : list num) (risk_free_rate : num)
           (annualization_factor : Z) : num :=
  let annualized_return := f_mul (series_mean returns) (f_of_int annualization_factor) in
  let annualized_volatility :=
    f_mul (series_std returns) (f_sqrt (f_of_int annualization_factor)) in
  if f_eqb annualized_volatility (f_of_int 0) then f_zero
  else f_div (f_sub annualized_return risk_free_rate) annualized_volatility.

Definition sharpe_body (risk_free_rate : num) (annualization_factor : Z)
           (sharpe_ratios : list num) (t : ticker) : result (list num) :=
  column <- getitem t ;;
  let returns := dropna column in
  Ok (sharpe_ratios ++ [sharpe_ratio_of returns risk_free_rate annualization_factor]).

Definition calculate_sharpe_ratios (risk_free_rate : num) (annualization_factor : Z)
  : result (list num) :=
  (* daily_risk_free = risk_free_rate / annualization_factor *)
  if (annualization_factor =? 0)%Z then Raise ZeroDivisionError
  else for_each (sharpe_body risk_free_rate annualization_factor) [] ordered_tickers.

Definition get_sharpe_ranking (risk_free_rate : num) : result (list (ticker * num)) :=
  sharpe_ratios <- calculate_sharpe_ratios risk_free_rate 252 ;;
  let ranked_stocks := combine ordered_tickers sharpe_ratios in
  Ok (py_sorted snd f_ltb true ranked_stocks).

Definition get_top_sharpe_stocks (top_k : Z) (risk_free_rate : num)
  : result (list (ticker * num)) :=
  ranked_stocks <- get_sharpe_ranking risk_free_rate ;;
  Ok (slice_to top_k ranked_stocks).
End SharpeRatioCalculator.

(** ** [dict] *)

Section Dict.
Context {V : Type}.

Definition dict : Type := list (ticker * V).

(** [d.get(k)]. *)
Fixpoint dict_get (d : dict) (k : ticker) : option V :=
  match d with
  | [] => None
  | (k', v) :: d' => if String.eqb k' k then Some v else dict_get d' k
  end.

(** [d[k]]. *)
Definition dict_getitem (d : dict) (k : ticker) : result V :=
  match dict_get d k with
  | Some v => Ok v
  | None => Raise KeyError
  end.

(** [k in d]. *)
Definition dict_in (k : ticker) (d : dict) : bool :=
  match dict_get d k with
  | Some _ => true
  | None => false
  end.

(** [d[k] = v]: a present key keeps its place, a new key goes last. *)
Fixpoint dict_set (d : dict) (k : ticker) (v : V) : dict :=
  match d with
  | [] => [(k, v)]
  | (k', v') :: d' =>
      if String.eqb k' k then (k', v) :: d' else (k', v') :: dict_set d' k v
  end.
End Dict.

Arguments dict V : clear implicits.

(** ** [CorrelationNetworkGraph] *)

(** The adjacency [{source: {target: weight}}]. *)
Definition Graph : Type := dict (dict Z).

(** [correlation_matrix.iloc[i, j]]. *)
Definition iloc (m : CorrelationMatrix) (i j : nat) : result Z :=
  match nth_error (cm_values m) i with
  | Some row =>
      match nth_error row j with
      | Some v => Ok v
      | None => Raise IndexError
      end
  | None => Raise IndexError
  end.

(** [enumerate(l)]. *)
Definition enumerate {A : Type} (l : list A) : list (nat * A) :=
  combine (seq 0 (length l)) l.

Section BuildGraph.
Variable correlation_matrix : CorrelationMatrix.
Variable ordered_tickers : list ticker.
Variable threshold : Z.

(** Body of the inner loop, lines 21-24. *)
Definition build_inner (i : nat) (ticker_i : ticker) (graph : Graph)
           (jt : nat * ticker) : result Graph :=
  let '(j, ticker_j) := jt in
  if i <? j then
    corr <- iloc correlation_matrix i j ;;
    if (Z.abs corr >? threshold)%Z then
      neighbors <- dict_getitem graph ticker_i ;;
      Ok (dict_set graph ticker_i (dict_set neighbors ticker_j (Z.abs corr)))
    else Ok graph
  else Ok graph.

Definition build_outer (graph : Graph) (it : nat * ticker) : result Graph :=
  let '(i, ticker_i) := it in
  for_each (build_inner i ticker_i) graph (enumerate ordered_tickers).

Definition _build_graph : result Graph :=
  let graph := fold_left (fun g t => dict_set g t []) ordered_tickers [] in
  for_each build_outer graph (enumerate ordered_tickers).
End BuildGraph.

(** An item of the lists [get_similar_stocks] returns. *)
Record Similar : Type := {
  s_ticker : ticker;
  correlation_strength : Z
}.

(** An item of the list [get_common_similar_stocks] returns. *)
Record Common : Type := {
  c_ticker : ticker;
  avg_correlation_strength : Q
}.

Section Queries.
Variable graph : Graph.
Variable ordered_tickers : list ticker.

(** Lines 40-43: the outgoing connections. *)
Definition push_outgoing (st : list entry * list ticker) (nw : ticker * Z)
  : list entry * list ticker :=
  let '(heap, visited) := st in
  let '(neighbor, weight) := nw in
  if negb (contains visited neighbor) then
    (heappush tuple_lt heap ((- weight)%Z, neighbor), visited ++ [neighbor])
  else (heap, visited).

(** Lines 46-50: the incoming connections. *)
Definition push_incoming (t : ticker) (st : list entry * list ticker)
           (sn : ticker * dict Z) : list entry * list ticker :=
  let '(heap, visited) := st in
  let '(source_ticker, neighbors) := sn in
  match dict_get neighbors t with
  | Some weight =>
      if negb (contains visited source_ticker) then
        (heappush tuple_lt heap ((- weight)%Z, source_ticker),
         visited ++ [source_ticker])
      else (heap, visited)
  | None => (heap, visited)
  end.

(** Lines 54-59: [while heap and len(similar_stocks) < n]; every turn pops
    one item, so the length of the heap bounds the number of turns. *)
Fixpoint pop_loop (fuel : nat) (heap : list entry) (similar_stocks : list Similar)
         (n : Z) : result (list Similar) :=
  match fuel with
  | O => Ok similar_stocks
  | S fuel' =>
      match heap with
      | [] => Ok similar_stocks
      | _ :: _ =>
          if (Z.of_nat (length similar_stocks) <? n)%Z then
            '(neg_weight, stock, heap') <- heappop tuple_lt heap ;;
            pop_loop fuel' heap'
              (similar_stocks ++
                 [{| s_ticker := stock; correlation_strength := (- neg_weight)%Z |}])
              n
          else Ok similar_stocks
      end
  end.

(** Body of the loop over [tickers], lines 31-61. *)
Definition similar_body (n : Z) (results : dict (list Similar)) (t : ticker)
  : result (dict (list Similar)) :=
  match dict_get graph t with
  | None => Ok (dict_set results t [])
  | Some outgoing =>
      let st := fold_left push_outgoing outgoing ([], [t]) in
      let '(heap, _) := fold_left (push_incoming t) graph st in
      similar_stocks <- pop_loop (length heap) heap [] n ;;
      Ok (dict_set results t similar_stocks)
  end.

Definition get_similar_stocks (tickers : list ticker) (n : Z)
  : result (dict (list Similar)) :=
  for_each (similar_body n) [] tickers.

(** ** [get_common_similar_stocks] *)

(** The order in which a [set] is walked is not fixed by the language. *)
Variable set_iter : list ticker -> list ticker.

(** [{x for x in l}]. *)
Definition to_set (l : list ticker) : list ticker := nodup string_dec l.

Definition intersection (a b : list ticker) : list ticker :=
  filter (contains b) a.

(** Lines 82-85. *)
Definition intersect_body (all_similar : dict (list Similar))
           (common_stocks : list ticker) (t : ticker) : result (list ticker) :=
  similar <- dict_getitem all_similar t ;;
  match similar with
  | [] => Ok common_stocks
  | _ :: _ => Ok (intersection common_stocks (to_set (map s_ticker similar)))
  end.

(** Lines 97-100: the first source equal to [stock] that has [t] among its
    neighbours. *)
Fixpoint scan_sources (g : Graph) (stock t : ticker) : Z :=
  match g with
  | [] => 0%Z
  | (source, neighbors) :: g' =>
      match (if String.eqb source stock then dict_get neighbors t else None) with
      | Some w => w
      | None => scan_sources g' stock t
      end
  end.

(** Lines 92-101. *)
Definition strength_body (stock : ticker) (total_strength : Z) (t : ticker)
  : result Z :=
  outgoing <- dict_getitem graph t ;;
  let strength :=
    match dict_get outgoing stock with
    | Some w => w
    | None => scan_sources graph stock t
    end in
  Ok (total_strength + strength)%Z.

Definition common_body (tickers : list ticker) (common_with_strength : list Common)
           (stock : ticker) : result (list Common) :=
  total_strength <- for_each (strength_body stock) 0%Z tickers ;;
  let avg_strength := (inject_Z total_strength / inject_Z (Z.of_nat (length tickers)))%Q in
  Ok (common_with_strength ++
        [{| c_ticker := stock; avg_correlation_strength := avg_strength |}]).

Definition Q_ltb (a b : Q) : bool := negb (Qle_bool b a).

Definition get_common_similar_stocks (tickers : list ticker) (n : Z)
  : result (list Common) :=
  match tickers with
  | [] => Ok []
  | first_ticker :: others =>
      all_similar <- get_similar_stocks tickers (Z.of_nat (length ordered_tickers)) ;;
      first_similar <- dict_getitem all_similar first_ticker ;;
      common_stocks <-
        match first_similar with
        | [] => Ok []
        | _ :: _ =>
            for_each (intersect_body all_similar)
                     (to_set (map s_ticker first_similar)) others
        end ;;
      common_with_strength <-
        for_each (common_body tickers) [] (set_iter common_stocks) ;;
      Ok (slice_to n (py_sorted avg_correlation_strength Q_ltb true common_with_strength))
  end.

(** [get_graph_info]: nodes, edges, threshold. *)
Definition get_graph_info (threshold : Z) : nat * nat * Z :=
  (length ordered_tickers,
   fold_left Nat.add (map (fun sn => length (snd sn)) graph) 0,
   threshold).
End Queries.

(** ** Heap order *)

Section HeapOrder.
Context {A : Type}.
Variable lt : A -> A -> bool.

Definition parent_of (i : nat) : nat := Nat.div2 (i - 1).

(** No item is smaller than its parent. *)
Definition heap_ok (h : list A) : Prop :=
  forall i d, 0 < i < length h -> lt (nth i h d) (nth (parent_of i) h d) = false.

(** [_siftdown] at work: position [pos] is a hole waiting for [x]; the
    rest is in heap order, the children of the hole are not smaller than
    [x] nor than the parent of the hole. *)
Definition hole_ok (h : list A) (pos : nat) (x : A) : Prop :=
  (forall i d, 0 < i < length h -> i <> pos -> parent_of i <> pos ->
               lt (nth i h d) (nth (parent_of i) h d) = false) /\
  (forall i d, 0 < i < length h -> parent_of i = pos ->
               lt (nth i h d) x = false) /\
  (forall i d, 0 < i < length h -> parent_of i = pos -> 0 < pos ->
               lt (nth i h d) (nth (parent_of pos) h d) = false).

(** [_siftup] at work: the item at [pos] has been moved up; the rest is
    in heap order and the children of [pos] are not smaller than the
    parent of [pos]. *)
Definition up_ok (h : list A) (pos : nat) : Prop :=
  (forall i d, 0 < i < length h -> parent_of i <> pos ->
               lt (nth i h d) (nth (parent_of i) h d) = false) /\
  (forall i d, 0 < i < length h -> parent_of i = pos -> 0 < pos ->
               lt (nth i h d) (nth (parent_of pos) h d) = false).
End HeapOrder.

(** ** Specification vocabulary *)

(** The stream item an entry of [topk_stocks] stands for. *)
Definition as_item (e : entry) : ticker * Z := (snd e, fst e).

(** The heap entry [topk_stocks] builds from a stream item. *)
Definition as_entry (it : ticker * Z) : entry := (snd it, fst it).

(** Descending by score, on items [(ticker, score)]. *)
Definition score_desc (a b : ticker * Z) : Prop := (snd b <= snd a)%Z.

(** [sort(stream, descending)[:k]]: the full sort by score, then the slice. *)
Definition sort_then_slice (stream : list (ticker * Z)) (k : Z) : list (ticker * Z) :=
  firstn (Z.to_nat k) (py_sorted snd Z.ltb true stream).

(** The order [py_sorted] establishes between an item and a later one. *)
Definition in_order {A K : Type} (key : A -> K) (lt : K -> K -> bool)
           (reverse : bool) (a b : A) : Prop :=
  goes_behind key lt reverse a b = false.

(** What the loop of [topk_stocks] maintains: [heap] holds the best items
    seen so far, [rest] the items left out. *)
Definition topk_inv (k : Z) (heap rest : list entry) : Prop :=
  heap_ok tuple_lt heap /\
  (Z.of_nat (length heap) <= k)%Z /\
  (rest = [] \/ Z.of_nat (length heap) = k) /\
  (forall x y, In x heap -> In y rest -> (fst y <= fst x)%Z).

(** ** Sample inputs *)

(** The scores of the example in the specification. *)
Definition example_scores : list (ticker * Z) :=
  [("AAPL"%string, 5%Z); ("MSFT"%string, 3%Z); ("GOOG"%string, 8%Z);
   ("AMZN"%string, 1%Z)].

(** Two tickers with the same score. *)
Definition tied_scores : list (ticker * Z) :=
  [("A"%string, 5%Z); ("B"%string, 5%Z)].

(** A single score. *)
Definition one_score : list (ticker * Z) := [("AAPL"%string, 5%Z)].

(** Ascending by score, on items [(ticker, score)]. *)
Definition score_asc (a b : ticker * Z) : Prop := (snd a <= snd b)%Z.

(** What is known of [Series.sort_values]: the result holds the entries of
    the series, ascending or descending by value. *)
Definition sorts (sort_values : bool -> Series -> Series) : Prop :=
  forall (ascending : bool) (s : Series),
    Permutation (sort_values ascending s) s /\
    StronglySorted (if ascending then score_asc else score_desc)
                   (sort_values ascending s).

(** Two sorts that meet the contract: one keeps equal values in the order
    of the series, the other turns them round. *)
Definition stable_sort_values (ascending : bool) (s : Series) : Series :=
  py_sorted snd Z.ltb (negb ascending) s.

Definition reversing_sort_values (ascending : bool) (s : Series) : Series :=
  rev (py_sorted snd Z.ltb ascending s).

(** A stream with every score negated. *)
Definition negated (items : list (ticker * Z)) : list (ticker * Z) :=
  map (fun it => (fst it, (- snd it)%Z)) items.

(** ** Reading a graph and a matrix *)

(** The weight of the edge from [s] to [t], if the graph has that edge. *)
Definition edge (g : Graph) (s t : ticker) : option Z :=
  match dict_get g s with
  | Some neighbors => dict_get neighbors t
  | None => None
  end.

(** The value at row [i], column [j]. *)
Definition cell (m : CorrelationMatrix) (i j : nat) : Z :=
  nth j (nth i (cm_values m) []) 0%Z.

(** [n] rows of [n] values. *)
Definition square (m : CorrelationMatrix) (n : nat) : bool :=
  (length (cm_values m) =? n) && forallb (fun r => length r =? n) (cm_values m).

(** The pairs the two loops of [_build_graph] have gone through when the
    outer loop is at [a] and the inner loop at [b]. *)
Definition processed (a b i j : nat) : bool :=
  (i <? a) || ((i =? a) && (j <? b)).

(** The edges the graph must hold at that point. *)
Definition edges_upto (m : CorrelationMatrix) (tickers : list ticker) (threshold : Z)
           (a b : nat) (s t : ticker) : option Z :=
  match index_of s tickers, index_of t tickers with
  | Some i, Some j =>
      if processed a b i j && (i <? j) && (Z.abs (cell m i j) >? threshold)%Z
      then Some (Z.abs (cell m i j)) else None
  | _, _ => None
  end.

Definition build_inv (m : CorrelationMatrix) (tickers : list ticker) (threshold : Z)
           (a b : nat) (g : Graph) : Prop :=
  map fst g = tickers /\
  forall s t, edge g s t = edges_upto m tickers threshold a b s t.

(** Three tickers in market-cap order and their correlations in hundredths:
    only A and B are strongly correlated. *)
Definition example_tickers : list ticker := ["A"%string; "B"%string; "C"%string].

Definition example_matrix : CorrelationMatrix :=
  {| cm_columns := example_tickers;
     cm_index := example_tickers;
     cm_values := [[100; 90; 10]; [90; 100; -20]; [10; -20; 100]]%Z |}.

(** B and C are equally correlated with A. *)
Definition tied_matrix : CorrelationMatrix :=
  {| cm_columns := example_tickers;
     cm_index := example_tickers;
     cm_values := [[100; 50; 50]; [50; 100; 0]; [50; 0; 100]]%Z |}.

(** The graph built from them with threshold 0.70. *)
Definition example_graph : Graph :=
  [("A"%string, [("B"%string, 90%Z)]); ("B"%string, []); ("C"%string, [])].

(** ** Neighbour lists *)

(** No item of the list is the ticker [t] itself. *)
Definition no_self (t : ticker) (l : list Similar) : Prop :=
  forall s, In s l -> s_ticker s <> t.

(** What the two pushing loops of [get_similar_stocks] maintain for the
    ticker [t]: [t] is marked visited and is not in the heap. *)
Definition pushing_inv (t : ticker) (st : list entry * list ticker) : Prop :=
  In t (snd st) /\ forall e, In e (fst st) -> snd e <> t.

(** Every list of the result leaves out the ticker it belongs to. *)
Definition results_ok (results : dict (list Similar)) : Prop :=
  forall k l, dict_get results k = Some l -> no_self k l.

(** [m[i][j] = m[j][i]] for all positions of a matrix of size [n]. *)
Definition symmetric (m : CorrelationMatrix) (n : nat) : bool :=
  forallb (fun i => forallb (fun j => (cell m i j =? cell m j i)%Z) (seq 0 n))
          (seq 0 n).

(** A frame of three days of returns and a stand-in for [DataFrame.corr()]
    that keeps the labels. *)
Definition example_returns : DataFrame Z :=
  {| columns := example_tickers;
     rows := [[1; 2; 3]; [4; 5; 6]; [7; 8; 9]]%Z |}.

Definition labels_only (df : DataFrame Z) : CorrelationMatrix :=
  {| cm_columns := columns df; cm_index := columns df; cm_values := [] |}.

(** Descending by score, for a ranking with scores of any numeric type. *)
Definition ranked_desc {num : Type} (lt : num -> num -> bool)
           (a b : ticker * num) : Prop :=
  lt (snd a) (snd b) = false.

(** An instance of the arithmetic over the integers (truncating division,
    integer square root), to run the Sharpe computation on an example. *)
Definition integer_mean (l : list Z) : Z :=
  (fold_right Z.add 0 l / Z.of_nat (length l))%Z.

Definition integer_std (l : list Z) : Z :=
  let mu := integer_mean l in
  Z.sqrt (fold_right Z.add 0 (map (fun x => (x - mu) * (x - mu)) l)
          / (Z.of_nat (length l) - 1))%Z.

Definition integer_ops : FloatOps Z :=
  {| f_zero := 0%Z;
     f_of_int := fun z => z;
     f_mul := Z.mul;
     f_sub := Z.sub;
     f_div := Z.div;
     f_sqrt := Z.sqrt;
     f_eqb := Z.eqb;
     f_ltb := Z.ltb;
     series_mean := integer_mean;
     series_std := integer_std |}.

(** The same arithmetic with a NaN: [None] is NaN, every operation on a
    NaN gives NaN, every comparison with a NaN is false, the mean of no
    value and the standard deviation of fewer than two values are NaN
    (pandas divides by [n - 1]). *)
Definition nan_lift (f : Z -> Z -> Z) (a b : option Z) : option Z :=
  match a, b with
  | Some x, Some y => Some (f x y)
  | _, _ => None
  end.

Definition nan_test (f : Z -> Z -> bool) (a b : option Z) : bool :=
  match a, b with
  | Some x, Some y => f x y
  | _, _ => false
  end.

Fixpoint all_numbers (l : list (option Z)) : option (list Z) :=
  match l with
  | [] => Some []
  | Some x :: l' => option_map (cons x) (all_numbers l')
  | None :: _ => None
  end.

Definition nan_mean (l : list (option Z)) : option Z :=
  match all_numbers l with
  | Some (x :: xs) => Some (integer_mean (x :: xs))
  | _ => None
  end.

Definition nan_std (l : list (option Z)) : option Z :=
  match all_numbers l with
  | Some (x :: y :: xs) => Some (integer_std (x :: y :: xs))
  | _ => None
  end.

Definition nan_ops : FloatOps (option Z) :=
  {| f_zero := Some 0%Z;
     f_of_int := fun z => Some z;
     f_mul := nan_lift Z.mul;
     f_sub := nan_lift Z.sub;
     f_div := nan_lift Z.div;
     f_sqrt := option_map Z.sqrt;
     f_eqb := nan_test Z.eqb;
     f_ltb := nan_test Z.ltb;
     series_mean := nan_mean;
     series_std := nan_std |}.

(** Two days of returns of three tickers; B has no return on the first
    day, so its series has a single value. *)
Definition example_nan_returns : DataFrame (option (option Z)) :=
  {| columns := example_tickers;
     rows := [[Some (Some 20); None; Some (Some 10)];
              [Some (Some 50); Some (Some 10); Some (Some 20)]]%Z |}.

(** The returns of the column at position [j] that are not missing, oldest
    first. *)
Definition present_returns {num : Type} (returns_df : DataFrame (option num))
           (j : nat) : list num :=
  flat_map (fun row => match nth_error row j with
                       | Some (Some v) => [v]
                       | _ => []
                       end)
           (rows returns_df).

(** [lt] is a strict weak order on the keys of the list: no two of them
    are each below the other, and being not below is transitive.  Floats
    that are not NaN are comparable; a NaN and a number are not. *)
Definition comparable {K : Type} (lt : K -> K -> bool) (keys : list K) : Prop :=
  (forall a b, In a keys -> In b keys -> lt a b = true -> lt b a = false) /\
  (forall a b c, In a keys -> In b keys -> In c keys ->
                 lt a b = false -> lt b c = false -> lt a c = false).

(** Three days of returns of two tickers; B does not move. *)
Definition example_sharpe_returns : DataFrame (option Z) :=
  {| columns := ["A"%string; "B"%string];
     rows := [[Some 10; Some 5]; [Some 30; Some 5]; [Some 20; Some 5]]%Z |}.

(** [s] is a neighbour of [t]: the graph has an edge between them, in one
    direction or the other. *)
Definition neighbour (g : Graph) (t s : ticker) : Prop :=
  (exists w, edge g t s = Some w) \/ (exists w, edge g s t = Some w).

(** ** [StockAnalyzer]: the performance of one stock *)

(** [Series.tail(n)], as [DataFrame.tail(n)]. *)
Definition series_tail {A : Type} (n : Z) (s : list A) : list A :=
  if (n =? 0)%Z then []
  else if (0 <? n)%Z then skipn (length s - Z.to_nat n) s
  else skipn (Z.to_nat (- n)) s.

(** The exact sum, one possible value of the sums of the model. *)
Definition exact_sum (s : list Z) : Z := fold_left Z.add s 0%Z.

(** [returns_df[ticker]]. *)
Definition returns_column (returns_df : DataFrame Z) (t : ticker) : result (list Z) :=
  match index_of t (columns returns_df) with
  | Some j => Ok (map (fun r => nth j r 0%Z) (rows returns_df))
  | None => Raise KeyError
  end.

(** A cell of [asset_prices_df], the latest row of the table
    [asset_prices]: a price, SQL NULL (read as [None]), or the text of the
    [date] column. *)
Inductive Cell : Type :=
| Price (p : Z)
| Null
| Text (s : string).

(** [DataFrame.empty]: no row or no column. *)
Definition empty {V : Type} (df : DataFrame V) : bool :=
  match rows df, columns df with
  | [], _ => true
  | _, [] => true
  | _, _ => false
  end.

(** [asset_prices_df[ticker]]. *)
Definition price_column (asset_prices_df : DataFrame Cell) (t : ticker)
  : result (list Cell) :=
  match index_of t (columns asset_prices_df) with
  | Some j => Ok (map (fun r => nth j r Null) (rows asset_prices_df))
  | None => Raise KeyError
  end.

(** [get_stock_price], lines 63-83.  The log line formats the price with
    [f"{price:.2f}"]: that raises [TypeError] on [None] and [ValueError] on
    a [str]. *)
Definition get_stock_price (asset_prices_df : option (DataFrame Cell)) (t : ticker)
  : result (option Z) :=
  match asset_prices_df with
  | None => Ok None
  | Some df =>
      if empty df then Ok None
      else if negb (contains (columns df) t) then Ok None
      else
        column <- price_column df t ;;
        price <- first_item column ;;
        match price with
        | Price p => Ok (Some p)
        | Null => Raise TypeError
        | Text _ => Raise ValueError
        end
  end.

Section StockPerformance.
(** [Series.sum()], float64 addition with rounding: a parameter. *)
Variable series_sum : list Z -> Z.
Variable asset_prices_df : option (DataFrame Cell).
Variable returns_df : DataFrame Z.

(** [get_stock_performance], lines 169-199: the total return of a ticker
    over the last [n_days] rows, [None] for an unknown ticker.  The price
    is fetched for the log after the total is computed. *)
Definition get_stock_performance (t : ticker) (n_days : Z) : result (option Z) :=
  if (n_days >? len returns_df)%Z then Raise ValueError
  else if negb (contains (columns returns_df) t) then Ok None
  else
    column <- returns_column returns_df t ;;
    let recent_returns := series_tail n_days column in
    let total_return := series_sum recent_returns in
    current_price <- get_stock_price asset_prices_df t ;;
    Ok (Some total_return).
End StockPerformance.

(** [get_recent_performance_range]. *)
Definition get_recent_performance_range (returns_df : DataFrame Z) : Z * Z * Z :=
  let total_days := len returns_df in
  (0%Z, (total_days - 1)%Z, total_days).



Section PeriodAnalysis.
Variable series_sum : list Z -> Z.
Variable asset_prices_df : option (DataFrame Cell).
Variable returns_df : DataFrame Z.


End PeriodAnalysis.


(** The latest prices of the three sample tickers: B has none. *)
Definition example_prices : DataFrame Cell :=
  {| columns := ["date"%string; "A"%string; "B"%string; "C"%string];
     rows := [[Text "2024-01-05"%string; Price 101; Null; Price 7]] |}.

(** The default [periods=[7, 30, 90, 365]]. *)
Definition default_periods : list Z := [7; 30; 90; 365]%Z.

(** ** Vocabulary for the neighbour lists *)

(** Descending by correlation strength. *)
Definition strength_desc (a b : Similar) : Prop :=
  (correlation_strength b <= correlation_strength a)%Z.

(** The heap entry an item of a neighbour list was popped from. *)
Definition similar_entry (s : Similar) : entry :=
  ((- correlation_strength s)%Z, s_ticker s).

(** The strength [get_similar_stocks] reports between [t] and [s]: the
    weight of the edge from [t] to [s], else of the edge from [s] to [t]. *)
Definition strength_of (g : Graph) (t s : ticker) : option Z :=
  match edge g t s with
  | Some w => Some w
  | None => edge g s t
  end.

(** Every target of an edge is a node of the graph. *)
Definition graph_closed (g : Graph) : Prop :=
  forall s nb u, In (s, nb) g -> In u (map fst nb) -> In u (map fst g).

(** What the pushing loops of [get_similar_stocks] keep: heap order, no
    ticker twice in the heap, every ticker of the heap marked visited. *)
Definition heap_inv (st : list entry * list ticker) : Prop :=
  heap_ok tuple_lt (fst st) /\
  NoDup (map snd (fst st)) /\
  forall e, In e (fst st) -> In (snd e) (snd st).

(** ** Vocabulary for [get_common_similar_stocks] *)

(** The strength the averaging loop adds for input ticker [t] and
    candidate [c]: that of the edge between them, 0 without one. *)
Definition strength_or_zero (g : Graph) (t c : ticker) : Z :=
  match strength_of g t c with
  | Some w => w
  | None => 0%Z
  end.

Definition total_strength (g : Graph) (tickers : list ticker) (c : ticker) : Z :=
  fold_right (fun t acc => (strength_or_zero g t c + acc)%Z) 0%Z tickers.




(** ** Vocabulary for [get_graph_info] *)

(** No neighbour dictionary holds a key twice. *)
Definition inner_nodup (g : Graph) : Prop :=
  forall s nb, In (s, nb) g -> NoDup (map fst nb).

(** The pairs of positions [i < j] below [n] whose absolute correlation
    exceeds the threshold. *)
Definition strong_pairs (m : CorrelationMatrix) (n : nat) (threshold : Z)
  : list (nat * nat) :=
  filter (fun ij => (fst ij <? snd ij) &&
                    (Z.abs (cell m (fst ij) (snd ij)) >? threshold)%Z)
         (list_prod (seq 0 n) (seq 0 n)).

Definition is_some {A : Type} (o : option A) : bool :=
  match o with Some _ => true | None => false end.

(** ** [CompanyDataManager] *)

(** A row of [company_info]; a field is [None] where the frame holds a
    missing value ([pd.notna] is false). *)
Record CompanyRow : Type := {
  r_ticker : ticker;
  r_market_cap : option Z;
  r_sector : option string;
  r_industry : option string;
  r_name : option string
}.

(** The attributes [_load_data] fills. *)
Record CompanyData : Type := {
  market_cap_dict : dict Z;
  ticker_industry_dict : dict string;
  ticker_sector_dict : dict string;
  sector_tickers_dict : dict (list ticker);
  ticker_name_dict : dict string;
  ordered_tickers : list ticker
}.

Definition empty_company_data : CompanyData :=
  {| market_cap_dict := [];
     ticker_industry_dict := [];
     ticker_sector_dict := [];
     sector_tickers_dict := [];
     ticker_name_dict := [];
     ordered_tickers := [] |}.

(** [if pd.notna(value): d[ticker] = value]. *)
Definition set_if_notna {V : Type} (d : dict V) (t : ticker) (value : option V)
  : dict V :=
  match value with
  | Some v => dict_set d t v
  | None => d
  end.

(** Lines 41-44: the list of the sector is created on first use, then the
    ticker is appended to it. *)
Definition add_to_sector (d : dict (list ticker)) (sector : string) (t : ticker)
  : result (dict (list ticker)) :=
  let d1 := if negb (dict_in sector d) then dict_set d sector [] else d in
  l <- dict_getitem d1 sector ;;
  Ok (dict_set d1 sector (l ++ [t])).

(** Body of the loop over the rows, lines 25-48. *)
Definition load_row (st : CompanyData) (row : CompanyRow) : result CompanyData :=
  let t := r_ticker row in
  sectors <-
    match r_sector row with
    | Some sector => add_to_sector (sector_tickers_dict st) sector t
    | None => Ok (sector_tickers_dict st)
    end ;;
  Ok {| market_cap_dict := set_if_notna (market_cap_dict st) t (r_market_cap row);
        ticker_industry_dict :=
          set_if_notna (ticker_industry_dict st) t (r_industry row);
        ticker_sector_dict := set_if_notna (ticker_sector_dict st) t (r_sector row);
        sector_tickers_dict := sectors;
        ticker_name_dict := set_if_notna (ticker_name_dict st) t (r_name row);
        ordered_tickers := ordered_tickers st |}.

(** [self.market_cap_dict.get(x, 0)]. *)
Definition market_cap_or_zero (d : dict Z) (x : ticker) : Z :=
  match dict_get d x with
  | Some c => c
  | None => 0%Z
  end.

(** [_load_data] on the frame [df] read from [company_info];
    [asset_prices] holds the columns of the sample read from
    [asset_prices], and is [None] when that query raised. *)
Definition _load_data (df : list CompanyRow) (asset_prices : option (list string))
  : result CompanyData :=
  st <- for_each load_row empty_company_data df ;;
  let ordered :=
    match asset_prices with
    | Some sample_columns =>
        filter (fun col => negb (String.eqb col "date")) sample_columns
    | None =>
        py_sorted (market_cap_or_zero (market_cap_dict st)) Z.ltb true
                  (map fst (market_cap_dict st))
    end in
  Ok {| market_cap_dict := market_cap_dict st;
        ticker_industry_dict := ticker_industry_dict st;
        ticker_sector_dict := ticker_sector_dict st;
        sector_tickers_dict := sector_tickers_dict st;
        ticker_name_dict := ticker_name_dict st;
        ordered_tickers := ordered |}.

(** The tickers of the rows of one sector, in row order. *)
Definition tickers_of_sector (df : list CompanyRow) (s : string) : list ticker :=
  map r_ticker
      (filter (fun r => match r_sector r with
                        | Some s' => String.eqb s' s
                        | None => false
                        end) df).

(** A sector without rows has no entry. *)
Definition sector_group (df : list CompanyRow) (s : string) : option (list ticker) :=
  match tickers_of_sector df s with
  | [] => None
  | l => Some l
  end.

(** The value of the last row of ticker [t] whose field is not missing. *)
Fixpoint last_value {V : Type} (f : CompanyRow -> option V) (df : list CompanyRow)
         (t : ticker) : option V :=
  match df with
  | [] => None
  | r :: df' =>
      match last_value f df' t with
      | Some v => Some v
      | None => if String.eqb (r_ticker r) t then f r else None
      end
  end.

(** What the loop over the rows keeps, after the rows [rows]. *)
Definition load_inv (rows : list CompanyRow) (st : CompanyData) : Prop :=
  (forall s, dict_get (sector_tickers_dict st) s = sector_group rows s) /\
  (forall t, dict_get (ticker_sector_dict st) t = last_value r_sector rows t) /\
  (forall t, dict_get (market_cap_dict st) t = last_value r_market_cap rows t) /\
  NoDup (map fst (market_cap_dict st)).

(** Descending by market capitalisation. *)
Definition market_cap_desc (d : dict Z) (a b : ticker) : Prop :=
  (market_cap_or_zero d b <= market_cap_or_zero d a)%Z.

(** Three companies of two sectors; the third has no market cap. *)
Definition example_company_info : list CompanyRow :=
  [ {| r_ticker := "A"%string; r_market_cap := Some 10%Z;
       r_sector := Some "Tech"%string; r_industry := None;
       r_name := Some "Alpha"%string |};
    {| r_ticker := "B"%string; r_market_cap := Some 30%Z;
       r_sector := Some "Energy"%string; r_industry := None;
       r_name := Some "Beta"%string |};
    {| r_ticker := "C"%string; r_market_cap := None;
       r_sector := Some "Tech"%string; r_industry := None;
       r_name := None |} ].

(** ** [NetworkVisualizer]: the graph of the connected nodes *)

(** [nx.DiGraph] as its successor dictionary [G._succ]: one key per node,
    mapping to the dictionary of the node's successors with the weight of
    each edge. *)
Definition DiGraph : Type := Graph.

(** What [add_edge] does first for each endpoint: a node that is not in
    the graph yet is added without successors. *)
Definition add_node (G : DiGraph) (u : ticker) : DiGraph :=
  if negb (dict_in u G) then dict_set G u [] else G.

Definition successors (G : DiGraph) (u : ticker) : dict Z :=
  match dict_get G u with
  | Some adj => adj
  | None => []
  end.

(** [G.add_edge(u, v, weight=weight)]. *)
Definition add_edge (G : DiGraph) (u v : ticker) (weight : Z) : DiGraph :=
  let G' := add_node (add_node G u) v in
  dict_set G' u (dict_set (successors G' u) v weight).

(** [set.add]. *)
Definition set_add (s : list ticker) (x : ticker) : list ticker :=
  if contains s x then s else s ++ [x].

(** Lines 26-29: a source with targets and its targets are connected. *)
Definition mark_connected (connected_nodes : list ticker) (st : ticker * dict Z)
  : list ticker :=
  let '(source, targets) := st in
  match targets with
  | [] => connected_nodes
  | _ :: _ => fold_left set_add (map fst targets) (set_add connected_nodes source)
  end.

(** Lines 34-36. *)
Definition link_target (connected_nodes : list ticker) (source : ticker)
           (G : DiGraph) (tw : ticker * Z) : DiGraph :=
  let '(target, weight) := tw in
  if contains connected_nodes target then add_edge G source target weight else G.

(** Lines 32-36. *)
Definition link_source (connected_nodes : list ticker) (G : DiGraph)
           (st : ticker * dict Z) : DiGraph :=
  let '(source, targets) := st in
  if contains connected_nodes source
  then fold_left (link_target connected_nodes source) targets G
  else G.

(** [_build_connected_graph]: the graph [self.G] and [self.connected_nodes]. *)
Definition _build_connected_graph (graph : Graph) : DiGraph * list ticker :=
  let connected_nodes := fold_left mark_connected graph [] in
  (fold_left (link_source connected_nodes) graph [], connected_nodes).

(** A ticker with at least one edge, in either direction. *)
Definition has_edge (g : Graph) (u : ticker) : Prop :=
  exists s targets,
    In (s, targets) g /\ targets <> [] /\ (u = s \/ In u (map fst targets)).

(** * Facts *)

(** ** Lists updated in place *)

Lemma length_set_item {A : Type} (l : list A) (i : nat) (v : A) :
  length (set_item l i v) = length l.
Proof.
  revert i; induction l as [|h t IH]; intros [|i]; simpl; auto.
Qed.

Lemma nth_set_item_eq {A : Type} (l : list A) (i : nat) (v d : A) :
  i < length l -> nth i (set_item l i v) d = v.
Proof.
  revert i; induction l as [|h t IH]; intros [|i] Hi; simpl in *; try lia; auto.
  apply IH; lia.
Qed.

Lemma nth_set_item_neq {A : Type} (l : list A) (i j : nat) (v d : A) :
  i <> j -> nth j (set_item l i v) d = nth j l d.
Proof.
  revert i j; induction l as [|h t IH]; intros [|i] [|j] Hij; simpl; auto; try lia.
Qed.

Lemma set_item_same {A : Type} (l : list A) (i : nat) (v : A) :
  nth_error l i = Some v -> set_item l i v = l.
Proof.
  revert i; induction l as [|h t IH]; intros [|i] H; simpl in *; try discriminate.
  - now inversion H.
  - now rewrite IH.
Qed.

Lemma set_item_twice {A : Type} (l : list A) (i : nat) (v w : A) :
  set_item (set_item l i v) i w = set_item l i w.
Proof.
  revert i; induction l as [|h t IH]; intros [|i]; simpl; auto.
  now rewrite IH.
Qed.

Lemma nth_error_set_item_eq {A : Type} (l : list A) (i : nat) (v : A) :
  i < length l -> nth_error (set_item l i v) i = Some v.
Proof.
  revert i; induction l as [|h t IH]; intros [|i] Hi; simpl in *; try lia; auto.
  apply IH; lia.
Qed.

(** Overwriting position [i] trades the old item for the new one. *)
Lemma set_item_perm {A : Type} (l : list A) (i : nat) (v d : A) :
  i < length l -> Permutation (nth i l d :: set_item l i v) (v :: l).
Proof.
  revert i; induction l as [|h t IH]; intros [|i] Hi; simpl in *; try lia.
  - apply perm_swap.
  - etransitivity; [apply perm_swap|].
    etransitivity; [apply perm_skip, IH; lia|].
    apply perm_swap.
Qed.

(** Moving the item at [j] into the hole at [i] and the new item to [j]
    holds the same items as putting the new item into the hole. *)
Lemma set_item_move {A : Type} (l : list A) (i j : nat) (x d : A) :
  i < length l -> j < length l -> i <> j ->
  Permutation (set_item (set_item l i (nth j l d)) j x) (set_item l i x).
Proof.
  intros Hi Hj Hij.
  pose (a := nth j l d). pose (b := nth i l d).
  assert (PA : Permutation (a :: set_item (set_item l i a) j x) (x :: set_item l i a)).
  { replace a with (nth j (set_item l i a) d) at 1
      by (apply nth_set_item_neq; exact Hij).
    apply set_item_perm. now rewrite length_set_item. }
  assert (PB : Permutation (b :: set_item l i a) (a :: l))
    by (apply set_item_perm; exact Hi).
  assert (PC : Permutation (b :: set_item l i x) (x :: l))
    by (apply set_item_perm; exact Hi).
  apply (Permutation_cons_inv (a := a)), (Permutation_cons_inv (a := b)).
  etransitivity; [apply perm_skip, PA|].
  etransitivity; [apply perm_swap|].
  etransitivity; [apply perm_skip, PB|].
  etransitivity; [apply perm_swap|].
  etransitivity; [apply perm_skip; symmetry; apply PC|].
  apply perm_swap.
Qed.

Lemma firstn_in {A : Type} (n : nat) (l : list A) (x : A) :
  In x (firstn n l) -> In x l.
Proof.
  intro H. rewrite <- (firstn_skipn n l). apply in_or_app. now left.
Qed.

Lemma div2_pred_lt (pos : nat) : 0 < pos -> Nat.div2 (pos - 1) < pos.
Proof.
  intro H. destruct pos as [|p]; [lia|].
  simpl. rewrite Nat.sub_0_r. apply Nat.lt_succ_r, Nat.div2_decr. lia.
Qed.

Lemma list_pop_spec {A : Type} (l : list A) (x : A) (r : list A) :
  list_pop l = Ok (x, r) -> l = r ++ [x].
Proof.
  unfold list_pop. destruct (rev l) as [|y t] eqn:E; [discriminate|].
  intro H; inversion H; subst.
  rewrite <- (rev_involutive l), E. reflexivity.
Qed.

Lemma list_pop_nonempty {A : Type} (l : list A) :
  l <> [] -> exists x r, list_pop l = Ok (x, r).
Proof.
  intro H. unfold list_pop. destruct (rev l) as [|y t] eqn:E.
  - exfalso. apply H. rewrite <- (rev_involutive l), E. reflexivity.
  - eauto.
Qed.

(** ** [heapq] keeps the items *)

Section HeapqItems.
Context {A : Type}.
Variable lt : A -> A -> bool.

(** Fuel beyond what the loops need changes nothing: [_siftdown] moves
    towards the root, [_siftup] towards the leaves. *)
Lemma siftdown_loop_fuel (f1 : nat) :
  forall (f2 : nat) (heap : list A) (startpos pos : nat) (x : A),
    pos <= f1 -> pos <= f2 ->
    siftdown_loop lt f1 heap startpos pos x = siftdown_loop lt f2 heap startpos pos x.
Proof.
  induction f1 as [|f1 IH]; intros [|f2] heap startpos pos x H1 H2; simpl; auto.
  - destruct (startpos <? pos) eqn:Hs; auto. apply Nat.ltb_lt in Hs. lia.
  - destruct (startpos <? pos) eqn:Hs; auto. apply Nat.ltb_lt in Hs. lia.
  - destruct (startpos <? pos) eqn:Hs; auto.
    destruct (lt x _); auto.
    apply Nat.ltb_lt in Hs.
    assert (Hp : Nat.div2 (pos - 1) < pos) by (apply div2_pred_lt; lia).
    apply IH; lia.
Qed.

Lemma siftup_loop_fuel (f1 : nat) :
  forall (f2 : nat) (heap : list A) (endpos pos : nat) (x : A),
    endpos <= f1 + pos -> endpos <= f2 + pos ->
    siftup_loop lt f1 heap endpos pos x = siftup_loop lt f2 heap endpos pos x.
Proof.
  induction f1 as [|f1 IH]; intros [|f2] heap endpos pos x H1 H2;
    cbn [siftup_loop]; auto.
  - destruct (2 * pos + 1 <? endpos) eqn:Hc; auto. apply Nat.ltb_lt in Hc. lia.
  - destruct (2 * pos + 1 <? endpos) eqn:Hc; auto. apply Nat.ltb_lt in Hc. lia.
  - destruct (2 * pos + 1 <? endpos) eqn:Hc; auto.
    apply IH.
    + destruct (_ && _)%bool; lia.
    + destruct (_ && _)%bool; lia.
Qed.

Lemma siftdown_loop_perm (fuel : nat) :
  forall (heap : list A) (startpos pos : nat) (x : A),
    pos < length heap ->
    Permutation (siftdown_loop lt fuel heap startpos pos x) (set_item heap pos x).
Proof.
  induction fuel as [|fuel IH]; intros heap startpos pos x Hpos; simpl; auto.
  destruct (startpos <? pos) eqn:Hs; auto.
  destruct (lt x _); auto.
  apply Nat.ltb_lt in Hs.
  assert (Hp : Nat.div2 (pos - 1) < pos) by (apply div2_pred_lt; lia).
  etransitivity.
  - apply IH. rewrite length_set_item. lia.
  - apply set_item_move; lia.
Qed.

Lemma siftdown_perm (heap : list A) (startpos pos : nat) :
  Permutation (_siftdown lt heap startpos pos) heap.
Proof.
  unfold _siftdown. destruct (nth_error heap pos) as [x|] eqn:E; auto.
  etransitivity.
  - apply siftdown_loop_perm. apply nth_error_Some. congruence.
  - now rewrite set_item_same.
Qed.

Lemma siftup_loop_perm (fuel : nat) :
  forall (heap : list A) (pos : nat) (x : A) (h1 : list A) (leaf : nat),
    pos < length heap ->
    siftup_loop lt fuel heap (length heap) pos x = (h1, leaf) ->
    leaf < length heap /\ length h1 = length heap /\
    Permutation (set_item h1 leaf x) (set_item heap pos x).
Proof.
  induction fuel as [|fuel IH]; intros heap pos x h1 leaf Hpos; cbn [siftup_loop].
  - intro H; inversion H; subst; repeat split; auto.
  - destruct (2 * pos + 1 <? length heap) eqn:Hc.
    2:{ intro H; inversion H; subst; repeat split; auto. }
    apply Nat.ltb_lt in Hc.
    set (c := if (_ && _)%bool then 2 * pos + 1 + 1 else 2 * pos + 1).
    assert (Hcr : c < length heap /\ pos < c).
    { subst c. destruct (_ && _) eqn:Hb; [|lia].
      apply andb_true_iff in Hb. destruct Hb as [Hb _].
      apply Nat.ltb_lt in Hb. lia. }
    intro H.
    rewrite <- (length_set_item heap pos (nth c heap x)) in H.
    apply IH in H; [|rewrite length_set_item; lia].
    rewrite length_set_item in H. destruct H as (H1 & H2 & H3).
    repeat split; auto.
    etransitivity; [exact H3|]. apply set_item_move; lia.
Qed.

Lemma siftup_perm (heap : list A) (pos : nat) :
  Permutation (_siftup lt heap pos) heap.
Proof.
  unfold _siftup. destruct (nth_error heap pos) as [x|] eqn:E; auto.
  destruct (siftup_loop _ _ _ _ _ _) as [h1 leaf] eqn:Hl.
  apply siftup_loop_perm in Hl; [|apply nth_error_Some; congruence].
  destruct Hl as (H1 & H2 & H3).
  etransitivity; [apply siftdown_perm|].
  etransitivity; [exact H3|].
  now rewrite set_item_same.
Qed.

Lemma heappush_perm (heap : list A) (item : A) :
  Permutation (heappush lt heap item) (item :: heap).
Proof.
  unfold heappush. etransitivity; [apply siftdown_perm|].
  symmetry. apply Permutation_cons_append.
Qed.

Lemma heappop_perm (heap : list A) (item : A) (heap' : list A) :
  heappop lt heap = Ok (item, heap') -> Permutation heap (item :: heap').
Proof.
  unfold heappop. destruct (list_pop heap) as [[lastelt heap1]|] eqn:E; simpl;
    [|discriminate].
  apply list_pop_spec in E. subst heap.
  destruct heap1 as [|r t]; intro H; inversion H; subst; simpl; auto.
  apply perm_skip.
  etransitivity; [symmetry; apply Permutation_cons_append|].
  symmetry. apply (siftup_perm (lastelt :: t)).
Qed.

Lemma heappop_nonempty (heap : list A) :
  heap <> [] -> exists item heap', heappop lt heap = Ok (item, heap').
Proof.
  intro H. destruct (list_pop_nonempty H) as (x & r & E).
  unfold heappop. rewrite E. simpl. destruct r; eauto.
Qed.

Lemma heappushpop_perm (heap : list A) (item : A) :
  Permutation (fst (heappushpop lt heap item) :: snd (heappushpop lt heap item))
              (item :: heap).
Proof.
  unfold heappushpop. destruct heap as [|top t]; simpl; auto.
  destruct (lt top item); simpl; auto.
  etransitivity; [apply perm_skip, siftup_perm|]. apply perm_swap.
Qed.
End HeapqItems.

(** ** [heapq] keeps the heap order *)

Lemma parent_of_lt (i : nat) : 0 < i -> parent_of i < i.
Proof. apply div2_pred_lt. Qed.

Lemma parent_of_children (i p : nat) :
  0 < i -> parent_of i = p -> i = 2 * p + 1 \/ i = 2 * p + 2.
Proof.
  unfold parent_of. intros Hi Hp.
  destruct i as [|j]; [lia|]. simpl in Hp. rewrite Nat.sub_0_r in Hp.
  destruct (Nat.even j) eqn:E.
  - pose proof (Nat.div2_odd j) as H. rewrite <- Nat.negb_even, E in H.
    simpl in H. lia.
  - pose proof (Nat.div2_odd j) as H. rewrite <- Nat.negb_even, E in H.
    simpl in H. lia.
Qed.

Lemma parent_of_left (p : nat) : parent_of (2 * p + 1) = p.
Proof.
  unfold parent_of. replace (2 * p + 1 - 1) with (2 * p) by lia.
  apply Nat.div2_double.
Qed.

Lemma parent_of_right (p : nat) : parent_of (2 * p + 2) = p.
Proof.
  unfold parent_of. replace (2 * p + 2 - 1) with (S (2 * p)) by lia.
  apply Nat.div2_succ_double.
Qed.

Section HeapqOrder.
Context {A : Type}.
Variable lt : A -> A -> bool.
Hypothesis lt_asym : forall a b, lt a b = true -> lt b a = false.
Hypothesis lt_negtrans :
  forall a b c, lt a b = false -> lt b c = false -> lt a c = false.

Lemma lt_irrefl (a : A) : lt a a = false.
Proof. destruct (lt a a) eqn:E; auto. now rewrite (lt_asym E) in E. Qed.

(** Filling the hole once the parent is not larger than the item. *)
Lemma hole_fill (h : list A) (pos : nat) (x : A) :
  hole_ok lt h pos x -> pos < length h ->
  (0 < pos -> lt x (nth (parent_of pos) h x) = false) ->
  heap_ok lt (set_item h pos x).
Proof.
  intros (H1 & H2 & H3) Hpos Hx i d Hi. rewrite length_set_item in Hi.
  destruct (Nat.eq_dec i pos) as [->|Hne].
  - assert (Hp := parent_of_lt (proj1 Hi)).
    rewrite nth_set_item_eq by lia. rewrite nth_set_item_neq by lia.
    rewrite (nth_indep _ d x) by lia. apply Hx; lia.
  - rewrite nth_set_item_neq with (j := i) by lia.
    destruct (Nat.eq_dec (parent_of i) pos) as [Hp|Hp].
    + rewrite Hp, nth_set_item_eq by lia. now apply H2.
    + rewrite nth_set_item_neq by lia. now apply H1.
Qed.

(** One turn of the loop of [_siftdown]. *)
Lemma hole_step (h : list A) (pos : nat) (x : A) :
  hole_ok lt h pos x -> 0 < pos < length h ->
  lt x (nth (parent_of pos) h x) = true ->
  hole_ok lt (set_item h pos (nth (parent_of pos) h x)) (parent_of pos) x.
Proof.
  intros (H1 & H2 & H3) Hpos Hx.
  assert (Hpp := parent_of_lt (proj1 Hpos)).
  set (pp := parent_of pos) in *.
  assert (Hxp : forall d, lt (nth pp h d) x = false).
  { intro d. rewrite (nth_indep _ d x) by lia. now apply lt_asym. }
  repeat split; intros i d Hi; rewrite length_set_item in Hi.
  - intros Hne Hpne.
    assert (Hip : i <> pos) by (intro; subst i; now apply Hpne).
    rewrite nth_set_item_neq with (j := i) by lia.
    destruct (Nat.eq_dec (parent_of i) pos) as [Hp|Hp].
    + rewrite Hp, nth_set_item_eq by lia.
      rewrite (nth_indep _ x d) by lia. apply H3; auto; lia.
    + rewrite nth_set_item_neq by lia. now apply H1.
  - intros Hp.
    destruct (Nat.eq_dec i pos) as [->|Hip].
    + rewrite nth_set_item_eq by lia. apply Hxp.
    + rewrite nth_set_item_neq with (j := i) by lia.
      apply lt_negtrans with (b := nth pp h d); [|apply Hxp].
      rewrite <- Hp. apply H1; auto; lia.
  - intros Hp Hpos0.
    assert (Hppp := parent_of_lt Hpos0).
    assert (Hroot : lt (nth pp h d) (nth (parent_of pp) h d) = false)
      by (apply H1; lia).
    rewrite nth_set_item_neq with (j := parent_of pp) by lia.
    destruct (Nat.eq_dec i pos) as [->|Hip].
    + rewrite nth_set_item_eq by lia. now rewrite (nth_indep _ x d) by lia.
    + rewrite nth_set_item_neq with (j := i) by lia.
      apply lt_negtrans with (b := nth pp h d); [|exact Hroot].
      rewrite <- Hp. apply H1; auto; lia.
Qed.

Lemma siftdown_loop_ok (fuel : nat) :
  forall (h : list A) (pos : nat) (x : A),
    pos <= fuel -> pos < length h -> hole_ok lt h pos x ->
    heap_ok lt (siftdown_loop lt fuel h 0 pos x).
Proof.
  induction fuel as [|fuel IH]; intros h pos x Hf Hpos Hok; simpl.
  - apply hole_fill; auto. lia.
  - destruct (0 <? pos) eqn:H0.
    2:{ apply Nat.ltb_ge in H0. apply hole_fill; auto. lia. }
    apply Nat.ltb_lt in H0. fold (parent_of pos).
    assert (Hpp := parent_of_lt H0).
    destruct (lt x (nth (parent_of pos) h x)) eqn:Hx.
    + apply IH; [lia|rewrite length_set_item; lia|].
      apply hole_step; auto.
    + apply hole_fill; auto.
Qed.

Lemma heappush_ok (h : list A) (x : A) :
  heap_ok lt h -> heap_ok lt (heappush lt h x).
Proof.
  intro Hh. unfold heappush, _siftdown.
  rewrite nth_error_app2, Nat.sub_diag by lia. simpl.
  apply siftdown_loop_ok; [lia|rewrite length_app; simpl; lia|].
  repeat split; intros i d Hi; rewrite length_app in Hi; simpl in Hi.
  - intros Hne _. assert (Hp := parent_of_lt (proj1 Hi)).
    rewrite !app_nth1 by lia. apply Hh. lia.
  - intro Hp. assert (Hp' := parent_of_lt (proj1 Hi)). lia.
  - intro Hp. assert (Hp' := parent_of_lt (proj1 Hi)). lia.
Qed.

(** One turn of the loop of [_siftup]: the smaller child [c] moves up. *)
Lemma up_step (h : list A) (pos c : nat) (x : A) :
  up_ok lt h pos -> pos < c < length h -> parent_of c = pos ->
  (forall i d, 0 < i < length h -> parent_of i = pos ->
               lt (nth i h d) (nth c h d) = false) ->
  up_ok lt (set_item h pos (nth c h x)) c.
Proof.
  intros (H1 & H2) Hc Hpc Hmin.
  split; intros i d Hi; rewrite length_set_item in Hi.
  - intros Hp. assert (Hpi := parent_of_lt (proj1 Hi)).
    destruct (Nat.eq_dec (parent_of i) pos) as [Hpp|Hpp].
    + rewrite Hpp, nth_set_item_eq by lia.
      rewrite nth_set_item_neq by lia.
      rewrite (nth_indep _ x d) by lia. now apply Hmin.
    + rewrite nth_set_item_neq with (j := parent_of i) by lia.
      destruct (Nat.eq_dec i pos) as [->|Hip].
      * rewrite nth_set_item_eq by lia.
        rewrite (nth_indep _ x d) by lia. apply H2; auto; lia.
      * rewrite nth_set_item_neq by lia. now apply H1.
  - intros Hp _. assert (Hpi := parent_of_lt (proj1 Hi)).
    rewrite Hpc, nth_set_item_eq by lia.
    rewrite nth_set_item_neq by lia.
    rewrite (nth_indep _ x d) by lia. rewrite <- Hp. apply H1; lia.
Qed.

Lemma siftup_loop_ok (fuel : nat) :
  forall (h : list A) (pos : nat) (x : A) (h1 : list A) (leaf : nat),
    length h <= fuel + pos -> pos < length h -> up_ok lt h pos ->
    siftup_loop lt fuel h (length h) pos x = (h1, leaf) ->
    up_ok lt h1 leaf /\ length h1 <= 2 * leaf + 1.
Proof.
  induction fuel as [|fuel IH]; intros h pos x h1 leaf Hf Hpos Hok;
    cbn [siftup_loop].
  - lia.
  - destruct (2 * pos + 1 <? length h) eqn:Hc.
    2:{ apply Nat.ltb_ge in Hc. intro H; inversion H; subst. split; auto. }
    apply Nat.ltb_lt in Hc.
    set (c := if (_ && _)%bool then 2 * pos + 1 + 1 else 2 * pos + 1).
    assert (Hcr : pos < c < length h /\ parent_of c = pos /\
                  forall i d, 0 < i < length h -> parent_of i = pos ->
                              lt (nth i h d) (nth c h d) = false).
    { subst c. destruct (_ && _)%bool eqn:Hb.
      - apply andb_true_iff in Hb. destruct Hb as [Hb Hlt].
        apply Nat.ltb_lt in Hb. apply negb_true_iff in Hlt.
        split; [lia|]. split.
        + replace (2 * pos + 1 + 1) with (2 * pos + 2) by lia.
          apply parent_of_right.
        + intros i d Hi Hp.
          destruct (parent_of_children (proj1 Hi) Hp) as [->| ->].
          * rewrite (nth_indep _ d x), (nth_indep _ d x (n := 2 * pos + 1 + 1)) by lia.
            exact Hlt.
          * replace (2 * pos + 2) with (2 * pos + 1 + 1) by lia. apply lt_irrefl.
      - split; [lia|]. split; [apply parent_of_left|].
        intros i d Hi Hp.
        destruct (parent_of_children (proj1 Hi) Hp) as [->| ->].
        + apply lt_irrefl.
        + apply andb_false_iff in Hb. destruct Hb as [Hb|Hb].
          * apply Nat.ltb_ge in Hb. lia.
          * apply negb_false_iff in Hb. apply lt_asym.
            rewrite (nth_indep _ d x), (nth_indep _ d x (n := 2 * pos + 2)) by lia.
            replace (2 * pos + 2) with (2 * pos + 1 + 1) by lia. exact Hb. }
    destruct Hcr as (Hc1 & Hc2 & Hc3).
    intro H.
    rewrite <- (length_set_item h pos (nth c h x)) in H.
    apply IH in H.
    + exact H.
    + rewrite length_set_item. lia.
    + rewrite length_set_item. lia.
    + now apply up_step.
Qed.

(** [_siftup] at the root repairs a heap whose root was overwritten. *)
Lemma siftup_root_ok (h : list A) :
  up_ok lt h 0 -> heap_ok lt (_siftup lt h 0).
Proof.
  intro Hok. unfold _siftup.
  destruct (nth_error h 0) as [x|] eqn:E.
  2:{ destruct h; [|discriminate]. intros i d Hi. simpl in Hi. lia. }
  assert (H0 : 0 < length h) by (apply nth_error_Some; congruence).
  destruct (siftup_loop _ _ _ _ _ _) as [h1 leaf] eqn:Hl.
  pose proof Hl as Hp. apply siftup_loop_perm in Hp; [|exact H0].
  destruct Hp as (Hleaf & Hlen & _).
  apply siftup_loop_ok in Hl; auto; [|lia].
  destruct Hl as ((U1 & U2) & Hlf).
  unfold _siftdown. rewrite nth_error_set_item_eq by lia.
  apply siftdown_loop_ok; [lia|rewrite length_set_item; lia|].
  repeat split; intros i d Hi; rewrite length_set_item in Hi.
  - intros Hne Hp. rewrite !nth_set_item_neq by lia. now apply U1.
  - intro Hp. destruct (parent_of_children (proj1 Hi) Hp); lia.
  - intro Hp. destruct (parent_of_children (proj1 Hi) Hp); lia.
Qed.

Lemma up_ok_new_root (h : list A) (y : A) :
  heap_ok lt h -> up_ok lt (set_item h 0 y) 0.
Proof.
  intro Hh. split; intros i d Hi; rewrite length_set_item in Hi.
  - intro Hp. rewrite !nth_set_item_neq by lia. now apply Hh.
  - lia.
Qed.

Lemma heap_ok_prefix (h : list A) (x : A) :
  heap_ok lt (h ++ [x]) -> heap_ok lt h.
Proof.
  intros Hh i d Hi. assert (Hp := parent_of_lt (proj1 Hi)).
  specialize (Hh i d). rewrite length_app in Hh. simpl in Hh.
  rewrite !app_nth1 in Hh by lia. apply Hh. lia.
Qed.

Lemma heappop_ok (h : list A) (x : A) (h' : list A) :
  heap_ok lt h -> heappop lt h = Ok (x, h') -> heap_ok lt h'.
Proof.
  intros Hh. unfold heappop.
  destruct (list_pop h) as [[lastelt h1]|] eqn:E; simpl; [|discriminate].
  apply list_pop_spec in E. subst h. apply heap_ok_prefix in Hh.
  destruct h1 as [|r t]; intro H; inversion H; subst.
  - intros i d Hi. simpl in Hi. lia.
  - apply siftup_root_ok. now apply (up_ok_new_root (h := x :: t)).
Qed.

Lemma heappushpop_ok (h : list A) (x : A) :
  heap_ok lt h -> heap_ok lt (snd (heappushpop lt h x)).
Proof.
  intro Hh. unfold heappushpop. destruct h as [|top t]; simpl; auto.
  destruct (lt top x); simpl; auto.
  apply siftup_root_ok. now apply (up_ok_new_root (h := top :: t)).
Qed.

(** The root of a heap is a least item. *)
Lemma heap_root_least (h : list A) (d : A) :
  heap_ok lt h -> forall i, i < length h -> lt (nth i h d) (nth 0 h d) = false.
Proof.
  intros Hh i. induction i as [i IH] using lt_wf_ind. intro Hi.
  destruct i as [|j]; [apply lt_irrefl|].
  assert (Hp : parent_of (S j) < S j) by (apply parent_of_lt; lia).
  apply lt_negtrans with (b := nth (parent_of (S j)) h d).
  - apply Hh. lia.
  - apply IH; lia.
Qed.

Lemma heap_top_least (top : A) (t : list A) (y : A) :
  heap_ok lt (top :: t) -> In y (top :: t) -> lt y top = false.
Proof.
  intros Hh Hy. destruct (In_nth _ _ y Hy) as (i & Hi & <-).
  apply (heap_root_least y Hh Hi).
Qed.
End HeapqOrder.

(** ** The order on tuples *)

Lemma string_ltb_asym (a b : string) : String.ltb a b = true -> String.ltb b a = false.
Proof.
  unfold String.ltb. rewrite (String.compare_antisym b a).
  destruct (String.compare a b); simpl; congruence.
Qed.

Lemma string_ltb_total (a b : string) :
  String.ltb a b = false -> a = b \/ String.ltb b a = true.
Proof.
  unfold String.ltb. rewrite (String.compare_antisym b a).
  destruct (String.compare a b) eqn:E; simpl; try congruence; auto.
  left. now apply String_as_OT.cmp_eq.
Qed.

Lemma string_ltb_trans (a b c : string) :
  String.ltb a b = true -> String.ltb b c = true -> String.ltb a c = true.
Proof.
  unfold String.ltb.
  destruct (String.compare a b) eqn:E1; try discriminate.
  destruct (String.compare b c) eqn:E2; try discriminate.
  intros _ _.
  apply String_as_OT.cmp_lt in E1, E2.
  pose proof (String_as_OT.lt_trans _ _ _ E1 E2) as H.
  apply String_as_OT.cmp_lt in H. unfold String_as_OT.cmp in H. now rewrite H.
Qed.

Lemma string_ltb_irrefl (a : string) : String.ltb a a = false.
Proof.
  destruct (String.ltb a a) eqn:E; auto. now rewrite (string_ltb_asym _ _ E) in E.
Qed.

Lemma string_ltb_negtrans (a b c : string) :
  String.ltb a b = false -> String.ltb b c = false -> String.ltb a c = false.
Proof.
  intros H1 H2. destruct (String.ltb a c) eqn:H3; auto.
  destruct (string_ltb_total _ _ H1) as [->|H1']; [congruence|].
  destruct (string_ltb_total _ _ H2) as [->|H2']; [now rewrite (string_ltb_asym _ _ H3) in H1'|].
  pose proof (string_ltb_trans _ _ _ H2' H1') as H4.
  now rewrite (string_ltb_asym _ _ H3) in H4.
Qed.

Lemma tuple_lt_asym (a b : entry) : tuple_lt a b = true -> tuple_lt b a = false.
Proof.
  unfold tuple_lt. destruct a as [x s], b as [y t]; simpl.
  intro H. apply orb_true_iff in H. apply orb_false_iff.
  destruct H as [H|H].
  - apply Z.ltb_lt in H. split; [apply Z.ltb_ge; lia|].
    apply andb_false_iff. left. apply Z.eqb_neq. lia.
  - apply andb_true_iff in H. destruct H as [H1 H2]. apply Z.eqb_eq in H1.
    split; [apply Z.ltb_ge; lia|].
    apply andb_false_iff. right. now apply string_ltb_asym.
Qed.

Lemma tuple_lt_negtrans (a b c : entry) :
  tuple_lt a b = false -> tuple_lt b c = false -> tuple_lt a c = false.
Proof.
  unfold tuple_lt. destruct a as [x s], b as [y t], c as [z u]; simpl.
  intros H1 H2.
  apply orb_false_iff in H1, H2. apply orb_false_iff.
  destruct H1 as [H1 H1'], H2 as [H2 H2'].
  apply Z.ltb_ge in H1, H2. split; [apply Z.ltb_ge; lia|].
  apply andb_false_iff.
  destruct (Z.eqb_spec x z) as [->|Hne]; [right|now left].
  assert (y = z) by lia. subst y.
  rewrite Z.eqb_refl in H1', H2'. simpl in *.
  now apply string_ltb_negtrans with (b := t).
Qed.

Lemma tuple_lt_false_fst (a b : entry) : tuple_lt a b = false -> (fst b <= fst a)%Z.
Proof.
  unfold tuple_lt. intro H. apply orb_false_iff in H. destruct H as [H _].
  now apply Z.ltb_ge in H.
Qed.

Lemma tuple_lt_fst (a b : entry) : (fst a < fst b)%Z -> tuple_lt a b = true.
Proof.
  unfold tuple_lt. intro H. apply orb_true_iff. left. now apply Z.ltb_lt.
Qed.

(** ** [py_sorted] sorts *)

Section PySortFacts.
Context {A K : Type}.
Variable key : A -> K.
Variable lt : K -> K -> bool.
Variable reverse : bool.

Lemma sort_insert_perm (x : A) (l : list A) :
  Permutation (sort_insert key lt reverse x l) (x :: l).
Proof.
  induction l as [|y l IH]; simpl; auto.
  destruct (goes_behind key lt reverse x y); auto.
  etransitivity; [apply perm_skip, IH|]. apply perm_swap.
Qed.

Lemma py_sorted_perm (l : list A) : Permutation (py_sorted key lt reverse l) l.
Proof.
  induction l as [|x l IH]; simpl; auto.
  etransitivity; [apply sort_insert_perm|]. now apply perm_skip.
Qed.

Lemma py_sorted_length (l : list A) : length (py_sorted key lt reverse l) = length l.
Proof. apply Permutation_length, py_sorted_perm. Qed.

Hypothesis lt_asym : forall a b, lt a b = true -> lt b a = false.
Hypothesis lt_negtrans :
  forall a b c, lt a b = false -> lt b c = false -> lt a c = false.

Lemma in_order_trans (a b c : A) :
  in_order key lt reverse a b -> in_order key lt reverse b c ->
  in_order key lt reverse a c.
Proof.
  unfold in_order, goes_behind. destruct reverse; intros H1 H2.
  - now apply lt_negtrans with (b := key b).
  - now apply lt_negtrans with (b := key b).
Qed.

Lemma goes_behind_in_order (x y : A) :
  goes_behind key lt reverse x y = true -> in_order key lt reverse y x.
Proof.
  unfold in_order, goes_behind. destruct reverse; apply lt_asym.
Qed.

Lemma sort_insert_sorted (x : A) (l : list A) :
  StronglySorted (in_order key lt reverse) l ->
  StronglySorted (in_order key lt reverse) (sort_insert key lt reverse x l).
Proof.
  induction l as [|y l IH]; simpl; intro Hs.
  - constructor; auto.
  - inversion Hs as [|? ? Hs' Hall]; subst.
    destruct (goes_behind key lt reverse x y) eqn:E.
    + constructor; auto.
      apply Forall_forall. intros z Hz.
      apply (Permutation_in _ (sort_insert_perm x l)) in Hz.
      destruct Hz as [<-|Hz].
      * now apply goes_behind_in_order.
      * rewrite Forall_forall in Hall. now apply Hall.
    + constructor; auto. constructor; auto.
      eapply Forall_impl; [|exact Hall].
      intros z Hz. now apply in_order_trans with (b := y).
Qed.

Lemma py_sorted_sorted (l : list A) :
  StronglySorted (in_order key lt reverse) (py_sorted key lt reverse l).
Proof.
  induction l as [|x l IH]; simpl; [constructor|].
  now apply sort_insert_sorted.
Qed.
End PySortFacts.

(** Two sorted arrangements of the same items agree when the order tells
    the items apart. *)
Lemma sorted_unique {A : Type} (R : A -> A -> Prop) (l l' : list A) :
  (forall a b, In a l -> In b l -> R a b -> R b a -> a = b) ->
  Permutation l l' -> StronglySorted R l -> StronglySorted R l' -> l = l'.
Proof.
  revert l'. induction l as [|a t IH]; intros l' Hanti Hp Hs Hs'.
  - apply Permutation_nil in Hp. now subst.
  - destruct l' as [|a' t'].
    { apply Permutation_sym, Permutation_nil in Hp. discriminate. }
    inversion Hs as [|? ? Hst Hall]; subst.
    inversion Hs' as [|? ? Hst' Hall']; subst.
    rewrite Forall_forall in Hall, Hall'.
    assert (Ha' : In a' (a :: t))
      by (apply (Permutation_in _ (Permutation_sym Hp)); now left).
    assert (Ha : In a (a' :: t')) by (apply (Permutation_in _ Hp); now left).
    assert (a = a').
    { destruct Ha' as [E|Ha']; [exact E|].
      destruct Ha as [E|Ha]; [now symmetry|].
      apply Hanti; simpl; auto. }
    subst a'. f_equal. apply IH; auto.
    + intros x y Hx Hy. apply Hanti; simpl; auto.
    + now apply Permutation_cons_inv in Hp.
Qed.

Lemma StronglySorted_app {A : Type} (R : A -> A -> Prop) (l1 l2 : list A) :
  StronglySorted R l1 -> StronglySorted R l2 ->
  (forall x y, In x l1 -> In y l2 -> R x y) ->
  StronglySorted R (l1 ++ l2).
Proof.
  induction l1 as [|a t IH]; simpl; intros H1 H2 Hc; auto.
  inversion H1 as [|? ? Hs Hall]; subst.
  constructor.
  - apply IH; auto.
  - apply Forall_app. split; auto.
    apply Forall_forall. intros y Hy. apply Hc; auto.
Qed.

Lemma StronglySorted_map {A B : Type} (R : A -> A -> Prop) (S : B -> B -> Prop)
      (f : A -> B) (l : list A) :
  (forall a b, R a b -> S (f a) (f b)) ->
  StronglySorted R l -> StronglySorted S (map f l).
Proof.
  intro Hf. induction 1 as [|a l Hs IH Hall]; simpl; constructor; auto.
  apply Forall_map. eapply Forall_impl; [|exact Hall]. intros; now apply Hf.
Qed.

(** ** The bounded heap of [topk_stocks] *)

Lemma heap_ok_nil {A : Type} (lt : A -> A -> bool) : heap_ok lt [].
Proof. intros i d Hi. simpl in Hi. lia. Qed.

Lemma topk_body_inv (k : Z) (heap rest : list entry) (item : ticker * Z) :
  (1 <= k)%Z -> topk_inv k heap rest ->
  exists heap' rest',
    topk_body k heap item = Ok heap' /\
    topk_inv k heap' rest' /\
    Permutation (heap' ++ rest') (as_entry item :: heap ++ rest).
Proof.
  intros Hk (Hok & Hlen & Hrest & Hcross).
  destruct item as [t r]. unfold topk_body, as_entry. simpl.
  destruct (Z.of_nat (length heap) <? k)%Z eqn:Hlt.
  - (* room left: push *)
    apply Z.ltb_lt in Hlt.
    pose proof (heappush_perm tuple_lt heap (r, t)) as Hp.
    exists (heappush tuple_lt heap (r, t)), rest. split; [reflexivity|]. split.
    + repeat split.
      * apply heappush_ok;
          [exact tuple_lt_asym|exact tuple_lt_negtrans|exact Hok].
      * rewrite (Permutation_length Hp). simpl. lia.
      * left. destruct Hrest; [assumption|lia].
      * intros x y _ Hy. destruct Hrest as [->|]; [contradiction|lia].
    + now apply (Permutation_app_tail rest) in Hp.
  - (* full: compare with the root *)
    apply Z.ltb_ge in Hlt.
    destruct heap as [|top h]; [simpl in *; lia|]. simpl first_item. simpl bind.
    destruct (r >? fst top)%Z eqn:Hgt.
    + assert (Hr : (fst top < r)%Z) by (apply Z.gtb_lt in Hgt; lia).
      pose proof (heappushpop_perm tuple_lt (top :: h) (r, t)) as Hp.
      assert (Hfst : fst (heappushpop tuple_lt (top :: h) (r, t)) = top).
      { unfold heappushpop. now rewrite (tuple_lt_fst top (r, t) Hr). }
      rewrite Hfst in Hp.
      set (heap' := snd (heappushpop tuple_lt (top :: h) (r, t))) in *.
      exists heap', (top :: rest). split; [reflexivity|]. split.
      * repeat split.
        -- apply heappushpop_ok;
             [exact tuple_lt_asym|exact tuple_lt_negtrans|exact Hok].
        -- apply Permutation_length in Hp. simpl in *. lia.
        -- right. apply Permutation_length in Hp. simpl in *. lia.
        -- intros x y Hx Hy.
           assert (Hx' : In x ((r, t) :: top :: h))
             by (apply (Permutation_in _ Hp); now right).
           assert (Htop : forall z, In z (top :: h) -> (fst top <= fst z)%Z).
           { intros z Hz. apply tuple_lt_false_fst.
             apply (heap_top_least tuple_lt_asym tuple_lt_negtrans Hok Hz). }
           destruct Hy as [<-|Hy].
           ++ destruct Hx' as [<-|Hx']; [simpl; lia|now apply Htop].
           ++ destruct Hx' as [<-|Hx'].
              ** specialize (Hcross top y (or_introl eq_refl) Hy). simpl. lia.
              ** now apply Hcross.
      * etransitivity; [symmetry; apply Permutation_middle|].
        now apply (Permutation_app_tail rest) in Hp.
    + assert (Hr : (r <= fst top)%Z).
      { destruct (Z.gtb_spec r (fst top)); [discriminate|lia]. }
      exists (top :: h), ((r, t) :: rest). split; [reflexivity|]. split.
      * repeat split; auto.
        -- right. simpl in *. lia.
        -- intros x y Hx [<-|Hy]; [|now apply Hcross].
           simpl. etransitivity; [exact Hr|].
           apply tuple_lt_false_fst.
           apply (heap_top_least tuple_lt_asym tuple_lt_negtrans Hok Hx).
      * symmetry. apply (Permutation_middle (top :: h) rest (r, t)).
Qed.

Lemma topk_loop_inv (k : Z) (items : list (ticker * Z)) :
  (1 <= k)%Z ->
  forall heap rest,
    topk_inv k heap rest ->
    exists heap' rest',
      for_each (topk_body k) heap items = Ok heap' /\
      topk_inv k heap' rest' /\
      Permutation (heap' ++ rest') (map as_entry items ++ heap ++ rest).
Proof.
  intro Hk. induction items as [|item items IH]; intros heap rest Hinv; simpl.
  - exists heap, rest. auto.
  - destruct (topk_body_inv item Hk Hinv) as (h1 & r1 & E & Hinv1 & Hp1).
    rewrite E. simpl.
    destruct (IH h1 r1 Hinv1) as (h2 & r2 & E2 & Hinv2 & Hp2).
    exists h2, r2. split; [exact E2|]. split; [exact Hinv2|].
    etransitivity; [exact Hp2|].
    etransitivity; [apply Permutation_app_head, Hp1|].
    symmetry. apply Permutation_middle.
Qed.

Lemma as_item_as_entry (l : list (ticker * Z)) : map as_item (map as_entry l) = l.
Proof.
  rewrite map_map. rewrite <- (map_id l) at 2. apply map_ext.
  now intros [t r].
Qed.

Lemma score_desc_of_tuple_order (a b : entry) :
  in_order id tuple_lt true a b -> score_desc (as_item a) (as_item b).
Proof.
  unfold in_order, goes_behind, score_desc, id. simpl. apply tuple_lt_false_fst.
Qed.

Lemma score_desc_of_key_order (a b : ticker * Z) :
  in_order snd Z.ltb true a b -> score_desc a b.
Proof.
  unfold in_order, goes_behind, score_desc. simpl. apply Z.ltb_ge.
Qed.

Lemma Zltb_asym (a b : Z) : (a <? b)%Z = true -> (b <? a)%Z = false.
Proof. intro H. apply Z.ltb_lt in H. apply Z.ltb_ge. lia. Qed.

Lemma Zltb_negtrans (a b c : Z) :
  (a <? b)%Z = false -> (b <? c)%Z = false -> (a <? c)%Z = false.
Proof. intros H1 H2. apply Z.ltb_ge in H1, H2. apply Z.ltb_ge. lia. Qed.

Lemma sort_by_score_sorted (l : list (ticker * Z)) :
  StronglySorted score_desc (py_sorted snd Z.ltb true l).
Proof.
  rewrite <- (map_id (py_sorted _ _ _ _)).
  apply StronglySorted_map with (R := in_order snd Z.ltb true).
  - apply score_desc_of_key_order.
  - apply py_sorted_sorted; [exact Zltb_asym|exact Zltb_negtrans].
Qed.

(** The heap loop, then the final [sorted]: the result heads an arrangement
    of the stream that is sorted descending by score. *)
Lemma topk_heap_arrangement (stream : list (ticker * Z)) (k : Z) :
  (1 <= k)%Z ->
  exists top_stocks l,
    topk_heap stream k = Ok top_stocks /\
    Permutation l stream /\ StronglySorted score_desc l /\
    map as_item top_stocks = firstn (Z.to_nat k) l.
Proof.
  intro Hk. unfold topk_heap.
  assert (Hinv0 : topk_inv k [] []).
  { repeat split; simpl; auto; try lia. apply heap_ok_nil. }
  destruct (topk_loop_inv stream Hk Hinv0) as (heap & rest & E & Hinv & Hp).
  rewrite E. simpl. rewrite app_nil_r in Hp.
  destruct Hinv as (_ & Hlen & Hrest & Hcross).
  set (res := py_sorted id tuple_lt true heap).
  assert (Hres : Permutation res heap) by apply py_sorted_perm.
  exists res, (map as_item res ++ py_sorted snd Z.ltb true (map as_item rest)).
  split; [reflexivity|]. split; [|split].
  - rewrite <- (as_item_as_entry stream).
    etransitivity; [|apply Permutation_map, Hp].
    rewrite map_app. apply Permutation_app.
    + now apply Permutation_map.
    + apply py_sorted_perm.
  - apply StronglySorted_app.
    + apply StronglySorted_map with (R := in_order id tuple_lt true).
      * apply score_desc_of_tuple_order.
      * apply py_sorted_sorted; [exact tuple_lt_asym|exact tuple_lt_negtrans].
    + apply sort_by_score_sorted.
    + intros x y Hx Hy.
      apply in_map_iff in Hx. destruct Hx as (ex & <- & Hx).
      apply (Permutation_in _ (py_sorted_perm _ _ _ _)) in Hy.
      apply in_map_iff in Hy. destruct Hy as (ey & <- & Hy).
      apply (Permutation_in _ Hres) in Hx.
      unfold score_desc, as_item. simpl. now apply Hcross.
  - assert (Hl : length (map as_item res) = length heap)
      by (rewrite length_map; apply Permutation_length, Hres).
    destruct Hrest as [->|Hfull].
    + simpl. rewrite app_nil_r. symmetry. apply firstn_all2. lia.
    + replace (Z.to_nat k) with (length (map as_item res) + 0) by lia.
      now rewrite firstn_app_2, app_nil_r.
Qed.

Lemma NoDup_map_eq {A B : Type} (f : A -> B) (l : list A) (a b : A) :
  NoDup (map f l) -> In a l -> In b l -> f a = f b -> a = b.
Proof.
  induction l as [|x l IH]; simpl; intros Hnd Ha Hb Hf; [contradiction|].
  inversion Hnd as [|? ? Hx Hnd']; subst.
  destruct Ha as [->|Ha], Hb as [->|Hb]; auto.
  - exfalso. apply Hx. rewrite Hf. now apply in_map.
  - exfalso. apply Hx. rewrite <- Hf. now apply in_map.
Qed.

(** C1, amended.  For every stream of (ticker, score) items and every
    [k >= 1], the bounded-heap selection of [topk_stocks] returns, and the
    tickers and scores of its entries are, position by position, the first
    [k] items of an arrangement of the stream sorted descending by score;
    when the scores are pairwise distinct this is exactly
    [sort(stream, descending)[:k]]. *)
Theorem topk_heap_sort_then_slice (stream : list (ticker * Z)) (k : Z) :
  (1 <= k)%Z ->
  exists top_stocks,
    topk_heap stream k = Ok top_stocks /\
    (exists l, Permutation l stream /\ StronglySorted score_desc l /\
               map as_item top_stocks = firstn (Z.to_nat k) l) /\
    (NoDup (map snd stream) ->
     map as_item top_stocks = sort_then_slice stream k).
Proof.
  intro Hk.
  destruct (topk_heap_arrangement stream Hk) as (res & l & E & Hp & Hs & Hf).
  exists res. split; [exact E|]. split; [now exists l|].
  intro Hnd. rewrite Hf. unfold sort_then_slice. f_equal.
  apply sorted_unique with (R := score_desc); auto.
  - intros a b Ha Hb Hab Hba.
    apply (NoDup_map_eq snd stream); auto.
    + now apply (Permutation_in _ Hp).
    + now apply (Permutation_in _ Hp).
    + unfold score_desc in *. lia.
  - etransitivity; [exact Hp|]. symmetry. apply py_sorted_perm.
  - apply sort_by_score_sorted.
Qed.

Lemma topk_heap_sort_then_slice_witness :
  exists top_stocks,
    topk_heap example_scores 2 = Ok top_stocks /\
    map as_item top_stocks = sort_then_slice example_scores 2.
Proof.
  destruct (@topk_heap_sort_then_slice example_scores 2) as (r & E & _ & H);
    [lia|].
  exists r. split; [exact E|]. apply H.
  repeat constructor; simpl; intuition discriminate.
Defined.

(** C1 as stated fails on ties: with two tickers at the same score the
    result for [k = 2] is not the stable sort of the stream, and no single
    arrangement of the stream has the results for [k = 1] and for [k = 2]
    as its slices. *)
Lemma topk_heap_ties_counterexample :
  (forall r, topk_heap tied_scores 2 = Ok r ->
             map as_item r <> sort_then_slice tied_scores 2) /\
  ~ (exists l r1 r2,
        topk_heap tied_scores 1 = Ok r1 /\ map as_item r1 = firstn 1 l /\
        topk_heap tied_scores 2 = Ok r2 /\ map as_item r2 = firstn 2 l).
Proof.
  split.
  - intros r E. vm_compute in E. inversion E; subst. vm_compute. discriminate.
  - intros (l & r1 & r2 & E1 & H1 & E2 & H2).
    vm_compute in E1, E2. inversion E1; subst. inversion E2; subst.
    destruct l as [|a [|b l]]; simpl in *; try discriminate.
    inversion H1; subst. inversion H2.
Qed.

(** The example of the specification, as the code evaluates it: each entry
    is (score, ticker). *)
Example topk_heap_example :
  topk_heap example_scores 2 = Ok [(8%Z, "GOOG"%string); (5%Z, "AAPL"%string)].
Proof. reflexivity. Qed.

(** ** The edge cases of [topk_stocks] and [leastk_stocks] *)

(** With an empty stream both functions return the empty list, whatever [k]. *)
Lemma topk_leastk_empty_stream (k : Z) :
  topk_heap [] k = Ok [] /\ leastk_heap [] k = Ok [].
Proof. split; reflexivity. Qed.

(** With [k >= 1] at least the length of the stream, [topk_stocks] returns
    all items, sorted descending by score. *)
Lemma topk_heap_all (stream : list (ticker * Z)) (k : Z) :
  (1 <= k)%Z -> (Z.of_nat (length stream) <= k)%Z ->
  exists top_stocks,
    topk_heap stream k = Ok top_stocks /\
    Permutation (map as_item top_stocks) stream /\
    StronglySorted score_desc (map as_item top_stocks).
Proof.
  intros Hk Hn.
  destruct (topk_heap_arrangement stream Hk) as (res & l & E & Hp & Hs & Hf).
  exists res. split; [exact E|].
  rewrite firstn_all2 in Hf by (rewrite (Permutation_length Hp); lia).
  rewrite Hf. auto.
Qed.

(** [leastk_stocks] runs the loop of [topk_stocks] on the negated scores. *)
Lemma leastk_body_negated (k : Z) (heap : list entry) (t : ticker) (r : Z) :
  leastk_body k heap (t, r) = topk_body k heap (t, (- r)%Z).
Proof.
  unfold leastk_body, topk_body.
  destruct (Z.of_nat (length heap) <? k)%Z; auto.
  destruct heap as [|top h]; simpl; auto.
  replace (r <? - fst top)%Z with (- r >? fst top)%Z; auto.
  destruct (Z.gtb_spec (- r) (fst top)), (Z.ltb_spec r (- fst top)); auto; lia.
Qed.

Lemma leastk_loop_negated (k : Z) (items : list (ticker * Z)) :
  forall heap,
    for_each (leastk_body k) heap items = for_each (topk_body k) heap (negated items).
Proof.
  induction items as [|[t r] items IH]; intro heap; [reflexivity|].
  unfold negated. cbn [for_each map fst snd]. fold (negated items).
  rewrite leastk_body_negated.
  destruct (topk_body k heap (t, (- r)%Z)); cbn [bind]; auto.
Qed.

Lemma tuple_asc_score_asc (a b : entry) :
  in_order id tuple_lt false a b -> score_asc (as_item a) (as_item b).
Proof.
  unfold in_order, goes_behind, score_asc, id. simpl. apply tuple_lt_false_fst.
Qed.

(** With [k >= 1] at least the length of the stream, [leastk_stocks]
    returns all items, sorted ascending by score. *)
Lemma leastk_heap_all (stream : list (ticker * Z)) (k : Z) :
  (1 <= k)%Z -> (Z.of_nat (length stream) <= k)%Z ->
  exists bottom_stocks,
    leastk_heap stream k = Ok bottom_stocks /\
    Permutation (map as_item bottom_stocks) stream /\
    StronglySorted score_asc (map as_item bottom_stocks).
Proof.
  intros Hk Hn. unfold leastk_heap. rewrite leastk_loop_negated.
  assert (Hinv0 : topk_inv k [] []).
  { repeat split; simpl; auto; try lia. apply heap_ok_nil. }
  destruct (topk_loop_inv (negated stream) Hk Hinv0)
    as (heap & rest & E & (_ & Hlen & Hrest & _) & Hp).
  rewrite E. simpl. rewrite app_nil_r in Hp.
  assert (Hr : rest = []).
  { destruct Hrest as [|Hfull]; auto.
    apply Permutation_length in Hp.
    rewrite length_app, length_map in Hp. unfold negated in Hp.
    rewrite length_map in Hp. destruct rest; auto. simpl in Hp. lia. }
  subst rest. rewrite app_nil_r in Hp.
  eexists. split; [reflexivity|]. split.
  - etransitivity; [apply Permutation_map, py_sorted_perm|].
    etransitivity; [apply Permutation_map, Permutation_map, Hp|].
    unfold negated. rewrite !map_map.
    rewrite <- (map_id stream) at 2.
    erewrite map_ext; [reflexivity|].
    intros [t r]. unfold as_item, as_entry. simpl. f_equal. lia.
  - apply StronglySorted_map with (R := in_order id tuple_lt false).
    + apply tuple_asc_score_asc.
    + apply py_sorted_sorted; [exact tuple_lt_asym|exact tuple_lt_negtrans].
Qed.

(** C4.  With [k = 0] and a stream that is not empty, neither function
    returns the empty list: the first turn of the loop reads the root of an
    empty heap, which raises [IndexError]. *)
Theorem topk_leastk_zero_k_raise (item : ticker * Z) (items : list (ticker * Z)) :
  topk_heap (item :: items) 0 = Raise IndexError /\
  leastk_heap (item :: items) 0 = Raise IndexError.
Proof. destruct item as [t r]. split; reflexivity. Qed.

Example topk_stocks_zero_k (frame_sum : list Z -> Z) :
  topk_stocks frame_sum {| columns := ["AAPL"%string]; rows := [[5%Z]] |} 1 0
  = Raise IndexError.
Proof. reflexivity. Qed.

(** ** Dictionaries *)

Section DictFacts.
Context {V : Type}.
Implicit Types (d : dict V) (k : ticker) (v : V).

Lemma dict_get_set_eq d k v : dict_get (dict_set d k v) k = Some v.
Proof.
  induction d as [|[k' v'] d IH]; simpl.
  - now rewrite String.eqb_refl.
  - destruct (String.eqb k' k) eqn:E; simpl; rewrite E; auto.
Qed.

Lemma dict_get_set_neq d k k' v :
  k <> k' -> dict_get (dict_set d k v) k' = dict_get d k'.
Proof.
  intro Hne. induction d as [|[k0 v0] d IH]; simpl.
  - destruct (String.eqb_spec k k'); congruence.
  - destruct (String.eqb_spec k0 k) as [->|Hk]; simpl.
    + destruct (String.eqb_spec k k'); congruence.
    + destruct (String.eqb_spec k0 k'); auto.
Qed.

Lemma dict_get_in_keys d k : In k (map fst d) <-> exists v, dict_get d k = Some v.
Proof.
  induction d as [|[k0 v0] d IH]; simpl.
  - split; [contradiction|intros (v & H); discriminate].
  - destruct (String.eqb_spec k0 k) as [->|Hk].
    + split; eauto.
    + rewrite <- IH. split; auto. intros [H|H]; [congruence|auto].
Qed.

Lemma dict_get_none d k : dict_get d k = None <-> ~ In k (map fst d).
Proof.
  rewrite dict_get_in_keys. destruct (dict_get d k); split; try congruence.
  - intro H. exfalso. apply H. eauto.
  - intros _ (v' & H). discriminate.
Qed.

Lemma dict_set_keys_present d k v :
  In k (map fst d) -> map fst (dict_set d k v) = map fst d.
Proof.
  induction d as [|[k0 v0] d IH]; simpl; [contradiction|].
  intro H. destruct (String.eqb_spec k0 k) as [->|Hk]; simpl; auto.
  f_equal. apply IH. destruct H; congruence.
Qed.

Lemma dict_set_absent d k v :
  ~ In k (map fst d) -> dict_set d k v = d ++ [(k, v)].
Proof.
  induction d as [|[k0 v0] d IH]; simpl; auto.
  intro H. destruct (String.eqb_spec k0 k) as [->|Hk].
  - exfalso. auto.
  - f_equal. apply IH. auto.
Qed.

Lemma dict_set_in d k v k' v' :
  In (k', v') (dict_set d k v) -> In (k', v') d \/ (k', v') = (k, v).
Proof.
  induction d as [|[k0 v0] d IH]; simpl.
  - intros [H|[]]. right. now symmetry.
  - destruct (String.eqb_spec k0 k) as [->|Hk]; simpl.
    + intros [H|H]; auto.
    + intros [H|H]; auto. destruct (IH H); auto.
Qed.

Lemma dict_get_in d k v : dict_get d k = Some v -> In (k, v) d.
Proof.
  induction d as [|[k0 v0] d IH]; simpl; [discriminate|].
  destruct (String.eqb_spec k0 k) as [->|Hk]; auto.
  intro H. left. congruence.
Qed.
End DictFacts.

(** ** Positions in a list of tickers *)

Lemma index_of_nth (t : ticker) (l : list ticker) (i : nat) :
  index_of t l = Some i -> nth_error l i = Some t.
Proof.
  revert i. induction l as [|x l IH]; simpl; intros i H; [discriminate|].
  destruct (String.eqb_spec x t) as [->|Hx].
  - inversion H. reflexivity.
  - destruct (index_of t l); simpl in H; [|discriminate].
    inversion H. simpl. now apply IH.
Qed.

Lemma index_of_NoDup (t : ticker) (l : list ticker) (i : nat) :
  NoDup l -> nth_error l i = Some t -> index_of t l = Some i.
Proof.
  revert i. induction l as [|x l IH]; intros i Hnd H.
  - destruct i; discriminate.
  - inversion Hnd as [|? ? Hx Hnd']; subst. simpl.
    destruct i as [|i]; simpl in H.
    + inversion H. now rewrite String.eqb_refl.
    + destruct (String.eqb_spec x t) as [->|Hne].
      * exfalso. apply Hx. eapply nth_error_In; eauto.
      * now rewrite (IH i Hnd' H).
Qed.

Lemma index_of_in (t : ticker) (l : list ticker) (i : nat) :
  index_of t l = Some i -> In t l /\ i < length l.
Proof.
  intro H. apply index_of_nth in H. split.
  - eapply nth_error_In; eauto.
  - apply nth_error_Some. congruence.
Qed.

Lemma contains_In (l : list ticker) (t : ticker) : contains l t = true <-> In t l.
Proof.
  unfold contains. rewrite existsb_exists. split.
  - intros (x & Hx & E). apply String.eqb_eq in E. now subst.
  - intro H. exists t. split; auto. apply String.eqb_refl.
Qed.

Lemma contains_false (l : list ticker) (t : ticker) :
  contains l t = false <-> ~ In t l.
Proof.
  rewrite <- contains_In. destruct (contains l t); split; congruence.
Qed.

(** ** [_build_graph] *)

Lemma iloc_square (m : CorrelationMatrix) (n i j : nat) :
  square m n = true -> i < n -> j < n -> iloc m i j = Ok (cell m i j).
Proof.
  unfold square, iloc, cell. intros H Hi Hj.
  apply andb_true_iff in H. destruct H as [Hl Hr].
  apply Nat.eqb_eq in Hl. rewrite forallb_forall in Hr.
  destruct (nth_error (cm_values m) i) as [row|] eqn:E.
  2:{ apply nth_error_None in E. lia. }
  rewrite (nth_error_nth _ _ [] E).
  assert (Hrow : length row = n).
  { apply Nat.eqb_eq, Hr. eapply nth_error_In; eauto. }
  destruct (nth_error row j) as [v|] eqn:E2.
  - now rewrite (nth_error_nth _ _ 0%Z E2).
  - apply nth_error_None in E2. lia.
Qed.

Lemma edge_update (g : Graph) (ti tj : ticker) (w : Z) (neighbors : dict Z) :
  dict_get g ti = Some neighbors ->
  forall s t,
    edge (dict_set g ti (dict_set neighbors tj w)) s t =
    if String.eqb s ti && String.eqb t tj then Some w else edge g s t.
Proof.
  intros Hg s t. unfold edge.
  destruct (String.eqb_spec s ti) as [->|Hs]; simpl.
  - rewrite dict_get_set_eq, Hg.
    destruct (String.eqb_spec t tj) as [->|Ht].
    + apply dict_get_set_eq.
    + apply dict_get_set_neq. congruence.
  - rewrite dict_get_set_neq by congruence. reflexivity.
Qed.

Lemma empty_graph_keys (tickers : list ticker) :
  NoDup tickers ->
  forall acc : Graph,
    (forall t, In t tickers -> ~ In t (map fst acc)) ->
    fold_left (fun g t => dict_set g t []) tickers acc
    = acc ++ map (fun t => (t, [])) tickers.
Proof.
  induction 1 as [|x l Hx Hnd IH]; intros acc Hacc; simpl.
  - now rewrite app_nil_r.
  - rewrite dict_set_absent by (apply Hacc; now left).
    rewrite IH.
    + now rewrite <- app_assoc.
    + intros t Ht. rewrite map_app, in_app_iff. simpl.
      intros [H|[H|[]]].
      * apply (Hacc t); auto. now right.
      * congruence.
Qed.

Lemma processed_nothing (i j : nat) : processed 0 0 i j = false.
Proof. unfold processed. destruct i; reflexivity. Qed.

Section BuildGraphFacts.
Variable m : CorrelationMatrix.
Variable tickers : list ticker.
Variable threshold : Z.
Hypothesis tickers_nodup : NoDup tickers.
Hypothesis m_square : square m (length tickers) = true.


(** Going one pair further changes the expected edges at that pair only. *)
Lemma edges_upto_step (a b : nat) (ta tb : ticker) :
  nth_error tickers a = Some ta -> nth_error tickers b = Some tb ->
  forall s t,
    edges_upto m tickers threshold a (S b) s t =
    if String.eqb s ta && String.eqb t tb
    then (if (a <? b) && (Z.abs (cell m a b) >? threshold)%Z
          then Some (Z.abs (cell m a b)) else None)
    else edges_upto m tickers threshold a b s t.
Proof.
  intros Ha Hb s t. unfold edges_upto.
  pose proof (index_of_NoDup _ tickers_nodup Ha) as Ia.
  pose proof (index_of_NoDup _ tickers_nodup Hb) as Ib.
  destruct (String.eqb_spec s ta) as [->|Hs]; simpl.
  - rewrite Ia. destruct (String.eqb_spec t tb) as [->|Ht].
    + rewrite Ib. unfold processed.
      rewrite Nat.ltb_irrefl, Nat.eqb_refl. simpl.
      replace (b <? S b) with true by (symmetry; apply Nat.ltb_lt; lia).
      reflexivity.
    + destruct (index_of t tickers) as [j|] eqn:Ij; auto.
      assert (j <> b).
      { intros ->. apply index_of_nth in Ij. congruence. }
      unfold processed.
      replace (j <? S b) with (j <? b); auto.
      destruct (Nat.ltb_spec j b), (Nat.ltb_spec j (S b)); auto; lia.
  - destruct (index_of s tickers) as [i|] eqn:Ii; auto.
    destruct (index_of t tickers) as [j|] eqn:Ij; auto.
    assert (i <> a).
    { intros ->. apply index_of_nth in Ii. congruence. }
    unfold processed.
    replace (i =? a) with false by (symmetry; apply Nat.eqb_neq; lia).
    reflexivity.
Qed.

Lemma build_inner_inv (a b : nat) (ta tb : ticker) (g : Graph) :
  nth_error tickers a = Some ta -> nth_error tickers b = Some tb ->
  build_inv m tickers threshold a b g ->
  exists g',
    build_inner m threshold a ta g (b, tb) = Ok g' /\
    build_inv m tickers threshold a (S b) g'.
Proof.
  intros Ha Hb (Hkeys & Hedges). unfold build_inner.
  assert (Han : a < length tickers) by (apply nth_error_Some; congruence).
  assert (Hbn : b < length tickers) by (apply nth_error_Some; congruence).
  destruct (a <? b) eqn:Hab.
  - rewrite (@iloc_square m (length tickers) a b m_square Han Hbn). simpl.
    destruct (Z.abs (cell m a b) >? threshold)%Z eqn:Hc.
    + assert (Hin : In ta (map fst g))
        by (rewrite Hkeys; eapply nth_error_In; eauto).
      destruct (proj1 (dict_get_in_keys g ta) Hin) as (nb & Hnb).
      unfold dict_getitem. rewrite Hnb. simpl.
      eexists. split; [reflexivity|]. split.
      * now rewrite dict_set_keys_present.
      * intros s t. rewrite (@edge_update g ta tb (Z.abs (cell m a b)) nb Hnb).
        rewrite (@edges_upto_step a b ta tb Ha Hb), Hab, Hc. simpl.
        destruct (_ && _); auto.
    + exists g. split; [reflexivity|]. split; auto.
      intros s t. rewrite (@edges_upto_step a b ta tb Ha Hb), Hab, Hc. simpl.
      rewrite Hedges. destruct (_ && _) eqn:E; auto.
      apply andb_true_iff in E. destruct E as [E1 E2].
      apply String.eqb_eq in E1, E2. subst.
      unfold edges_upto.
      rewrite (index_of_NoDup _ tickers_nodup Ha), (index_of_NoDup _ tickers_nodup Hb), Hc.
      now rewrite andb_false_r.
  - exists g. split; [reflexivity|]. split; auto.
    intros s t. rewrite (@edges_upto_step a b ta tb Ha Hb), Hab. simpl.
    rewrite Hedges. destruct (_ && _) eqn:E; auto.
    apply andb_true_iff in E. destruct E as [E1 E2].
    apply String.eqb_eq in E1, E2. subst.
    unfold edges_upto.
    rewrite (index_of_NoDup _ tickers_nodup Ha), (index_of_NoDup _ tickers_nodup Hb), Hab.
    now rewrite andb_false_r.
Qed.

Lemma build_inner_loop (a : nat) (ta : ticker) :
  nth_error tickers a = Some ta ->
  forall (suffix pre : list ticker) (g : Graph),
    tickers = pre ++ suffix ->
    build_inv m tickers threshold a (length pre) g ->
    exists g',
      for_each (build_inner m threshold a ta) g
               (combine (seq (length pre) (length suffix)) suffix) = Ok g' /\
      build_inv m tickers threshold a (length tickers) g'.
Proof.
  intro Ha. induction suffix as [|tb suffix IH]; intros pre g Hsplit Hinv.
  - simpl. exists g. split; auto.
    replace (length tickers) with (length pre); auto.
    rewrite Hsplit, length_app. simpl. lia.
  - cbn [length seq combine for_each].
    assert (Hb : nth_error tickers (length pre) = Some tb).
    { rewrite Hsplit, nth_error_app2, Nat.sub_diag by lia. reflexivity. }
    destruct (@build_inner_inv a (length pre) ta tb g Ha Hb Hinv) as (g1 & E & Hinv1).
    rewrite E. cbn [bind].
    specialize (IH (pre ++ [tb]) g1).
    rewrite length_app in IH. simpl in IH.
    replace (length pre + 1) with (S (length pre)) in IH by lia.
    apply IH; auto.
    now rewrite <- app_assoc.
Qed.

Lemma build_inv_next_row (a : nat) (g : Graph) :
  build_inv m tickers threshold a (length tickers) g ->
  build_inv m tickers threshold (S a) 0 g.
Proof.
  intros (Hkeys & Hedges). split; auto.
  intros s t. rewrite Hedges. unfold edges_upto.
  destruct (index_of s tickers) as [i|] eqn:Ii; auto.
  destruct (index_of t tickers) as [j|] eqn:Ij; auto.
  apply index_of_in in Ij. destruct Ij as [_ Hj].
  replace (processed (S a) 0 i j) with (processed a (length tickers) i j); auto.
  unfold processed.
  destruct (Nat.ltb_spec i a), (Nat.eqb_spec i a), (Nat.ltb_spec j (length tickers)),
    (Nat.ltb_spec i (S a)), (Nat.eqb_spec i (S a)), (Nat.ltb_spec j 0);
    simpl; auto; lia.
Qed.

Lemma build_outer_loop :
  forall (suffix pre : list ticker) (g : Graph),
    tickers = pre ++ suffix ->
    build_inv m tickers threshold (length pre) 0 g ->
    exists g',
      for_each (build_outer m tickers threshold) g
               (combine (seq (length pre) (length suffix)) suffix) = Ok g' /\
      build_inv m tickers threshold (length tickers) 0 g'.
Proof.
  induction suffix as [|ta suffix IH]; intros pre g Hsplit Hinv.
  - simpl. exists g. split; auto.
    replace (length tickers) with (length pre); auto.
    rewrite Hsplit, length_app. simpl. lia.
  - cbn [length seq combine for_each].
    assert (Ha : nth_error tickers (length pre) = Some ta).
    { rewrite Hsplit, nth_error_app2, Nat.sub_diag by lia. reflexivity. }
    destruct (@build_inner_loop (length pre) ta Ha tickers [] g eq_refl Hinv)
      as (g1 & E & Hinv1).
    unfold build_outer at 1. unfold enumerate.
    cbn [length] in E. rewrite E. cbn [bind].
    apply build_inv_next_row in Hinv1.
    specialize (IH (pre ++ [ta]) g1).
    rewrite length_app in IH. simpl in IH.
    replace (length pre + 1) with (S (length pre)) in IH by lia.
    apply IH; auto.
    now rewrite <- app_assoc.
Qed.

(** The graph [_build_graph] returns holds exactly the expected edges. *)
Lemma build_graph_inv :
  exists g,
    _build_graph m tickers threshold = Ok g /\
    build_inv m tickers threshold (length tickers) 0 g.
Proof.
  unfold _build_graph, enumerate.
  apply (@build_outer_loop tickers [] _ eq_refl).
  rewrite (empty_graph_keys tickers_nodup) by (intros t _ []).
  simpl. split.
  - rewrite map_map. simpl. apply map_id.
  - intros s t. unfold edges_upto, edge.
    destruct (index_of s tickers) as [i|] eqn:Ii.
    + destruct (dict_get _ s) as [nb|] eqn:Hs.
      * apply dict_get_in in Hs. apply in_map_iff in Hs.
        destruct Hs as (x & Hx & _). inversion Hx; subst. simpl.
        destruct (index_of t tickers); auto. now rewrite processed_nothing.
      * destruct (index_of t tickers); auto. now rewrite processed_nothing.
    + destruct (dict_get _ s) as [nb|] eqn:Hs; auto.
      apply dict_get_in in Hs. apply in_map_iff in Hs.
      destruct Hs as (x & Hx & _). inversion Hx; subst. reflexivity.
Qed.
End BuildGraphFacts.

(** C2.  For a correlation matrix over a list of distinct tickers,
    [_build_graph] returns a graph whose nodes are the tickers and which has
    an edge from [tickers[i]] to [tickers[j]] exactly when [i < j] and
    [|correlation_matrix[i][j]| > threshold], with that absolute value as
    weight; every edge of the graph goes from a ticker to a later one, so
    there are no self-loops and no edges against the order. *)
Theorem build_graph_edges (m : CorrelationMatrix) (tickers : list ticker)
        (threshold : Z) :
  NoDup tickers -> square m (length tickers) = true ->
  exists g,
    _build_graph m tickers threshold = Ok g /\
    map fst g = tickers /\
    (forall i j ti tj,
        nth_error tickers i = Some ti -> nth_error tickers j = Some tj ->
        edge g ti tj =
        if (i <? j) && (Z.abs (cell m i j) >? threshold)%Z
        then Some (Z.abs (cell m i j)) else None) /\
    (forall s t w,
        edge g s t = Some w ->
        exists i j,
          nth_error tickers i = Some s /\ nth_error tickers j = Some t /\ i < j).
Proof.
  intros Hnd Hsq.
  destruct (@build_graph_inv m tickers threshold Hnd Hsq) as (g & E & Hkeys & Hedges).
  exists g. split; [exact E|]. split; [exact Hkeys|]. split.
  - intros i j ti tj Hi Hj. rewrite Hedges. unfold edges_upto.
    rewrite (index_of_NoDup _ Hnd Hi), (index_of_NoDup _ Hnd Hj).
    assert (Hin : i < length tickers) by (apply nth_error_Some; congruence).
    unfold processed.
    replace (i <? length tickers) with true by (symmetry; now apply Nat.ltb_lt).
    reflexivity.
  - intros s t w Hw. rewrite Hedges in Hw. unfold edges_upto in Hw.
    destruct (index_of s tickers) as [i|] eqn:Ii; [|discriminate].
    destruct (index_of t tickers) as [j|] eqn:Ij; [|discriminate].
    exists i, j. repeat split; try now apply index_of_nth.
    destruct (i <? j) eqn:Hij; [now apply Nat.ltb_lt|].
    now rewrite andb_false_r in Hw.
Qed.

Lemma build_graph_edges_witness :
  exists g,
    _build_graph example_matrix example_tickers 70 = Ok g /\
    edge g "A"%string "B"%string = Some 90%Z /\
    edge g "B"%string "A"%string = None /\
    edge g "A"%string "A"%string = None.
Proof.
  destruct (@build_graph_edges example_matrix example_tickers 70)
    as (g & E & _ & H & _).
  - repeat constructor; simpl; intuition discriminate.
  - reflexivity.
  - exists g. split; [exact E|].
    split; [|split].
    + apply (H 0 1); reflexivity.
    + apply (H 1 0); reflexivity.
    + apply (H 0 0); reflexivity.
Defined.

Example build_example_graph :
  _build_graph example_matrix example_tickers 70 = Ok example_graph.
Proof. reflexivity. Qed.

(** ** [get_similar_stocks] *)

Section SimilarFacts.
Variable graph : Graph.

Lemma push_outgoing_inv (t : ticker) (outgoing : dict Z) :
  forall st, pushing_inv t st -> pushing_inv t (fold_left push_outgoing outgoing st).
Proof.
  induction outgoing as [|[neighbor weight] outgoing IH]; intros [heap visited] Hinv;
    simpl; auto.
  apply IH. destruct Hinv as [Hv Hh]. simpl in *.
  destruct (contains visited neighbor) eqn:E; simpl; [split; auto|].
  apply contains_false in E. split; simpl.
  - apply in_or_app. now left.
  - intros e He.
    apply (Permutation_in _ (heappush_perm tuple_lt heap _)) in He.
    destruct He as [<-|He]; auto. simpl. congruence.
Qed.

Lemma push_incoming_inv (t : ticker) (g : Graph) :
  forall st, pushing_inv t st -> pushing_inv t (fold_left (push_incoming t) g st).
Proof.
  induction g as [|[source neighbors] g IH]; intros [heap visited] Hinv;
    simpl; auto.
  apply IH. destruct Hinv as [Hv Hh]. simpl in *.
  destruct (dict_get neighbors t); [|split; auto].
  destruct (contains visited source) eqn:E; simpl; [split; auto|].
  apply contains_false in E. split; simpl.
  - apply in_or_app. now left.
  - intros e He.
    apply (Permutation_in _ (heappush_perm tuple_lt heap _)) in He.
    destruct He as [<-|He]; auto. simpl. congruence.
Qed.

(** The popping loop returns, and hands out items of the heap only. *)
Lemma pop_loop_no_self (t : ticker) (n : Z) (fuel : nat) :
  forall heap similar_stocks,
    (forall e, In e heap -> snd e <> t) -> no_self t similar_stocks ->
    exists l, pop_loop fuel heap similar_stocks n = Ok l /\ no_self t l.
Proof.
  induction fuel as [|fuel IH]; intros heap sim Hh Hs; simpl; eauto.
  destruct heap as [|e0 heap0]; eauto.
  destruct (Z.of_nat (length sim) <? n)%Z; eauto.
  destruct (@heappop_nonempty _ tuple_lt (e0 :: heap0)) as ([nw stock] & heap' & E);
    [discriminate|].
  rewrite E. simpl.
  apply heappop_perm in E.
  apply IH.
  - intros e He. apply Hh. apply (Permutation_in _ (Permutation_sym E)). now right.
  - intros s Hin. apply in_app_iff in Hin. destruct Hin as [Hin|[<-|[]]]; auto.
    simpl. apply (Hh (nw, stock)).
    apply (Permutation_in _ (Permutation_sym E)). now left.
Qed.

(** More fuel than the length of the heap changes nothing. *)
Lemma pop_loop_fuel (n : Z) (fuel : nat) :
  forall heap similar_stocks,
    length heap <= fuel ->
    pop_loop fuel heap similar_stocks n = pop_loop (length heap) heap similar_stocks n.
Proof.
  induction fuel as [|fuel IH]; intros heap sim Hf.
  - destruct heap; [reflexivity|simpl in Hf; lia].
  - destruct heap as [|e0 heap0]; [reflexivity|].
    cbn [pop_loop length].
    destruct (Z.of_nat (length sim) <? n)%Z; auto.
    destruct (@heappop_nonempty _ tuple_lt (e0 :: heap0)) as ([nw stock] & heap' & E);
      [discriminate|].
    rewrite E. cbn [bind].
    apply heappop_perm in E. apply Permutation_length in E. simpl in E, Hf.
    rewrite IH by lia.
    replace (length heap0) with (length heap') by lia. reflexivity.
Qed.

Lemma similar_body_spec (n : Z) (results : dict (list Similar)) (t : ticker) :
  exists l,
    similar_body graph n results t = Ok (dict_set results t l) /\
    no_self t l /\
    (dict_get graph t = None -> l = []).
Proof.
  unfold similar_body. destruct (dict_get graph t) as [outgoing|] eqn:E.
  - assert (H0 : pushing_inv t ([], [t])).
    { split; simpl; auto. }
    apply (push_outgoing_inv outgoing) in H0.
    apply (push_incoming_inv graph) in H0.
    destruct (fold_left (push_incoming t) graph _) as [heap visited].
    destruct H0 as [_ Hh]. simpl in Hh.
    destruct (@pop_loop_no_self t n (length heap) heap [] Hh) as (l & El & Hl).
    { intros s []. }
    rewrite El. simpl. exists l. repeat split; auto. discriminate.
  - exists []. repeat split; auto. intros s [].
Qed.

Lemma get_similar_stocks_loop (n : Z) (tickers : list ticker) :
  forall results,
    results_ok results ->
    exists results',
      for_each (similar_body graph n) results tickers = Ok results' /\
      results_ok results' /\
      (forall k, In k (map fst results) \/ In k tickers -> In k (map fst results')).
Proof.
  induction tickers as [|t tickers IH]; intros results Hok; simpl.
  - exists results. repeat split; auto. intros k [H|[]]; auto.
  - destruct (similar_body_spec n results t) as (l & E & Hl & _).
    rewrite E. simpl.
    destruct (IH (dict_set results t l)) as (r' & E' & Hok' & Hkeys).
    + intros k l' Hk. destruct (string_dec t k) as [->|Hne].
      * rewrite dict_get_set_eq in Hk. now inversion Hk; subst.
      * rewrite dict_get_set_neq in Hk by auto. now apply Hok.
    + exists r'. repeat split; auto.
      intros k Hk. apply Hkeys.
      destruct Hk as [Hk|[->|Hk]]; auto; left.
      * apply dict_get_in_keys. apply dict_get_in_keys in Hk.
        destruct Hk as (v & Hv). destruct (string_dec t k) as [->|Hne].
        -- rewrite dict_get_set_eq. eauto.
        -- rewrite dict_get_set_neq by auto. eauto.
      * apply dict_get_in_keys. rewrite dict_get_set_eq. eauto.
Qed.

(** A ticker that is not a node of the graph ends with the empty list. *)
Lemma unknown_ticker_loop (n : Z) (t : ticker) :
  dict_get graph t = None ->
  forall tickers results,
    In t tickers \/ dict_get results t = Some [] ->
    exists results',
      for_each (similar_body graph n) results tickers = Ok results' /\
      dict_get results' t = Some [].
Proof.
  intro Hg. induction tickers as [|x tickers IH]; intros results H; simpl.
  - destruct H as [[]|H]. eauto.
  - destruct (similar_body_spec n results x) as (l & E & _ & Hl).
    rewrite E. simpl. apply IH.
    destruct (string_dec x t) as [->|Hne].
    + right. rewrite (Hl Hg). apply dict_get_set_eq.
    + destruct H as [[H|H]|H]; [congruence|now left|].
      right. now rewrite dict_get_set_neq.
Qed.
End SimilarFacts.

(** C10.  For every graph, every list of tickers and every [n],
    [get_similar_stocks] returns a dictionary with an entry for every input
    ticker, and no ticker's list holds that ticker itself. *)
Theorem get_similar_stocks_entries (graph : Graph) (tickers : list ticker) (n : Z) :
  exists results,
    get_similar_stocks graph tickers n = Ok results /\
    forall t, In t tickers ->
              exists l, dict_get results t = Some l /\
                        forall s, In s l -> s_ticker s <> t.
Proof.
  destruct (@get_similar_stocks_loop graph n tickers []) as (r & E & Hok & Hkeys).
  { intros k l H. discriminate. }
  exists r. split; [exact E|].
  intros t Ht.
  assert (Hin : In t (map fst r)) by (apply Hkeys; now right).
  apply dict_get_in_keys in Hin. destruct Hin as (l & Hl).
  exists l. split; auto. now apply (Hok t).
Qed.

Lemma get_similar_stocks_entries_witness :
  exists results,
    get_similar_stocks example_graph ["B"%string; "Z"%string] 10 = Ok results /\
    (exists l, dict_get results "B"%string = Some l /\
               forall s, In s l -> s_ticker s <> "B"%string) /\
    (exists l, dict_get results "Z"%string = Some l /\
               forall s, In s l -> s_ticker s <> "Z"%string).
Proof.
  destruct (get_similar_stocks_entries example_graph ["B"%string; "Z"%string] 10)
    as (r & E & H).
  exists r. split; [exact E|]. split; apply H; simpl; auto.
Defined.

Example get_similar_stocks_example :
  get_similar_stocks example_graph ["B"%string; "Z"%string] 10
  = Ok [("B"%string, [{| s_ticker := "A"%string; correlation_strength := 90 |}]);
        ("Z"%string, [])].
Proof. reflexivity. Qed.

(** C5.  A ticker that is not a column of the matrix makes
    [get_topk_similar_stocks] raise (the [ValueError] that the specification
    calls UnknownTickerError), whereas a ticker that is not a node of the
    graph makes [get_similar_stocks] return normally with the empty list for
    that ticker. *)
Theorem unknown_ticker_policies
        (m : CorrelationMatrix) (t : ticker) (k : Z)
        (graph : Graph) (tickers : list ticker) (u : ticker) (n : Z) :
  ~ In t (cm_columns m) ->
  In u tickers -> ~ In u (map fst graph) ->
  get_topk_similar_stocks m t k = Raise ValueError /\
  exists results,
    get_similar_stocks graph tickers n = Ok results /\
    dict_get results u = Some [].
Proof.
  intros Ht Hu Hg. split.
  - unfold get_topk_similar_stocks.
    now rewrite (proj2 (contains_false (cm_columns m) t) Ht).
  - apply dict_get_none in Hg.
    apply (@unknown_ticker_loop graph n u Hg tickers []). now left.
Qed.

Lemma unknown_ticker_policies_witness :
  get_topk_similar_stocks example_matrix "Z"%string 5 = Raise ValueError /\
  exists results,
    get_similar_stocks example_graph ["A"%string; "Z"%string] 10 = Ok results /\
    dict_get results "Z"%string = Some [].
Proof.
  apply (@unknown_ticker_policies example_matrix "Z"%string 5 example_graph
           ["A"%string; "Z"%string] "Z"%string 10).
  - simpl. intuition discriminate.
  - simpl. auto.
  - simpl. intuition discriminate.
Defined.

(** ** [get_common_similar_stocks] *)

(** The empty list of tickers gives the empty list. *)
Lemma get_common_similar_stocks_empty
      (graph : Graph) (ordered_tickers : list ticker)
      (set_iter : list ticker -> list ticker) (n : Z) :
  get_common_similar_stocks graph ordered_tickers set_iter [] n = Ok [].
Proof. reflexivity. Qed.

(** ** The candidates of [get_common_similar_stocks] *)

Section CommonFacts.
Variable graph : Graph.
Hypothesis graph_keys : NoDup (map fst graph).

Lemma dict_get_unique {V : Type} (d : dict V) (k : ticker) (v : V) :
  NoDup (map fst d) -> In (k, v) d -> dict_get d k = Some v.
Proof.
  induction d as [|[k0 v0] d IH]; simpl; intros Hnd Hin; [contradiction|].
  inversion Hnd as [|? ? Hk Hnd']; subst.
  destruct Hin as [E|Hin].
  - inversion E; subst. now rewrite String.eqb_refl.
  - destruct (String.eqb_spec k0 k) as [->|Hne]; auto.
    exfalso. apply Hk. apply in_map_iff. now exists (k, v).
Qed.

Lemma push_outgoing_neighbours (t : ticker) (outgoing : dict Z) :
  forall items st,
    (forall nw, In nw items -> In (fst nw) (map fst outgoing)) ->
    dict_get graph t = Some outgoing ->
    (forall e, In e (fst st) -> neighbour graph t (snd e)) ->
    forall e, In e (fst (fold_left push_outgoing items st)) ->
              neighbour graph t (snd e).
Proof.
  induction items as [|[nb w] items IH]; intros [heap visited] Hitems Hg Hinv;
    simpl; auto.
  apply IH; auto.
  - intros nw Hnw. apply Hitems. now right.
  - destruct (contains visited nb); simpl; auto.
    intros e He.
    apply (Permutation_in _ (heappush_perm tuple_lt heap _)) in He.
    destruct He as [<-|He]; auto. simpl.
    left. unfold edge. rewrite Hg.
    apply dict_get_in_keys. apply (Hitems (nb, w)). now left.
Qed.

Lemma push_incoming_neighbours (t : ticker) :
  forall items st,
    (forall sn, In sn items -> In sn graph) ->
    (forall e, In e (fst st) -> neighbour graph t (snd e)) ->
    forall e, In e (fst (fold_left (push_incoming t) items st)) ->
              neighbour graph t (snd e).
Proof.
  induction items as [|[source nbs] items IH]; intros [heap visited] Hitems Hinv;
    simpl; auto.
  apply IH; auto.
  - intros sn Hsn. apply Hitems. now right.
  - destruct (dict_get nbs t) as [w|] eqn:Hw; auto.
    destruct (contains visited source); simpl; auto.
    intros e He.
    apply (Permutation_in _ (heappush_perm tuple_lt heap _)) in He.
    destruct He as [<-|He]; auto. simpl.
    right. exists w. unfold edge.
    rewrite (@dict_get_unique _ graph source nbs graph_keys); auto.
    apply Hitems. now left.
Qed.

Lemma pop_loop_from_heap (P : ticker -> Prop) (n : Z) (fuel : nat) :
  forall heap similar_stocks l,
    (forall e, In e heap -> P (snd e)) ->
    (forall s, In s similar_stocks -> P (s_ticker s)) ->
    pop_loop fuel heap similar_stocks n = Ok l ->
    forall s, In s l -> P (s_ticker s).
Proof.
  induction fuel as [|fuel IH]; intros heap sim l Hh Hs; simpl.
  - intro E. inversion E; subst. auto.
  - destruct heap as [|e0 heap0]; [intro E; inversion E; subst; auto|].
    destruct (Z.of_nat (length sim) <? n)%Z; [|intro E; inversion E; subst; auto].
    destruct (heappop tuple_lt (e0 :: heap0)) as [[[nw stock] heap']|] eqn:E;
      simpl; [|discriminate].
    apply heappop_perm in E.
    apply IH.
    + intros e He. apply Hh. apply (Permutation_in _ (Permutation_sym E)). now right.
    + intros s Hin. apply in_app_iff in Hin. destruct Hin as [Hin|[<-|[]]]; auto.
      simpl. apply (Hh (nw, stock)).
      apply (Permutation_in _ (Permutation_sym E)). now left.
Qed.

(** Every item of a list of [get_similar_stocks] is a neighbour of the
    ticker the list belongs to. *)
Lemma get_similar_stocks_neighbours (n : Z) (tickers : list ticker) :
  forall results results',
    (forall t l s, dict_get results t = Some l -> In s l ->
                   neighbour graph t (s_ticker s)) ->
    for_each (similar_body graph n) results tickers = Ok results' ->
    forall t l s, dict_get results' t = Some l -> In s l ->
                  neighbour graph t (s_ticker s).
Proof.
  induction tickers as [|x tickers IH]; intros results results' Hres; simpl.
  - intro E. inversion E; subst. exact Hres.
  - destruct (similar_body graph n results x) as [r1|] eqn:E1; simpl; [|discriminate].
    apply IH. intros t l s Hl Hs.
    unfold similar_body in E1.
    destruct (dict_get graph x) as [outgoing|] eqn:Hg.
    + destruct (fold_left (push_incoming x) graph _) as [heap visited] eqn:Hf.
      destruct (pop_loop (length heap) heap [] n) as [sim|] eqn:Hp; simpl in E1;
        [|discriminate].
      inversion E1; subst r1.
      destruct (string_dec x t) as [->|Hne].
      * rewrite dict_get_set_eq in Hl. inversion Hl; subst l.
        apply (@pop_loop_from_heap (neighbour graph t) n (length heap) heap [] sim);
          auto; [|intros ? []].
        intros e He.
        replace heap with (fst (fold_left (push_incoming t) graph
                                         (fold_left push_outgoing outgoing ([], [t]))))
          in He by now rewrite Hf.
        revert e He. apply push_incoming_neighbours; auto.
        apply push_outgoing_neighbours with (outgoing := outgoing); auto.
        -- intros nw Hnw. now apply in_map.
        -- intros e [].
      * rewrite dict_get_set_neq in Hl by auto. eapply Hres; eauto.
    + inversion E1; subst r1.
      destruct (string_dec x t) as [->|Hne].
      * rewrite dict_get_set_eq in Hl. inversion Hl; subst l. contradiction.
      * rewrite dict_get_set_neq in Hl by auto. eapply Hres; eauto.
Qed.

Lemma intersect_loop (all_similar : dict (list Similar)) (others : list ticker) :
  forall common common',
    for_each (intersect_body all_similar) common others = Ok common' ->
    forall c, In c common' ->
      In c common /\
      forall t l, In t others -> dict_get all_similar t = Some l -> l <> [] ->
                  In c (map s_ticker l).
Proof.
  induction others as [|x others IH]; intros common common'; simpl.
  - intro E. inversion E; subst. intros c Hc. split; auto. intros t l [].
  - unfold intersect_body at 1. unfold dict_getitem.
    destruct (dict_get all_similar x) as [lx|] eqn:Hx; simpl; [|discriminate].
    destruct lx as [|s0 lx].
    + intros E c Hc. destruct (IH _ _ E c Hc) as [H1 H2]. split; auto.
      intros t l [->|Ht] Hl Hne; [congruence|eauto].
    + intros E c Hc. destruct (IH _ _ E c Hc) as [H1 H2].
      unfold intersection in H1. apply filter_In in H1. destruct H1 as [H1 H1'].
      apply contains_In in H1'. unfold to_set in H1'. apply nodup_In in H1'.
      split; auto.
      intros t l [->|Ht] Hl Hne; [|eauto].
      rewrite Hx in Hl. now inversion Hl; subst.
Qed.

Lemma common_loop (tickers : list ticker) (stocks : list ticker) :
  forall acc res,
    for_each (common_body graph tickers) acc stocks = Ok res ->
    map c_ticker res = map c_ticker acc ++ stocks.
Proof.
  induction stocks as [|x stocks IH]; intros acc res; simpl.
  - intro E. inversion E; subst. now rewrite app_nil_r.
  - unfold common_body at 1.
    destruct (for_each (strength_body graph x) 0%Z tickers); simpl; [|discriminate].
    intro E. apply IH in E. rewrite E, map_app, <- app_assoc. reflexivity.
Qed.

(** What the code returns: every candidate is in the neighbour list, hence
    a neighbour, of every input ticker whose neighbour list is not empty. *)
Lemma common_similar_candidates
      (ordered_tickers : list ticker) (set_iter : list ticker -> list ticker)
      (tickers : list ticker) (n : Z) (res : list Common) :
  (forall l, Permutation (set_iter l) l) ->
  get_common_similar_stocks graph ordered_tickers set_iter tickers n = Ok res ->
  exists all_similar,
    (tickers <> [] ->
     get_similar_stocks graph tickers (Z.of_nat (length ordered_tickers))
     = Ok all_similar) /\
    forall c t l,
      In c res -> In t tickers -> dict_get all_similar t = Some l -> l <> [] ->
      In (c_ticker c) (map s_ticker l) /\ neighbour graph t (c_ticker c).
Proof.
  intros Hperm. unfold get_common_similar_stocks.
  destruct tickers as [|first others].
  { intro E. inversion E; subst. exists []. split; [congruence|]. intros c t l []. }
  destruct (get_similar_stocks graph (first :: others) _) as [all_similar|] eqn:Es;
    simpl; [|discriminate].
  unfold dict_getitem at 1.
  destruct (dict_get all_similar first) as [lf|] eqn:Hf; simpl; [|discriminate].
  set (seed := match lf with
               | [] => Ok []
               | _ :: _ => for_each (intersect_body all_similar)
                                    (to_set (map s_ticker lf)) others
               end).
  destruct seed as [common|] eqn:Ec; simpl; [|discriminate].
  destruct (for_each (common_body graph (first :: others)) [] (set_iter common))
    as [cws|] eqn:Ew; simpl; [|discriminate].
  intro E. inversion E; subst res. clear E.
  exists all_similar. split; [reflexivity|].
  intros c t l Hc Ht Hl Hne.
  assert (Hin : In (c_ticker c) common).
  { apply (Permutation_in _ (Hperm common)).
    apply common_loop in Ew. simpl in Ew. rewrite <- Ew.
    apply in_map.
    apply (Permutation_in _ (py_sorted_perm avg_correlation_strength Q_ltb true cws)).
    unfold slice_to in Hc. destruct (0 <=? n)%Z; eapply firstn_in; eauto. }
  assert (Hlist : In (c_ticker c) (map s_ticker l)).
  { subst seed. destruct lf as [|s0 lf].
    - inversion Ec; subst. contradiction.
    - destruct (intersect_loop _ _ _ Ec _ Hin) as [H1 H2].
      destruct Ht as [<-|Ht].
      + rewrite Hf in Hl. inversion Hl; subst.
        unfold to_set in H1. now apply nodup_In in H1.
      + eauto. }
  split; auto.
  apply in_map_iff in Hlist. destruct Hlist as (s & <- & Hs).
  unfold get_similar_stocks in Es.
  apply (@get_similar_stocks_neighbours (Z.of_nat (length ordered_tickers))
           (first :: others) [] all_similar) with (l := l); auto.
  intros ? ? ? H. discriminate.
Qed.
End CommonFacts.

(** C3.  The candidates are not the intersection of the neighbour sets: a
    later ticker whose neighbour list is empty is skipped instead of
    emptying the candidate set.  In the example graph (one edge, A to B),
    asking for the stocks similar to both A and C returns B although C has
    no neighbour at all. *)
Theorem common_similar_skips_empty (set_iter : list ticker -> list ticker) :
  (forall l, Permutation (set_iter l) l) ->
  get_common_similar_stocks example_graph example_tickers set_iter
                            ["A"%string; "C"%string] 10
  = Ok [{| c_ticker := "B"%string; avg_correlation_strength := (90 # 2)%Q |}] /\
  get_similar_stocks example_graph ["C"%string] 3 = Ok [("C"%string, [])].
Proof.
  intro Hperm. split; [|reflexivity].
  assert (Hs : set_iter ["B"%string] = ["B"%string]).
  { apply Permutation_length_1_inv. symmetry. apply Hperm. }
  unfold get_common_similar_stocks.
  replace (get_similar_stocks example_graph ["A"%string; "C"%string]
             (Z.of_nat (length example_tickers)))
    with (Ok [("A"%string, [{| s_ticker := "B"%string; correlation_strength := 90 |}]);
              ("C"%string, @nil Similar)])
    by reflexivity.
  cbn [bind dict_getitem dict_get String.eqb Ascii.eqb Bool.eqb].
  match goal with
  | |- context [for_each (intersect_body ?a) ?b ?c] =>
      replace (for_each (intersect_body a) b c)
        with (@Ok (list ticker) ["B"%string]) by reflexivity
  end.
  cbn [bind]. rewrite Hs. reflexivity.
Qed.

Lemma common_similar_skips_empty_witness :
  get_common_similar_stocks example_graph example_tickers (fun l => l)
                            ["A"%string; "C"%string] 10
  = Ok [{| c_ticker := "B"%string; avg_correlation_strength := (90 # 2)%Q |}] /\
  get_similar_stocks example_graph ["C"%string] 3 = Ok [("C"%string, [])].
Proof.
  apply (common_similar_skips_empty (fun l => l)). intro l. apply Permutation_refl.
Defined.

(** ** [calculate_correlation_matrix] *)

Lemma tail_window {V : Type} (n : Z) (rs : list (list V)) :
  (0 <= n <= Z.of_nat (length rs))%Z ->
  exists older,
    rs = older ++ tail n rs /\ Z.of_nat (length (tail n rs)) = n.
Proof.
  intro Hn. unfold tail.
  destruct (Z.eqb_spec n 0) as [->|Hne].
  - exists rs. now rewrite app_nil_r.
  - replace (0 <? n)%Z with true by (symmetry; apply Z.ltb_lt; lia).
    exists (firstn (length rs - Z.to_nat n) rs). split.
    + symmetry. apply firstn_skipn.
    + rewrite length_skipn. lia.
Qed.

(** C6.  [calculate_correlation_matrix] raises (the [ValueError] that the
    specification calls InsufficientDataError) exactly when [n_days] exceeds
    the number of rows; otherwise, for a window of [n_days >= 0] days, it
    returns the correlation of the frame made of the last [n_days] rows. *)
Theorem calculate_correlation_matrix_window
        (corr : DataFrame Z -> CorrelationMatrix)
        (returns_df : DataFrame Z) (n_days : Z) :
  ((exists e, calculate_correlation_matrix corr returns_df n_days = Raise e)
   <-> (len returns_df < n_days)%Z) /\
  ((len returns_df < n_days)%Z ->
   calculate_correlation_matrix corr returns_df n_days = Raise ValueError) /\
  ((0 <= n_days <= len returns_df)%Z ->
   exists older window,
     rows returns_df = older ++ window /\
     Z.of_nat (length window) = n_days /\
     calculate_correlation_matrix corr returns_df n_days
     = Ok (corr {| columns := columns returns_df; rows := window |})).
Proof.
  unfold calculate_correlation_matrix.
  destruct (Z.gtb_spec n_days (len returns_df)) as [Hgt|Hle].
  - split; [|split].
    + split; [lia|]. eauto.
    + reflexivity.
    + lia.
  - split; [|split].
    + split; [|lia]. intros (e & He). discriminate.
    + lia.
    + intro Hn. destruct (@tail_window _ n_days (rows returns_df)) as (older & E & L).
      { unfold len in Hn. lia. }
      exists older, (tail n_days (rows returns_df)). auto.
Qed.

Lemma calculate_correlation_matrix_window_witness :
  calculate_correlation_matrix labels_only example_returns 4 = Raise ValueError /\
  exists older window,
    rows example_returns = older ++ window /\
    Z.of_nat (length window) = 2%Z /\
    calculate_correlation_matrix labels_only example_returns 2
    = Ok (labels_only {| columns := columns example_returns; rows := window |}).
Proof.
  split.
  - apply (calculate_correlation_matrix_window labels_only example_returns 4).
    reflexivity.
  - apply (calculate_correlation_matrix_window labels_only example_returns 2).
    unfold len. simpl. lia.
Defined.

(** ** [get_similar_stocks_threshold] *)

Lemma index_of_some (t : ticker) (l : list ticker) :
  In t l -> exists i, index_of t l = Some i.
Proof.
  induction l as [|x l IH]; simpl; [contradiction|].
  intro H. destruct (String.eqb_spec x t) as [->|Hne]; eauto.
  destruct IH as (i & Hi); [destruct H; congruence|].
  rewrite Hi. simpl. eauto.
Qed.

Lemma map_fst_combine {A B : Type} (l : list A) (l' : list B) :
  length l = length l' -> map fst (combine l l') = l.
Proof.
  revert l'. induction l as [|a l IH]; intros [|b l'] H; simpl in *;
    try discriminate; auto.
  f_equal. apply IH. lia.
Qed.

Lemma in_combine_nth {A B : Type} (l : list A) (l' : list B) (a : A) (b : B) :
  In (a, b) (combine l l') <->
  exists j, nth_error l j = Some a /\ nth_error l' j = Some b.
Proof.
  revert l'. induction l as [|x l IH]; intros l'; simpl.
  - split; [contradiction|]. intros ([|j] & H & _); discriminate.
  - destruct l' as [|y l']; simpl.
    + split; [contradiction|]. intros ([|j] & _ & H); discriminate.
    + rewrite IH. split.
      * intros [H|(j & H1 & H2)].
        -- inversion H; subst. now exists 0.
        -- now exists (S j).
      * intros ([|j] & H1 & H2); simpl in *.
        -- left. congruence.
        -- right. eauto.
Qed.

Lemma filter_filter {A : Type} (f g : A -> bool) (l : list A) :
  filter f (filter g l) = filter (fun x => g x && f x) l.
Proof.
  induction l as [|x l IH]; simpl; auto.
  destruct (g x); simpl; [destruct (f x)|]; now rewrite IH.
Qed.

Lemma square_shape (m : CorrelationMatrix) (n : nat) :
  square m n = true ->
  length (cm_values m) = n /\ forall i, i < n -> length (nth i (cm_values m) []) = n.
Proof.
  unfold square. intro H. apply andb_true_iff in H. destruct H as [Hl Hr].
  apply Nat.eqb_eq in Hl. split; auto.
  intros i Hi. rewrite forallb_forall in Hr. apply Nat.eqb_eq, Hr.
  apply nth_In. lia.
Qed.

Lemma symmetric_cell (m : CorrelationMatrix) (n i j : nat) :
  symmetric m n = true -> i < n -> j < n -> cell m i j = cell m j i.
Proof.
  unfold symmetric. intros H Hi Hj.
  rewrite forallb_forall in H.
  specialize (H i). rewrite in_seq in H.
  assert (Hrow := H ltac:(lia)). rewrite forallb_forall in Hrow.
  apply Z.eqb_eq, Hrow. rewrite in_seq. lia.
Qed.

Lemma nth_map_in_range {A B : Type} (f : A -> B) (l : list A) (i : nat) (d : B) (d' : A) :
  i < length l -> nth i (map f l) d = f (nth i l d').
Proof.
  revert i. induction l as [|x l IH]; intros [|i] H; simpl in *; try lia; auto.
  apply IH. lia.
Qed.

(** In a symmetric square matrix a column holds the values of its row. *)
Lemma column_is_row (m : CorrelationMatrix) (n j : nat) :
  square m n = true -> symmetric m n = true -> j < n ->
  map (fun r => nth j r 0%Z) (cm_values m) = nth j (cm_values m) [].
Proof.
  intros Hsq Hsym Hj.
  destruct (square_shape _ _ Hsq) as [Hlen Hrows].
  apply nth_ext with (d := 0%Z) (d' := 0%Z).
  - rewrite length_map, Hrows by auto. exact Hlen.
  - intros i Hi. rewrite length_map, Hlen in Hi.
    rewrite nth_map_in_range with (d' := []) by lia.
    apply (@symmetric_cell m n i j Hsym Hi Hj).
Qed.

(** *** The contract of [sort_values] *)

Lemma StronglySorted_rev {A : Type} (R : A -> A -> Prop) (l : list A) :
  StronglySorted R l -> StronglySorted (fun a b => R b a) (rev l).
Proof.
  induction 1 as [|a l Hs IH Hall]; simpl; [constructor|].
  apply StronglySorted_app; auto.
  - repeat constructor.
  - intros x y Hx [<-|[]]. rewrite Forall_forall in Hall.
    apply Hall. now apply in_rev.
Qed.

Lemma sort_by_score_asc (l : list (ticker * Z)) :
  StronglySorted score_asc (py_sorted snd Z.ltb false l).
Proof.
  rewrite <- (map_id (py_sorted _ _ _ _)).
  apply StronglySorted_map with (R := in_order snd Z.ltb false).
  - intros a b H. unfold in_order, goes_behind in H. unfold score_asc.
    apply Z.ltb_ge in H. exact H.
  - apply py_sorted_sorted; [exact Zltb_asym|exact Zltb_negtrans].
Qed.

Lemma stable_sorts : sorts stable_sort_values.
Proof.
  intros ascending s. unfold stable_sort_values. split.
  - apply py_sorted_perm.
  - destruct ascending; simpl.
    + apply sort_by_score_asc.
    + apply sort_by_score_sorted.
Qed.

Lemma reversing_sorts : sorts reversing_sort_values.
Proof.
  intros ascending s. unfold reversing_sort_values. split.
  - etransitivity; [apply Permutation_sym, Permutation_rev|apply py_sorted_perm].
  - destruct ascending.
    + apply (StronglySorted_rev (sort_by_score_sorted s)).
    + apply (StronglySorted_rev (sort_by_score_asc s)).
Qed.

(** Two descending arrangements of the same entries agree when no two
    entries have the same score. *)
Lemma sorted_desc_unique (l l' : Series) :
  NoDup (map snd l') -> Permutation l l' ->
  StronglySorted score_desc l -> StronglySorted score_desc l' -> l = l'.
Proof.
  intros Hnd Hp Hs Hs'. apply (sorted_unique (R := score_desc)); auto.
  intros a b Ha Hb H1 H2. unfold score_desc in *.
  apply (NoDup_map_eq snd l'); auto.
  - now apply (Permutation_in _ Hp).
  - now apply (Permutation_in _ Hp).
  - lia.
Qed.

(** C7.  For a correlation matrix (square, symmetric, labelled by distinct
    tickers on both axes), a ticker [t] of it and any sort that meets the
    contract of [sort_values], [get_similar_stocks_threshold] returns
    exactly the tickers other than [t] whose correlation to [t] is at least
    the threshold, sorted descending by score.  This is the brute-force
    filter-then-sort over the row of [t]: the very list when the brute
    force sorts with the same [sort_values], and for any other sort the
    same entries in descending order, which is the same list when no two
    of them have the same score. *)
Theorem get_similar_stocks_threshold_brute_force
        (sort_values : bool -> Series -> Series)
        (m : CorrelationMatrix) (t : ticker) (threshold : Z) :
  sorts sort_values ->
  cm_index m = cm_columns m ->
  NoDup (cm_columns m) ->
  square m (length (cm_columns m)) = true ->
  symmetric m (length (cm_columns m)) = true ->
  In t (cm_columns m) ->
  exists similar_stocks,
    get_similar_stocks_threshold sort_values m t threshold = Ok similar_stocks /\
    above_threshold_brute_force sort_values m t threshold = Ok similar_stocks /\
    (forall sort : bool -> Series -> Series,
        sorts sort ->
        exists brute,
          above_threshold_brute_force sort m t threshold = Ok brute /\
          Permutation similar_stocks brute /\
          (NoDup (map snd brute) -> similar_stocks = brute)) /\
    (forall u s,
        In (u, s) similar_stocks <->
        u <> t /\ (threshold <= s)%Z /\
        exists i j, nth_error (cm_columns m) i = Some t /\
                    nth_error (cm_columns m) j = Some u /\
                    s = cell m i j) /\
    StronglySorted score_desc similar_stocks.
Proof.
  intros Hsort Hidx Hnd Hsq Hsym Ht.
  set (n := length (cm_columns m)) in *.
  destruct (square_shape _ _ Hsq) as [Hlen Hrows].
  destruct (index_of_some _ _ Ht) as (jt & Hjt).
  destruct (index_of_in _ _ Hjt) as [_ Hjn]. fold n in Hjn.
  pose (row := combine (cm_columns m) (nth jt (cm_values m) [])).
  pose (keep := fun e : ticker * Z => negb (String.eqb (fst e) t) && (threshold <=? snd e)%Z).
  exists (sort_values false (filter keep row)).
  assert (Hcol : getitem_column m t = Ok row).
  { unfold getitem_column. rewrite Hjt, Hidx.
    now rewrite (@column_is_row m n jt Hsq Hsym Hjn). }
  assert (Hkeys : map fst row = cm_columns m).
  { apply map_fst_combine. rewrite Hrows by auto. reflexivity. }
  assert (Hbrute : forall sort : bool -> Series -> Series,
             above_threshold_brute_force sort m t threshold
             = Ok (sort false (filter keep row))).
  { intro sort. unfold above_threshold_brute_force, above_threshold_row, matrix_row.
    rewrite Hidx, Hjt. reflexivity. }
  destruct (Hsort false (filter keep row)) as [Hperm Hsorted].
  split; [|split; [|split; [|split]]].
  - unfold get_similar_stocks_threshold.
    rewrite (proj2 (contains_In (cm_columns m) t) Ht). simpl.
    rewrite Hcol. simpl. unfold drop.
    rewrite Hkeys, (proj2 (contains_In (cm_columns m) t) Ht). simpl.
    rewrite filter_filter. do 2 f_equal.
    apply filter_ext. intros [u s]. unfold keep. simpl.
    now rewrite Z.geb_leb.
  - apply Hbrute.
  - intros sort Hsort'. exists (sort false (filter keep row)).
    destruct (Hsort' false (filter keep row)) as [Hperm' Hsorted'].
    split; [apply Hbrute|].
    assert (Hp : Permutation (sort_values false (filter keep row))
                             (sort false (filter keep row))).
    { etransitivity; [exact Hperm|]. now apply Permutation_sym. }
    split; [exact Hp|].
    intro Hties. now apply sorted_desc_unique.
  - intros u s. split.
    + intro H. apply (Permutation_in _ Hperm) in H.
      apply filter_In in H. destruct H as [Hin Hk].
      unfold keep in Hk. simpl in Hk. apply andb_true_iff in Hk.
      destruct Hk as [Hk1 Hk2]. apply negb_true_iff in Hk1.
      apply String.eqb_neq in Hk1. apply Z.leb_le in Hk2.
      repeat split; auto.
      apply in_combine_nth in Hin. destruct Hin as (j & Hu & Hs).
      exists jt, j. repeat split; auto using index_of_nth.
      unfold cell. symmetry. now apply nth_error_nth.
    + intros (Hne & Hthr & i & j & Hi & Hj & ->).
      apply (Permutation_in _ (Permutation_sym Hperm)).
      apply filter_In. split.
      * assert (i = jt).
        { pose proof (index_of_NoDup _ Hnd Hi) as H. congruence. }
        subst i. apply in_combine_nth. exists j. split; auto.
        unfold cell. apply nth_error_nth'.
        rewrite Hrows by auto.
        apply nth_error_Some. congruence.
      * unfold keep. simpl. apply andb_true_iff. split.
        -- apply negb_true_iff. now apply String.eqb_neq.
        -- now apply Z.leb_le.
  - exact Hsorted.
Qed.

Lemma get_similar_stocks_threshold_brute_force_witness :
  exists similar_stocks brute,
    get_similar_stocks_threshold reversing_sort_values tied_matrix "A"%string 10
    = Ok similar_stocks /\
    above_threshold_brute_force stable_sort_values tied_matrix "A"%string 10
    = Ok brute /\
    Permutation similar_stocks brute /\
    In ("C"%string, 50%Z) similar_stocks /\
    StronglySorted score_desc similar_stocks.
Proof.
  destruct (@get_similar_stocks_threshold_brute_force reversing_sort_values
              tied_matrix "A"%string 10)
    as (r & H1 & _ & H2 & H3 & H4).
  - exact reversing_sorts.
  - reflexivity.
  - repeat constructor; simpl; intuition discriminate.
  - reflexivity.
  - reflexivity.
  - simpl. auto.
  - destruct (H2 stable_sort_values stable_sorts) as (b & Hb & Hp & _).
    exists r, b. split; [exact H1|]. split; [exact Hb|]. split; [exact Hp|].
    split; [|exact H4].
    apply H3. split; [discriminate|]. split; [lia|].
    exists 0, 2. repeat split.
Defined.

(** With equal scores the order depends on the sort: the two sorts of the
    vocabulary give the same entries in two orders. *)
Example get_similar_stocks_threshold_ties :
  get_similar_stocks_threshold stable_sort_values tied_matrix "A"%string 10
  = Ok [("B"%string, 50%Z); ("C"%string, 50%Z)] /\
  get_similar_stocks_threshold reversing_sort_values tied_matrix "A"%string 10
  = Ok [("C"%string, 50%Z); ("B"%string, 50%Z)].
Proof. split; reflexivity. Qed.

Example get_similar_stocks_threshold_example :
  get_similar_stocks_threshold stable_sort_values example_matrix "A"%string 10
  = Ok [("B"%string, 90%Z); ("C"%string, 10%Z)].
Proof. reflexivity. Qed.

(** ** [py_sorted] on comparable keys *)

Section PySortOn.
Context {A K : Type}.
Variable key : A -> K.
Variable lt : K -> K -> bool.
Variable reverse : bool.

Lemma comparable_incl (keys keys' : list K) :
  incl keys' keys -> comparable lt keys -> comparable lt keys'.
Proof.
  intros Hi [H1 H2]. split.
  - intros a b Ha Hb. apply H1; auto.
  - intros a b c Ha Hb Hc. apply H2; auto.
Qed.

Lemma sort_insert_sorted_on (x : A) (l : list A) :
  comparable lt (map key (x :: l)) ->
  StronglySorted (in_order key lt reverse) l ->
  StronglySorted (in_order key lt reverse) (sort_insert key lt reverse x l).
Proof.
  induction l as [|y l IH]; simpl; intros Hc Hs.
  - constructor; auto.
  - inversion Hs as [|? ? Hs' Hall]; subst.
    destruct Hc as [Hasym Hneg]. simpl in Hasym, Hneg.
    destruct (goes_behind key lt reverse x y) eqn:E.
    + constructor.
      * apply IH; auto. apply (@comparable_incl (key x :: key y :: map key l)).
        -- intros z [<-|Hz]; simpl; auto.
        -- split; assumption.
      * apply Forall_forall. intros z Hz.
        apply (Permutation_in _ (sort_insert_perm key lt reverse x l)) in Hz.
        destruct Hz as [<-|Hz].
        -- unfold in_order, goes_behind in *.
           destruct reverse; apply Hasym; auto.
        -- rewrite Forall_forall in Hall. now apply Hall.
    + constructor; auto. constructor; auto.
      apply Forall_forall. intros z Hz. rewrite Forall_forall in Hall.
      specialize (Hall z Hz). unfold in_order, goes_behind in *.
      assert (Hkz : In (key z) (map key l)) by now apply in_map.
      destruct reverse.
      * apply Hneg with (b := key y); auto.
      * apply Hneg with (b := key y); auto.
Qed.

(** [py_sorted] sorts any list whose keys are comparable. *)
Lemma py_sorted_sorted_on (l : list A) :
  comparable lt (map key l) ->
  StronglySorted (in_order key lt reverse) (py_sorted key lt reverse l).
Proof.
  induction l as [|x l IH]; simpl; intro Hc; [constructor|].
  apply sort_insert_sorted_on.
  - apply (comparable_incl (keys := key x :: map key l)); auto.
    intros z [<-|Hz]; [now left|]. right.
    apply in_map_iff in Hz. destruct Hz as (e & <- & He).
    apply in_map. now apply (Permutation_in _ (py_sorted_perm key lt reverse l)).
  - apply IH. apply (comparable_incl (keys := key x :: map key l)); auto.
    intros z Hz. now right.
Qed.
End PySortOn.

(** ** [SharpeRatioCalculator] *)

Section SharpeFacts.
Context {num : Type} {F : FloatOps num}.
Variable returns_df : DataFrame (option num).

Lemma getitem_known (t : ticker) :
  In t (columns returns_df) -> exists column, getitem returns_df t = Ok column.
Proof.
  intro H. unfold getitem.
  destruct (index_of_some _ _ H) as (j & ->). eauto.
Qed.

(** The values the loop keeps of a column are its present returns. *)
Lemma dropna_present (j : nat) :
  dropna (map (fun r => nth j r None) (rows returns_df))
  = present_returns returns_df j.
Proof.
  unfold present_returns. induction (rows returns_df) as [|row rs IH]; simpl; auto.
  assert (E : nth j row None = match nth_error row j with
                               | Some c => c
                               | None => None
                               end).
  { destruct (nth_error row j) as [c|] eqn:Ej.
    - now apply nth_error_nth.
    - apply nth_overflow. now apply nth_error_None. }
  rewrite E. destruct (nth_error row j) as [[v|]|]; simpl; now rewrite IH.
Qed.

(** The loop appends one score per ticker, in the order of the tickers:
    the score of a ticker is computed from the present returns of the
    column it labels. *)
Lemma sharpe_loop (risk_free_rate : num) (annualization_factor : Z)
      (tickers : list ticker) :
  NoDup (columns returns_df) ->
  (forall t, In t tickers -> In t (columns returns_df)) ->
  forall sharpe_ratios,
  exists scores,
    for_each (sharpe_body returns_df risk_free_rate annualization_factor)
             sharpe_ratios tickers = Ok (sharpe_ratios ++ scores) /\
    length scores = length tickers /\
    forall i t,
      nth_error tickers i = Some t ->
      exists j,
        nth_error (columns returns_df) j = Some t /\
        nth_error scores i
        = Some (sharpe_ratio_of (present_returns returns_df j) risk_free_rate
                                annualization_factor).
Proof.
  intro Hnd. induction tickers as [|t tickers IH]; intros Hknown acc.
  - exists []. simpl. rewrite app_nil_r. repeat split; auto.
    intros [|i] t H; discriminate.
  - destruct (index_of_some t (columns returns_df)) as (j & Hj);
      [apply Hknown; now left|].
    set (score := sharpe_ratio_of (present_returns returns_df j) risk_free_rate
                                  annualization_factor).
    destruct (IH (fun u Hu => Hknown u (or_intror Hu)) (acc ++ [score]))
      as (scores & E & Hlen & Hnth).
    exists (score :: scores).
    cbn [for_each]. unfold sharpe_body at 1. unfold getitem. rewrite Hj.
    cbn [bind]. rewrite dropna_present. fold score.
    rewrite E, <- app_assoc. simpl. repeat split; auto.
    intros [|i] u Hu; simpl in *.
    + inversion Hu; subst. exists j. split; [now apply index_of_nth|reflexivity].
    + now apply Hnth.
Qed.

Lemma calculate_sharpe_ratios_scores (ordered_tickers : list ticker)
      (risk_free_rate : num) (annualization_factor : Z) :
  annualization_factor <> 0%Z ->
  NoDup (columns returns_df) ->
  (forall t, In t ordered_tickers -> In t (columns returns_df)) ->
  exists scores,
    calculate_sharpe_ratios returns_df ordered_tickers risk_free_rate
                            annualization_factor = Ok scores /\
    length scores = length ordered_tickers /\
    forall i t,
      nth_error ordered_tickers i = Some t ->
      exists j,
        nth_error (columns returns_df) j = Some t /\
        nth_error scores i
        = Some (sharpe_ratio_of (present_returns returns_df j) risk_free_rate
                                annualization_factor).
Proof.
  intros Haf Hnd Hknown. unfold calculate_sharpe_ratios.
  destruct (Z.eqb_spec annualization_factor 0); [contradiction|].
  destruct (@sharpe_loop risk_free_rate annualization_factor ordered_tickers
                         Hnd Hknown [])
    as (scores & E & H).
  exists scores. split; auto.
Qed.

(** When the scores are comparable the ranking is sorted: it holds every
    ticker with its score, highest first. *)
Lemma get_sharpe_ranking_sorted (ordered_tickers : list ticker)
      (risk_free_rate : num) (scores : list num) :
  calculate_sharpe_ratios returns_df ordered_tickers risk_free_rate 252 = Ok scores ->
  comparable f_ltb scores ->
  exists ranked_stocks,
    get_sharpe_ranking returns_df ordered_tickers risk_free_rate = Ok ranked_stocks /\
    Permutation ranked_stocks (combine ordered_tickers scores) /\
    StronglySorted (ranked_desc f_ltb) ranked_stocks.
Proof.
  intros E Hc.
  exists (py_sorted snd f_ltb true (combine ordered_tickers scores)).
  split; [|split].
  - unfold get_sharpe_ranking. now rewrite E.
  - apply py_sorted_perm.
  - change (StronglySorted (in_order snd f_ltb true)
                           (py_sorted snd f_ltb true (combine ordered_tickers scores))).
    apply py_sorted_sorted_on.
    apply (comparable_incl (keys := scores)); auto.
    intros z Hz. apply in_map_iff in Hz. destruct Hz as ([t v] & <- & Hin).
    simpl. eapply in_combine_r; eauto.
Qed.
End SharpeFacts.

(** C9.  When the returns frame has distinct column labels, every ordered
    ticker is one of them and the annualization factor is not zero,
    [calculate_sharpe_ratios] returns one score per ticker, in the order of
    the tickers: the list is as long as [ordered_tickers], and its [i]-th
    element is the Sharpe score of the [i]-th ticker, computed from the
    returns of that ticker's column that are not missing. *)
Theorem calculate_sharpe_ratios_order
        {num : Type} {F : FloatOps num}
        (returns_df : DataFrame (option num)) (ordered_tickers : list ticker)
        (risk_free_rate : num) (annualization_factor : Z) :
  annualization_factor <> 0%Z ->
  NoDup (columns returns_df) ->
  (forall t, In t ordered_tickers -> In t (columns returns_df)) ->
  exists sharpe_ratios,
    calculate_sharpe_ratios returns_df ordered_tickers risk_free_rate
                            annualization_factor = Ok sharpe_ratios /\
    length sharpe_ratios = length ordered_tickers /\
    forall i t,
      nth_error ordered_tickers i = Some t ->
      exists j,
        nth_error (columns returns_df) j = Some t /\
        let returns := present_returns returns_df j in
        let annualized_return :=
          f_mul (series_mean returns) (f_of_int annualization_factor) in
        let annualized_volatility :=
          f_mul (series_std returns) (f_sqrt (f_of_int annualization_factor)) in
        nth_error sharpe_ratios i
        = Some (if f_eqb annualized_volatility (f_of_int 0) then f_zero
                else f_div (f_sub annualized_return risk_free_rate)
                           annualized_volatility).
Proof.
  intros Haf Hnd Hknown.
  destruct (@calculate_sharpe_ratios_scores num F returns_df ordered_tickers
              risk_free_rate annualization_factor Haf Hnd Hknown)
    as (scores & E & Hlen & Hnth).
  exists scores. split; [exact E|]. split; [exact Hlen|].
  intros i t Hi. destruct (Hnth i t Hi) as (j & Hj & Hs).
  exists j. split; [exact Hj|]. exact Hs.
Qed.

Lemma calculate_sharpe_ratios_order_witness :
  calculate_sharpe_ratios (F := integer_ops) example_sharpe_returns
                          ["B"%string; "A"%string] 4%Z 252 = Ok [0; 33]%Z.
Proof.
  destruct (@calculate_sharpe_ratios_order Z integer_ops example_sharpe_returns
              ["B"%string; "A"%string] 4%Z 252)
    as (scores & E & Hlen & Hnth).
  - discriminate.
  - repeat constructor; simpl; intuition discriminate.
  - simpl. intuition.
  - rewrite E. f_equal.
    destruct (Hnth 0 "B"%string eq_refl) as (jb & Hjb & Hb).
    destruct (Hnth 1 "A"%string eq_refl) as (ja & Hja & Ha).
    assert (jb = 1).
    { destruct jb as [|[|jb]]; simpl in Hjb; try discriminate; auto.
      destruct jb; discriminate. }
    assert (ja = 0).
    { destruct ja as [|[|ja]]; simpl in Hja; try discriminate; auto.
      destruct ja; discriminate. }
    subst. cbv zeta in Ha, Hb.
    destruct scores as [|s0 [|s1 [|s2 scores]]]; try discriminate.
    simpl in Ha, Hb. inversion Ha. inversion Hb. reflexivity.
Defined.

(** C8.  The ranking is not sorted when a score is NaN.  For three tickers
    in distinct columns whose scores, computed by the formula of
    [calculate_sharpe_ratios] with the factor 252, are such that the second
    is below or above neither of the others (every comparison with a NaN is
    false) and the first is below the third, [get_sharpe_ranking] returns
    the three tickers with their scores in their initial order: the first
    is ranked above the third although its score is lower. *)
Theorem sharpe_ranking_nan_unsorted
        {num : Type} {F : FloatOps num}
        (returns_df : DataFrame (option num)) (a b c : ticker) (ja jb jc : nat)
        (risk_free_rate : num) :
  NoDup (columns returns_df) ->
  nth_error (columns returns_df) ja = Some a ->
  nth_error (columns returns_df) jb = Some b ->
  nth_error (columns returns_df) jc = Some c ->
  let score := fun j =>
    let returns := present_returns returns_df j in
    let annualized_return := f_mul (series_mean returns) (f_of_int 252) in
    let annualized_volatility :=
      f_mul (series_std returns) (f_sqrt (f_of_int 252)) in
    if f_eqb annualized_volatility (f_of_int 0) then f_zero
    else f_div (f_sub annualized_return risk_free_rate) annualized_volatility in
  f_ltb (score ja) (score jb) = false ->
  f_ltb (score jb) (score jc) = false ->
  f_ltb (score ja) (score jc) = true ->
  get_sharpe_ranking returns_df [a; b; c] risk_free_rate
  = Ok [(a, score ja); (b, score jb); (c, score jc)] /\
  ~ StronglySorted (ranked_desc f_ltb) [(a, score ja); (b, score jb); (c, score jc)].
Proof.
  intros Hnd Ha Hb Hc score Hab Hbc Hac.
  destruct (@calculate_sharpe_ratios_scores num F returns_df [a; b; c]
              risk_free_rate 252 ltac:(discriminate) Hnd)
    as (scores & E & Hlen & Hnth).
  { intros t [<-|[<-|[<-|[]]]]; eapply nth_error_In; eauto. }
  assert (Hscores : scores = [score ja; score jb; score jc]).
  { destruct scores as [|s0 [|s1 [|s2 [|s3 scores]]]]; try discriminate.
    destruct (Hnth 0 a eq_refl) as (j0 & Hj0 & H0).
    destruct (Hnth 1 b eq_refl) as (j1 & Hj1 & H1).
    destruct (Hnth 2 c eq_refl) as (j2 & Hj2 & H2).
    assert (j0 = ja) by (eapply NoDup_nth_error; eauto;
                         [apply nth_error_Some|]; congruence).
    assert (j1 = jb) by (eapply NoDup_nth_error; eauto;
                         [apply nth_error_Some|]; congruence).
    assert (j2 = jc) by (eapply NoDup_nth_error; eauto;
                         [apply nth_error_Some|]; congruence).
    subst. simpl in H0, H1, H2. inversion H0. inversion H1. inversion H2.
    reflexivity. }
  subst scores. clearbody score. split.
  - unfold get_sharpe_ranking. rewrite E. cbn [bind combine py_sorted sort_insert].
    unfold goes_behind. cbn [snd]. rewrite Hbc.
    cbn [sort_insert]. unfold goes_behind. cbn [snd]. now rewrite Hab.
  - intro Hs. inversion Hs as [|? ? _ Hall]; subst.
    inversion Hall as [|? ? _ Hall']; subst.
    inversion Hall' as [|? ? H _]; subst.
    unfold ranked_desc in H. simpl in H. congruence.
Qed.

Lemma sharpe_ranking_nan_unsorted_witness :
  get_sharpe_ranking (F := nan_ops) example_nan_returns
                     ["A"%string; "B"%string; "C"%string] (Some 4%Z)
  = Ok [("A"%string, Some 27%Z); ("B"%string, None); ("C"%string, Some 35%Z)] /\
  ~ StronglySorted (ranked_desc (nan_test Z.ltb))
      [("A"%string, Some 27%Z); ("B"%string, None); ("C"%string, Some 35%Z)].
Proof.
  apply (@sharpe_ranking_nan_unsorted (option Z) nan_ops example_nan_returns
           "A"%string "B"%string "C"%string 0 1 2 (Some 4%Z)).
  - repeat constructor; simpl; intuition discriminate.
  - reflexivity.
  - reflexivity.
  - reflexivity.
  - reflexivity.
  - reflexivity.
  - reflexivity.
Defined.

(** With comparable scores the same call ranks highest first. *)
Example get_sharpe_ranking_example :
  get_sharpe_ranking (F := integer_ops) example_sharpe_returns
                     ["B"%string; "A"%string] 4%Z
  = Ok [("A"%string, 33%Z); ("B"%string, 0%Z)].
Proof. reflexivity. Qed.


(** * Further facts *)

(** ** The selection loop of [topk_stocks] and [leastk_stocks] *)

(** The heap after the loop holds [min(k, N)] entries of the stream, and no
    entry left out has a larger first component. *)
Lemma topk_selection (stream : list (ticker * Z)) (k : Z) :
  (1 <= k)%Z ->
  exists heap rest,
    for_each (topk_body k) [] stream = Ok heap /\
    Permutation (heap ++ rest) (map as_entry stream) /\
    length heap = Nat.min (Z.to_nat k) (length stream) /\
    forall x y, In x heap -> In y rest -> (fst y <= fst x)%Z.
Proof.
  intro Hk.
  assert (Hinv0 : topk_inv k [] []).
  { repeat split; simpl; auto; try lia. apply heap_ok_nil. }
  destruct (topk_loop_inv stream Hk Hinv0)
    as (heap & rest & E & (_ & Hlen & Hrest & Hcross) & Hp).
  rewrite app_nil_r in Hp.
  exists heap, rest. repeat split; auto.
  pose proof (Permutation_length Hp) as HL.
  rewrite length_app, length_map in HL.
  destruct Hrest as [->|Hfull]; simpl in HL; lia.
Qed.

Lemma sort_by_score_asc_sorted (l : list (ticker * Z)) :
  StronglySorted score_asc (py_sorted snd Z.ltb false l).
Proof.
  rewrite <- (map_id (py_sorted _ _ _ _)).
  apply StronglySorted_map with (R := in_order snd Z.ltb false).
  - intros a b. unfold in_order, goes_behind, score_asc. apply Z.ltb_ge.
  - apply py_sorted_sorted; [exact Zltb_asym|exact Zltb_negtrans].
Qed.

Lemma negate_back (l : list (ticker * Z)) :
  map as_item (map (fun '(return_val, t) => ((- return_val)%Z, t))
                   (map as_entry (negated l))) = l.
Proof.
  unfold negated. rewrite !map_map. rewrite <- (map_id l) at 2.
  apply map_ext. intros [t r]. unfold as_item, as_entry. simpl. f_equal. lia.
Qed.

(** The loop of [leastk_stocks], then the sign flip and [sort]: the result
    heads an arrangement of the stream sorted ascending by score. *)
Lemma leastk_heap_arrangement (stream : list (ticker * Z)) (k : Z) :
  (1 <= k)%Z ->
  exists bottom_stocks l,
    leastk_heap stream k = Ok bottom_stocks /\
    Permutation l stream /\ StronglySorted score_asc l /\
    map as_item bottom_stocks = firstn (Z.to_nat k) l /\
    length bottom_stocks = Nat.min (Z.to_nat k) (length stream).
Proof.
  intro Hk. unfold leastk_heap. rewrite leastk_loop_negated.
  destruct (topk_selection (negated stream) Hk) as (heap & rest & E & Hp & Hlen & Hcross).
  rewrite E. cbn [bind].
  set (flip := fun '(return_val, t) => ((- return_val)%Z, t) : entry).
  set (res := py_sorted id tuple_lt false (map flip heap)).
  assert (Hres : Permutation res (map flip heap)) by apply py_sorted_perm.
  assert (HN : length (negated stream) = length stream)
    by (unfold negated; apply length_map).
  exists res, (map as_item res ++ py_sorted snd Z.ltb false (map as_item (map flip rest))).
  split; [reflexivity|]. split; [|split; [|split]].
  - rewrite <- (negate_back stream). fold flip.
    etransitivity; [|apply Permutation_map, Permutation_map, Hp].
    rewrite !map_app. apply Permutation_app.
    + now apply Permutation_map.
    + apply py_sorted_perm.
  - apply StronglySorted_app.
    + apply StronglySorted_map with (R := in_order id tuple_lt false).
      * apply tuple_asc_score_asc.
      * apply py_sorted_sorted; [exact tuple_lt_asym|exact tuple_lt_negtrans].
    + apply sort_by_score_asc_sorted.
    + intros x y Hx Hy.
      apply in_map_iff in Hx. destruct Hx as (ex & <- & Hx).
      apply (Permutation_in _ Hres) in Hx.
      apply in_map_iff in Hx. destruct Hx as ([rx tx] & <- & Hx).
      apply (Permutation_in _ (py_sorted_perm _ _ _ _)) in Hy.
      apply in_map_iff in Hy. destruct Hy as (ey & <- & Hy).
      apply in_map_iff in Hy. destruct Hy as ([ry ty] & <- & Hy).
      specialize (Hcross _ _ Hx Hy). unfold score_asc, as_item. simpl in *. lia.
  - assert (Hl : length (map as_item res) = length heap).
    { rewrite length_map, (Permutation_length Hres). apply length_map. }
    rewrite HN in Hlen.
    destruct (Nat.le_gt_cases (Z.to_nat k) (length stream)) as [Hle|Hgt].
    + replace (Z.to_nat k) with (length (map as_item res) + 0) by lia.
      now rewrite firstn_app_2, app_nil_r.
    + assert (Hr : rest = []).
      { apply Permutation_length in Hp.
        rewrite length_app, length_map, HN in Hp. destruct rest; auto. simpl in Hp. lia. }
      subst rest. simpl. rewrite app_nil_r. symmetry. apply firstn_all2. lia.
  - unfold res. rewrite py_sorted_length, length_map. now rewrite HN in Hlen.
Qed.

(** X1.  For every stream and every [k >= 1], [leastk_stocks] returns, and
    the tickers and scores of its entries are the first [k] items of an
    arrangement of the stream sorted ascending by score; with pairwise
    distinct scores this is the ascending sort of the stream cut at [k]. *)
Theorem leastk_heap_sort_then_slice (stream : list (ticker * Z)) (k : Z) :
  (1 <= k)%Z ->
  exists bottom_stocks,
    leastk_heap stream k = Ok bottom_stocks /\
    (exists l, Permutation l stream /\ StronglySorted score_asc l /\
               map as_item bottom_stocks = firstn (Z.to_nat k) l) /\
    (NoDup (map snd stream) ->
     map as_item bottom_stocks
     = firstn (Z.to_nat k) (py_sorted snd Z.ltb false stream)).
Proof.
  intro Hk.
  destruct (leastk_heap_arrangement stream Hk) as (res & l & E & Hp & Hs & Hf & _).
  exists res. split; [exact E|]. split; [now exists l|].
  intro Hnd. rewrite Hf. f_equal.
  apply sorted_unique with (R := score_asc); auto.
  - intros a b Ha Hb Hab Hba.
    apply (NoDup_map_eq snd stream); auto.
    + now apply (Permutation_in _ Hp).
    + now apply (Permutation_in _ Hp).
    + unfold score_asc in *. lia.
  - etransitivity; [exact Hp|]. symmetry. apply py_sorted_perm.
  - apply sort_by_score_asc_sorted.
Qed.

Lemma leastk_heap_sort_then_slice_witness :
  exists bottom_stocks,
    leastk_heap example_scores 2 = Ok bottom_stocks /\
    map as_item bottom_stocks
    = firstn 2 (py_sorted snd Z.ltb false example_scores).
Proof.
  destruct (@leastk_heap_sort_then_slice example_scores 2) as (r & E & _ & H);
    [lia|].
  exists r. split; [exact E|]. apply H.
  repeat constructor; simpl; intuition discriminate.
Defined.

(** The entries of both selections are items of the stream. *)
Lemma selection_items (stream : list (ticker * Z)) (k : Z) :
  (1 <= k)%Z ->
  exists top_stocks bottom_stocks,
    topk_heap stream k = Ok top_stocks /\
    leastk_heap stream k = Ok bottom_stocks /\
    (forall e, In e top_stocks -> In (as_item e) stream) /\
    (forall e, In e bottom_stocks -> In (as_item e) stream).
Proof.
  intro Hk.
  destruct (topk_heap_arrangement stream Hk) as (top & l & E & Hp & _ & Hf).
  destruct (leastk_heap_arrangement stream Hk) as (bot & l' & E' & Hp' & _ & Hf' & _).
  exists top, bot. split; [exact E|]. split; [exact E'|]. split.
  - intros e He. apply (Permutation_in _ Hp).
    apply firstn_in with (n := Z.to_nat k). rewrite <- Hf. now apply in_map.
  - intros e He. apply (Permutation_in _ Hp').
    apply firstn_in with (n := Z.to_nat k). rewrite <- Hf'. now apply in_map.
Qed.

(** X2.  For [k >= 1] both selections return exactly [min(k, N)] entries,
    and every entry is an item of the stream. *)
Theorem topk_leastk_size (stream : list (ticker * Z)) (k : Z) :
  (1 <= k)%Z ->
  exists top_stocks bottom_stocks,
    topk_heap stream k = Ok top_stocks /\
    leastk_heap stream k = Ok bottom_stocks /\
    length top_stocks = Nat.min (Z.to_nat k) (length stream) /\
    length bottom_stocks = Nat.min (Z.to_nat k) (length stream) /\
    (forall e, In e top_stocks -> In (as_item e) stream) /\
    (forall e, In e bottom_stocks -> In (as_item e) stream).
Proof.
  intro Hk.
  destruct (topk_heap_arrangement stream Hk) as (top & l & E & Hp & _ & Hf).
  destruct (leastk_heap_arrangement stream Hk) as (bot & l' & E' & Hp' & _ & Hf' & Hlen').
  exists top, bot. split; [exact E|]. split; [exact E'|].
  split; [|split; [exact Hlen'|split]].
  - rewrite <- (length_map as_item), Hf, length_firstn.
    now rewrite (Permutation_length Hp).
  - intros e He. apply (Permutation_in _ Hp).
    apply firstn_in with (n := Z.to_nat k). rewrite <- Hf. now apply in_map.
  - intros e He. apply (Permutation_in _ Hp').
    apply firstn_in with (n := Z.to_nat k). rewrite <- Hf'. now apply in_map.
Qed.

Lemma topk_leastk_size_witness :
  exists top_stocks bottom_stocks,
    topk_heap example_scores 3 = Ok top_stocks /\
    leastk_heap example_scores 3 = Ok bottom_stocks /\
    length top_stocks = 3 /\ length bottom_stocks = 3.
Proof.
  destruct (@topk_leastk_size example_scores 3) as (t & b & E & E' & L & L' & _);
    [lia|].
  exists t, b. auto.
Defined.

(** ** [get_stock_performance] and [analyze_multiple_periods] *)

Lemma series_tail_map {A B : Type} (f : A -> B) (n : Z) (rs : list A) :
  series_tail n (map f rs) = map f (series_tail n rs).
Proof.
  unfold series_tail. rewrite length_map.
  destruct (n =? 0)%Z; auto.
  destruct (0 <? n)%Z; apply skipn_map.
Qed.

Lemma tail_is_series_tail {V : Type} (n : Z) (rs : list (list V)) :
  tail n rs = series_tail n rs.
Proof. reflexivity. Qed.

(** The items of [DataFrame.sum()] are the column sums, by position. *)
Lemma sum_columns_item (frame_sum : list Z -> Z) (cols : list ticker)
      (rs : list (list Z)) (t : ticker) (r : Z) :
  In (t, r) (sum_columns frame_sum cols rs) ->
  exists j, nth_error cols j = Some t /\ r = column_sum frame_sum rs j.
Proof.
  unfold sum_columns. intro H. apply in_combine_nth in H.
  destruct H as (j & Hj & Hr). exists j. split; auto.
  rewrite nth_error_map, nth_error_seq in Hr.
  destruct (j <? length cols); simpl in Hr; inversion Hr. reflexivity.
Qed.

(** Within the window and for a column of the frame, the performance is
    the sum of the last rows of the column, once the price is fetched. *)
Lemma get_stock_performance_total (series_sum : list Z -> Z)
      (asset_prices_df : option (DataFrame Cell)) (returns_df : DataFrame Z)
      (n_days : Z) (t : ticker) (j : nat) :
  (n_days <= len returns_df)%Z ->
  NoDup (columns returns_df) ->
  nth_error (columns returns_df) j = Some t ->
  get_stock_performance series_sum asset_prices_df returns_df t n_days
  = match get_stock_price asset_prices_df t with
    | Ok _ =>
        Ok (Some (series_sum (map (fun row => nth j row 0%Z)
                                  (tail n_days (rows returns_df)))))
    | Raise e => Raise e
    end.
Proof.
  intros Hn Hnd Hj. unfold get_stock_performance.
  replace (n_days >? len returns_df)%Z with false
    by (symmetry; destruct (Z.gtb_spec n_days (len returns_df)); auto; lia).
  assert (Hin : In t (columns returns_df)) by (eapply nth_error_In; eauto).
  rewrite (proj2 (contains_In _ _) Hin). simpl.
  unfold returns_column. rewrite (index_of_NoDup _ Hnd Hj). simpl.
  rewrite tail_is_series_tail, series_tail_map.
  now destruct (get_stock_price asset_prices_df t).
Qed.

(** X3.  [topk_stocks] and [leastk_stocks] rank by the returns that
    [get_stock_performance] reports: in a frame with distinct column
    labels, every entry [(r, t)] they return carries the [DataFrame.sum] of
    the last [n_days] values of the column of [t], and
    [get_stock_performance(t, n_days)] returns the [Series.sum] of the very
    same values, unless fetching the price of [t] raises. *)
Theorem ranked_by_stock_performance
        (frame_sum series_sum : list Z -> Z)
        (asset_prices_df : option (DataFrame Cell))
        (returns_df : DataFrame Z) (n_days k_stocks : Z) :
  (1 <= k_stocks)%Z ->
  (n_days <= len returns_df)%Z ->
  NoDup (columns returns_df) ->
  exists top_stocks bottom_stocks,
    topk_stocks frame_sum returns_df n_days k_stocks = Ok top_stocks /\
    leastk_stocks frame_sum returns_df n_days k_stocks = Ok bottom_stocks /\
    forall r t,
      In (r, t) top_stocks \/ In (r, t) bottom_stocks ->
      exists j,
        nth_error (columns returns_df) j = Some t /\
        let recent_returns :=
          map (fun row => nth j row 0%Z) (tail n_days (rows returns_df)) in
        r = frame_sum recent_returns /\
        get_stock_performance series_sum asset_prices_df returns_df t n_days
        = match get_stock_price asset_prices_df t with
          | Ok _ => Ok (Some (series_sum recent_returns))
          | Raise e => Raise e
          end.
Proof.
  intros Hk Hn Hnd.
  unfold topk_stocks, leastk_stocks, total_returns.
  replace (n_days >? len returns_df)%Z with false
    by (symmetry; destruct (Z.gtb_spec n_days (len returns_df)); auto; lia).
  cbn [bind].
  set (totals := sum_columns _ _ _).
  destruct (@selection_items totals k_stocks Hk)
    as (top & bot & E & E' & Ht & Hb).
  exists top, bot. split; [exact E|]. split; [exact E'|].
  intros r t H.
  assert (Hin : In (t, r) totals).
  { destruct H as [H|H]; [apply (Ht (r, t) H)|apply (Hb (r, t) H)]. }
  apply sum_columns_item in Hin. destruct Hin as (j & Hj & ->).
  exists j. split; [exact Hj|]. cbv zeta. split; [reflexivity|].
  now apply get_stock_performance_total.
Qed.

Lemma ranked_by_stock_performance_witness :
  exists top_stocks,
    topk_stocks exact_sum example_returns 2 1 = Ok top_stocks /\
    forall r t,
      In (r, t) top_stocks ->
      exists j,
        nth_error example_tickers j = Some t /\
        r = exact_sum (map (fun row => nth j row 0%Z) [[4; 5; 6]; [7; 8; 9]]%Z) /\
        (t <> "B"%string ->
         get_stock_performance exact_sum (Some example_prices) example_returns t 2
         = Ok (Some r)) /\
        (t = "B"%string ->
         get_stock_performance exact_sum (Some example_prices) example_returns t 2
         = Raise TypeError).
Proof.
  destruct (@ranked_by_stock_performance exact_sum exact_sum (Some example_prices)
              example_returns 2 1) as (top & bot & E & _ & H).
  - lia.
  - unfold len. simpl. lia.
  - repeat constructor; simpl; intuition discriminate.
  - exists top. split; [exact E|]. intros r t Hin.
    destruct (H r t (or_introl Hin)) as (j & Hj & Hr & Hp).
    exists j. split; [exact Hj|]. split; [exact Hr|].
    cbv zeta in Hp. rewrite Hp, <- Hr. clear Hp Hr Hin H E.
    destruct j as [|[|[|j]]]; simpl in Hj; [| | |destruct j; discriminate Hj];
      inversion Hj; subst; split; intro Ht;
      try discriminate Ht; try (exfalso; apply Ht; reflexivity); reflexivity.
Defined.



Section PeriodFacts.
Variable series_sum : list Z -> Z.
Variable asset_prices_df : option (DataFrame Cell).
Variable returns_df : DataFrame Z.




End PeriodFacts.



(** ** The matrix queries of [CorrelationCalculator] *)

Lemma StronglySorted_app_cross {A : Type} (R : A -> A -> Prop) (l1 l2 : list A) :
  StronglySorted R (l1 ++ l2) -> forall x y, In x l1 -> In y l2 -> R x y.
Proof.
  induction l1 as [|a l1 IH]; simpl; intros Hs x y Hx Hy; [contradiction|].
  inversion Hs as [|? ? Hs' Hall]; subst.
  destruct Hx as [<-|Hx]; [|now apply IH].
  rewrite Forall_forall in Hall. apply Hall. apply in_or_app. now right.
Qed.

Lemma StronglySorted_app_l {A : Type} (R : A -> A -> Prop) (l1 l2 : list A) :
  StronglySorted R (l1 ++ l2) -> StronglySorted R l1.
Proof.
  induction l1 as [|a l1 IH]; simpl; intro Hs; [constructor|].
  inversion Hs as [|? ? Hs' Hall]; subst. constructor; auto.
  apply Forall_app in Hall. tauto.
Qed.

Lemma filter_fst_length {B : Type} (p : ticker -> bool) (s : list (ticker * B)) :
  length (filter (fun e => p (fst e)) s) = length (filter p (map fst s)).
Proof.
  induction s as [|[u v] s IH]; simpl; auto.
  destruct (p u); simpl; now rewrite IH.
Qed.

Lemma filter_out_one (t : ticker) (l : list ticker) :
  NoDup l -> In t l ->
  length (filter (fun u => negb (String.eqb u t)) l) = length l - 1.
Proof.
  induction 1 as [|x l Hx Hnd IH]; simpl; [contradiction|].
  intros [->|Hin].
  - rewrite String.eqb_refl. simpl. rewrite Nat.sub_0_r.
    f_equal. rewrite forallb_filter_id; auto.
    apply forallb_forall. intros u Hu. apply negb_true_iff, String.eqb_neq.
    intros ->. contradiction.
  - destruct (String.eqb_spec x t) as [->|Hne]; [contradiction|]. simpl.
    rewrite IH by auto. destruct l; [contradiction|simpl; lia].
Qed.

(** The series the four queries work on: the column of [t] without the
    entry of [t] itself. *)
Lemma column_without (m : CorrelationMatrix) (t : ticker) :
  cm_index m = cm_columns m ->
  NoDup (cm_columns m) ->
  square m (length (cm_columns m)) = true ->
  In t (cm_columns m) ->
  exists column others,
    getitem_column m t = Ok column /\
    drop t column = Ok others /\
    length others = length (cm_columns m) - 1 /\
    NoDup (map fst others) /\
    forall u s,
      In (u, s) others <->
      u <> t /\
      exists i j, nth_error (cm_columns m) i = Some u /\
                  nth_error (cm_columns m) j = Some t /\
                  s = cell m i j.
Proof.
  intros Hidx Hnd Hsq Ht.
  destruct (square_shape _ _ Hsq) as [Hlen Hrows].
  destruct (index_of_some _ _ Ht) as (jt & Hjt).
  set (vals := map (fun r => nth jt r 0%Z) (cm_values m)).
  set (column := combine (cm_columns m) vals).
  assert (Hkeys : map fst column = cm_columns m).
  { apply map_fst_combine. unfold vals. rewrite length_map. now symmetry. }
  set (keep := fun e : ticker * Z => negb (String.eqb (fst e) t)).
  exists column, (filter keep column).
  split; [|split; [|split; [|split]]].
  - unfold getitem_column. now rewrite Hjt, Hidx.
  - unfold drop. now rewrite Hkeys, (proj2 (contains_In _ _) Ht).
  - unfold keep. rewrite (filter_fst_length (fun u => negb (String.eqb u t))), Hkeys.
    now apply filter_out_one.
  - assert (Hsub : forall (s : list (ticker * Z)),
               NoDup (map fst s) -> NoDup (map fst (filter keep s))).
    { induction s as [|e s IH]; simpl; intro H; auto.
      inversion H as [|? ? Hx Hnd']; subst.
      destruct (keep e); simpl; auto. constructor; auto.
      intro Hin. apply Hx. apply in_map_iff in Hin.
      destruct Hin as (e' & E & He'). apply filter_In in He'.
      apply in_map_iff. exists e'. tauto. }
    apply Hsub. now rewrite Hkeys.
  - intros u s. rewrite filter_In. unfold keep. simpl.
    rewrite negb_true_iff, String.eqb_neq. unfold column.
    rewrite in_combine_nth. split.
    + intros [(i & Hu & Hs) Hne]. split; auto.
      exists i, jt. repeat split; auto using index_of_nth.
      unfold vals in Hs. rewrite nth_error_map in Hs.
      destruct (nth_error (cm_values m) i) as [row|] eqn:Er; simpl in Hs;
        inversion Hs.
      unfold cell. now rewrite (nth_error_nth _ _ [] Er).
    + intros (Hne & i & j & Hi & Hj & ->). split; auto.
      assert (j = jt) by (pose proof (index_of_NoDup _ Hnd Hj); congruence).
      subst j. exists i. split; auto.
      unfold vals. rewrite nth_error_map.
      assert (Hin : i < length (cm_values m)).
      { rewrite Hlen. apply nth_error_Some. congruence. }
      destruct (nth_error (cm_values m) i) as [row|] eqn:Er.
      * simpl. unfold cell. now rewrite (nth_error_nth _ _ [] Er).
      * apply nth_error_None in Er. lia.
Qed.

(** [nlargest] and [nsmallest]: the first [k] of the sorted series; what is
    left out comes later in the order. *)
Lemma sorted_prefix (reverse : bool) (k : nat) (s : Series) :
  exists rest,
    Permutation (firstn k (py_sorted snd Z.ltb reverse s) ++ rest) s /\
    StronglySorted (in_order snd Z.ltb reverse) (firstn k (py_sorted snd Z.ltb reverse s)) /\
    length (firstn k (py_sorted snd Z.ltb reverse s)) = Nat.min k (length s) /\
    forall x y, In x (firstn k (py_sorted snd Z.ltb reverse s)) -> In y rest ->
                in_order snd Z.ltb reverse x y.
Proof.
  set (l := py_sorted snd Z.ltb reverse s).
  assert (Hs : StronglySorted (in_order snd Z.ltb reverse) l)
    by (apply py_sorted_sorted; [exact Zltb_asym|exact Zltb_negtrans]).
  exists (skipn k l). rewrite <- (firstn_skipn k l) in Hs.
  split; [|split; [|split]].
  - rewrite firstn_skipn. apply py_sorted_perm.
  - eapply StronglySorted_app_l; eauto.
  - rewrite length_firstn. unfold l. now rewrite py_sorted_length.
  - now apply StronglySorted_app_cross.
Qed.

(** X5.  For a ticker [t] of a well-formed matrix and [k >= 0],
    [get_topk_similar_stocks] returns [min(k, n-1)] entries sorted
    descending by score; the entries returned and the entries left out are
    together exactly the other tickers with their correlation to [t] (so
    [t] itself never appears), and nothing left out scores higher than an
    entry returned. *)
Theorem get_topk_similar_stocks_top
        (m : CorrelationMatrix) (t : ticker) (k : Z) :
  cm_index m = cm_columns m ->
  NoDup (cm_columns m) ->
  square m (length (cm_columns m)) = true ->
  In t (cm_columns m) ->
  exists topk_similar rest,
    get_topk_similar_stocks m t k = Ok topk_similar /\
    length topk_similar = Nat.min (Z.to_nat k) (length (cm_columns m) - 1) /\
    StronglySorted score_desc topk_similar /\
    NoDup (map fst (topk_similar ++ rest)) /\
    (forall u s,
        In (u, s) (topk_similar ++ rest) <->
        u <> t /\
        exists i j, nth_error (cm_columns m) i = Some u /\
                    nth_error (cm_columns m) j = Some t /\
                    s = cell m i j) /\
    (forall x y, In x topk_similar -> In y rest -> (snd y <= snd x)%Z).
Proof.
  intros Hidx Hnd Hsq Ht.
  destruct (column_without m t Hidx Hnd Hsq Ht)
    as (column & others & Ec & Ed & Hlen & Hnd' & Hin).
  destruct (sorted_prefix true (Z.to_nat k) others) as (rest & Hp & Hs & Hl & Hc).
  unfold get_topk_similar_stocks.
  rewrite (proj2 (contains_In _ _) Ht). simpl. rewrite Ec. simpl. rewrite Ed. simpl.
  unfold nlargest.
  exists (firstn (Z.to_nat k) (py_sorted snd Z.ltb true others)), rest.
  split; [reflexivity|]. split; [now rewrite Hl, Hlen|].
  split; [|split; [|split]].
  - rewrite <- (map_id (firstn _ _)).
    eapply StronglySorted_map; [|exact Hs]. apply score_desc_of_key_order.
  - eapply Permutation_NoDup; [|exact Hnd'].
    apply Permutation_map. now symmetry.
  - intros u s. rewrite <- Hin. split; apply Permutation_in; auto. now symmetry.
  - intros x y Hx Hy. now apply score_desc_of_key_order, Hc.
Qed.

Lemma get_topk_similar_stocks_top_witness :
  exists (topk_similar rest : Series),
    get_topk_similar_stocks example_matrix "A"%string 1 = Ok topk_similar /\
    length topk_similar = 1 /\
    (forall x y, In x topk_similar -> In y rest -> (snd y <= snd x)%Z).
Proof.
  destruct (@get_topk_similar_stocks_top example_matrix "A"%string 1)
    as (r & rest & E & L & _ & _ & _ & H).
  - reflexivity.
  - repeat constructor; simpl; intuition discriminate.
  - reflexivity.
  - simpl. auto.
  - exists r, rest. auto.
Defined.

(** X6.  [get_leastk_similar_stocks] is the mirror image: [min(k, n-1)]
    entries sorted ascending by score, never [t] itself, and nothing left
    out scores lower than an entry returned. *)
Theorem get_leastk_similar_stocks_bottom
        (m : CorrelationMatrix) (t : ticker) (k : Z) :
  cm_index m = cm_columns m ->
  NoDup (cm_columns m) ->
  square m (length (cm_columns m)) = true ->
  In t (cm_columns m) ->
  exists leastk_similar rest,
    get_leastk_similar_stocks m t k = Ok leastk_similar /\
    length leastk_similar = Nat.min (Z.to_nat k) (length (cm_columns m) - 1) /\
    StronglySorted score_asc leastk_similar /\
    NoDup (map fst (leastk_similar ++ rest)) /\
    (forall u s,
        In (u, s) (leastk_similar ++ rest) <->
        u <> t /\
        exists i j, nth_error (cm_columns m) i = Some u /\
                    nth_error (cm_columns m) j = Some t /\
                    s = cell m i j) /\
    (forall x y, In x leastk_similar -> In y rest -> (snd x <= snd y)%Z).
Proof.
  intros Hidx Hnd Hsq Ht.
  destruct (column_without m t Hidx Hnd Hsq Ht)
    as (column & others & Ec & Ed & Hlen & Hnd' & Hin).
  destruct (sorted_prefix false (Z.to_nat k) others) as (rest & Hp & Hs & Hl & Hc).
  assert (Hasc : forall a b : ticker * Z, in_order snd Z.ltb false a b -> score_asc a b).
  { intros a b. unfold in_order, goes_behind, score_asc. apply Z.ltb_ge. }
  unfold get_leastk_similar_stocks.
  rewrite (proj2 (contains_In _ _) Ht). simpl. rewrite Ec. simpl. rewrite Ed. simpl.
  unfold nsmallest.
  exists (firstn (Z.to_nat k) (py_sorted snd Z.ltb false others)), rest.
  split; [reflexivity|]. split; [now rewrite Hl, Hlen|].
  split; [|split; [|split]].
  - rewrite <- (map_id (firstn _ _)).
    eapply StronglySorted_map; [|exact Hs]. exact Hasc.
  - eapply Permutation_NoDup; [|exact Hnd'].
    apply Permutation_map. now symmetry.
  - intros u s. rewrite <- Hin. split; apply Permutation_in; auto. now symmetry.
  - intros x y Hx Hy. now apply Hasc, Hc.
Qed.

Lemma get_leastk_similar_stocks_bottom_witness :
  exists (leastk_similar rest : Series),
    get_leastk_similar_stocks example_matrix "B"%string 1 = Ok leastk_similar /\
    length leastk_similar = 1 /\
    (forall x y, In x leastk_similar -> In y rest -> (snd x <= snd y)%Z).
Proof.
  destruct (@get_leastk_similar_stocks_bottom example_matrix "B"%string 1)
    as (r & rest & E & L & _ & _ & _ & H).
  - reflexivity.
  - repeat constructor; simpl; intuition discriminate.
  - reflexivity.
  - simpl. auto.
  - exists r, rest. auto.
Defined.

(** X7.  For any sort that meets the contract of [sort_values],
    [get_dissimilar_stocks_threshold] returns exactly the tickers other
    than [t] whose correlation to [t] (read in the column of [t]) is at
    most the threshold, sorted ascending by score. *)
Theorem get_dissimilar_stocks_threshold_exact
        (sort_values : bool -> Series -> Series)
        (m : CorrelationMatrix) (t : ticker) (threshold : Z) :
  sorts sort_values ->
  cm_index m = cm_columns m ->
  NoDup (cm_columns m) ->
  square m (length (cm_columns m)) = true ->
  In t (cm_columns m) ->
  exists dissimilar_stocks,
    get_dissimilar_stocks_threshold sort_values m t threshold
    = Ok dissimilar_stocks /\
    (forall u s,
        In (u, s) dissimilar_stocks <->
        u <> t /\ (s <= threshold)%Z /\
        exists i j, nth_error (cm_columns m) i = Some u /\
                    nth_error (cm_columns m) j = Some t /\
                    s = cell m i j) /\
    StronglySorted score_asc dissimilar_stocks.
Proof.
  intros Hsort Hidx Hnd Hsq Ht.
  destruct (column_without m t Hidx Hnd Hsq Ht)
    as (column & others & Ec & Ed & _ & _ & Hin).
  unfold get_dissimilar_stocks_threshold.
  rewrite (proj2 (contains_In _ _) Ht). simpl. rewrite Ec. simpl. rewrite Ed. simpl.
  eexists. split; [reflexivity|].
  destruct (Hsort true (filter (fun e => (snd e <=? threshold)%Z) others))
    as [Hperm Hsorted].
  split; [|exact Hsorted].
  intros u s. split.
  - intro H. apply (Permutation_in _ Hperm) in H.
    apply filter_In in H. destruct H as [H1 H2]. simpl in H2.
    apply Z.leb_le in H2. apply Hin in H1. tauto.
  - intros (Hne & Hs & H).
    apply (Permutation_in _ (Permutation_sym Hperm)).
    apply filter_In. split; [apply Hin; tauto|]. simpl. now apply Z.leb_le.
Qed.

Lemma get_dissimilar_stocks_threshold_exact_witness :
  exists dissimilar_stocks,
    get_dissimilar_stocks_threshold reversing_sort_values tied_matrix
                                    "A"%string 50 = Ok dissimilar_stocks /\
    In ("B"%string, 50%Z) dissimilar_stocks /\
    In ("C"%string, 50%Z) dissimilar_stocks /\
    StronglySorted score_asc dissimilar_stocks.
Proof.
  destruct (@get_dissimilar_stocks_threshold_exact reversing_sort_values
              tied_matrix "A"%string 50)
    as (r & E & Hin & H).
  - exact reversing_sorts.
  - reflexivity.
  - repeat constructor; simpl; intuition discriminate.
  - reflexivity.
  - simpl. auto.
  - exists r. split; [exact E|]. split; [|split; [|exact H]].
    + apply Hin. split; [discriminate|]. split; [lia|].
      exists 1, 0. repeat split.
    + apply Hin. split; [discriminate|]. split; [lia|].
      exists 2, 0. repeat split.
Defined.

(** ** Filtering and sorting commute *)

Section PySortFilter.
Context {A K : Type}.
Variable key : A -> K.
Variable lt : K -> K -> bool.
Variable reverse : bool.
Variable p : A -> bool.
Hypothesis lt_asym : forall a b, lt a b = true -> lt b a = false.
Hypothesis lt_negtrans :
  forall a b c, lt a b = false -> lt b c = false -> lt a c = false.

Lemma sort_insert_front (x : A) (l : list A) :
  (forall z, In z l -> goes_behind key lt reverse x z = false) ->
  sort_insert key lt reverse x l = x :: l.
Proof.
  destruct l as [|y l]; simpl; auto.
  intro H. now rewrite (H y (or_introl eq_refl)).
Qed.

Lemma sort_insert_filter (x : A) (l : list A) :
  StronglySorted (in_order key lt reverse) l ->
  filter p (sort_insert key lt reverse x l)
  = if p x then sort_insert key lt reverse x (filter p l) else filter p l.
Proof.
  induction l as [|y l IH]; intro Hs.
  - simpl. now destruct (p x).
  - inversion Hs as [|? ? Hs' Hall]; subst. rewrite Forall_forall in Hall.
    cbn [sort_insert]. destruct (goes_behind key lt reverse x y) eqn:E.
    + cbn [filter]. rewrite (IH Hs').
      destruct (p x), (p y); cbn [sort_insert]; rewrite ?E; reflexivity.
    + cbn [filter]. destruct (p x); auto.
      symmetry. apply sort_insert_front.
      intros z Hz.
      assert (Hz' : In z (y :: l)).
      { change (filter p (y :: l)) with (if p y then y :: filter p l else filter p l) in Hz.
        destruct (p y); [destruct Hz as [<-|Hz]; [now left|]|];
          right; now apply filter_In in Hz. }
      destruct Hz' as [<-|Hz']; auto.
      apply (@in_order_trans A K key lt reverse lt_negtrans x y z); auto.
Qed.

Lemma py_sorted_filter (l : list A) :
  filter p (py_sorted key lt reverse l) = py_sorted key lt reverse (filter p l).
Proof.
  induction l as [|x l IH]; simpl; auto.
  rewrite sort_insert_filter
    by (apply py_sorted_sorted; [exact lt_asym|exact lt_negtrans]).
  rewrite IH. now destruct (p x).
Qed.
End PySortFilter.

(** A list sorted descending by score splits at any threshold. *)
Lemma sorted_desc_split (threshold : Z) (l : Series) :
  StronglySorted score_desc l ->
  l = filter (fun e => (snd e >=? threshold)%Z) l
      ++ filter (fun e => negb (snd e >=? threshold)%Z) l.
Proof.
  induction 1 as [|x l Hs IH Hall]; simpl; auto.
  destruct (Z.geb_spec (snd x) threshold) as [Hge|Hlt]; simpl.
  - now rewrite <- IH.
  - rewrite Forall_forall in Hall.
    assert (Hnone : forall q, (forall e, In e l -> q e = false) -> filter q l = []).
    { intros q Hq. clear - Hq. induction l as [|e l IH]; simpl; auto.
      rewrite (Hq e) by now left. apply IH. intros; apply Hq; now right. }
    assert (Hlow : forall e, In e l -> (snd e >=? threshold)%Z = false).
    { intros e He. specialize (Hall e He). unfold score_desc in Hall.
      destruct (Z.geb_spec (snd e) threshold); auto. lia. }
    rewrite (Hnone _ Hlow). simpl. f_equal.
    symmetry. apply forallb_filter_id. apply forallb_forall.
    intros e He. now rewrite (Hlow e He).
Qed.

Lemma sorted_asc_split (threshold : Z) (l : Series) :
  StronglySorted score_asc l ->
  l = filter (fun e => (snd e <=? threshold)%Z) l
      ++ filter (fun e => negb (snd e <=? threshold)%Z) l.
Proof.
  induction 1 as [|x l Hs IH Hall]; simpl; auto.
  destruct (Z.leb_spec (snd x) threshold) as [Hle|Hgt]; simpl.
  - now rewrite <- IH.
  - rewrite Forall_forall in Hall.
    assert (Hnone : forall q, (forall e, In e l -> q e = false) -> filter q l = []).
    { intros q Hq. clear - Hq. induction l as [|e l IH]; simpl; auto.
      rewrite (Hq e) by now left. apply IH. intros; apply Hq; now right. }
    assert (Hhigh : forall e, In e l -> (snd e <=? threshold)%Z = false).
    { intros e He. specialize (Hall e He). unfold score_asc in Hall.
      destruct (Z.leb_spec (snd e) threshold); auto. lia. }
    rewrite (Hnone _ Hhigh). simpl. f_equal.
    symmetry. apply forallb_filter_id. apply forallb_forall.
    intros e He. now rewrite (Hhigh e He).
Qed.

(** Two ascending arrangements of the same entries agree when no two
    entries have the same score. *)
Lemma sorted_asc_unique (l l' : Series) :
  NoDup (map snd l') -> Permutation l l' ->
  StronglySorted score_asc l -> StronglySorted score_asc l' -> l = l'.
Proof.
  intros Hnd Hp Hs Hs'. apply (sorted_unique (R := score_asc)); auto.
  intros a b Ha Hb H1 H2. unfold score_asc in *.
  apply (NoDup_map_eq snd l'); auto.
  - now apply (Permutation_in _ Hp).
  - now apply (Permutation_in _ Hp).
  - lia.
Qed.

(** X8.  The threshold queries are the heads of the full rankings, up to
    the order among equal scores (which [sort_values] does not fix): with
    [k] at least the number of other tickers, [get_topk_similar_stocks]
    returns the entries of [get_similar_stocks_threshold] followed by the
    entries below the threshold, and [get_leastk_similar_stocks] returns
    the entries of [get_dissimilar_stocks_threshold] followed by the
    entries above it; when no two entries of a threshold query have the
    same score, its result is that head itself. *)
Theorem threshold_queries_are_prefixes
        (sort_values : bool -> Series -> Series)
        (m : CorrelationMatrix) (t : ticker) (threshold k : Z) :
  sorts sort_values ->
  cm_index m = cm_columns m ->
  NoDup (cm_columns m) ->
  square m (length (cm_columns m)) = true ->
  In t (cm_columns m) ->
  (Z.of_nat (length (cm_columns m)) - 1 <= k)%Z ->
  exists similar head below dissimilar bottom above,
    get_similar_stocks_threshold sort_values m t threshold = Ok similar /\
    get_topk_similar_stocks m t k = Ok (head ++ below) /\
    Permutation head similar /\
    (NoDup (map snd similar) -> head = similar) /\
    (forall e, In e below -> (snd e < threshold)%Z) /\
    get_dissimilar_stocks_threshold sort_values m t threshold = Ok dissimilar /\
    get_leastk_similar_stocks m t k = Ok (bottom ++ above) /\
    Permutation bottom dissimilar /\
    (NoDup (map snd dissimilar) -> bottom = dissimilar) /\
    (forall e, In e above -> (threshold < snd e)%Z).
Proof.
  intros Hsort Hidx Hnd Hsq Ht Hk.
  destruct (column_without m t Hidx Hnd Hsq Ht)
    as (column & others & Ec & Ed & Hlen & _ & _).
  unfold get_similar_stocks_threshold, get_topk_similar_stocks,
    get_dissimilar_stocks_threshold, get_leastk_similar_stocks.
  rewrite (proj2 (contains_In _ _) Ht). simpl. rewrite Ec. simpl. rewrite Ed. simpl.
  unfold nlargest, nsmallest.
  rewrite !firstn_all2 by (rewrite py_sorted_length; lia).
  set (high := fun e : ticker * Z => (snd e >=? threshold)%Z).
  set (low := fun e : ticker * Z => (snd e <=? threshold)%Z).
  destruct (Hsort false (filter high others)) as [Hp1 Hs1].
  destruct (Hsort true (filter low others)) as [Hp2 Hs2].
  assert (Hd : StronglySorted score_desc (py_sorted snd Z.ltb true others))
    by apply sort_by_score_sorted.
  assert (Ha : StronglySorted score_asc (py_sorted snd Z.ltb false others))
    by apply sort_by_score_asc_sorted.
  assert (Hhead : Permutation (filter high (py_sorted snd Z.ltb true others))
                              (sort_values false (filter high others))).
  { rewrite (@py_sorted_filter _ _ snd Z.ltb true high Zltb_asym Zltb_negtrans).
    etransitivity; [apply py_sorted_perm|now apply Permutation_sym]. }
  assert (Hbottom : Permutation (filter low (py_sorted snd Z.ltb false others))
                                (sort_values true (filter low others))).
  { rewrite (@py_sorted_filter _ _ snd Z.ltb false low Zltb_asym Zltb_negtrans).
    etransitivity; [apply py_sorted_perm|now apply Permutation_sym]. }
  exists (sort_values false (filter high others)),
    (filter high (py_sorted snd Z.ltb true others)),
    (filter (fun e => negb (high e)) (py_sorted snd Z.ltb true others)),
    (sort_values true (filter low others)),
    (filter low (py_sorted snd Z.ltb false others)),
    (filter (fun e => negb (low e)) (py_sorted snd Z.ltb false others)).
  split; [reflexivity|]. split; [|split; [exact Hhead|split; [|split]]].
  - f_equal. now apply sorted_desc_split.
  - intro Hties. apply sorted_desc_unique; auto.
    rewrite (sorted_desc_split threshold Hd) in Hd.
    eapply StronglySorted_app_l; exact Hd.
  - intros e He. apply filter_In in He. destruct He as [_ He].
    apply negb_true_iff in He. unfold high in He.
    destruct (Z.geb_spec (snd e) threshold); [discriminate|lia].
  - split; [reflexivity|]. split; [|split; [exact Hbottom|split]].
    + f_equal. now apply sorted_asc_split.
    + intro Hties. apply sorted_asc_unique; auto.
      rewrite (sorted_asc_split threshold Ha) in Ha.
      eapply StronglySorted_app_l; exact Ha.
    + intros e He. apply filter_In in He. destruct He as [_ He].
      apply negb_true_iff in He. unfold low in He.
      destruct (Z.leb_spec (snd e) threshold); [discriminate|lia].
Qed.

Lemma threshold_queries_are_prefixes_witness :
  exists (similar head below : Series),
    get_similar_stocks_threshold reversing_sort_values tied_matrix "A"%string 50
    = Ok similar /\
    get_topk_similar_stocks tied_matrix "A"%string 5 = Ok (head ++ below) /\
    Permutation head similar /\
    (forall e, In e below -> (snd e < 50)%Z).
Proof.
  destruct (@threshold_queries_are_prefixes reversing_sort_values tied_matrix
              "A"%string 50 5)
    as (s & h & b & d & bo & a & H1 & H2 & H3 & _ & H4 & _).
  - exact reversing_sorts.
  - reflexivity.
  - repeat constructor; simpl; intuition discriminate.
  - reflexivity.
  - simpl. auto.
  - simpl. lia.
  - exists s, h, b. auto.
Defined.

(** On the tied matrix the ranking and the threshold query hold the same
    entries in two orders when the sort turns equal scores round. *)
Example threshold_query_tie_order :
  get_topk_similar_stocks tied_matrix "A"%string 5
  = Ok [("B"%string, 50%Z); ("C"%string, 50%Z)] /\
  get_similar_stocks_threshold reversing_sort_values tied_matrix "A"%string 50
  = Ok [("C"%string, 50%Z); ("B"%string, 50%Z)].
Proof. split; reflexivity. Qed.

(** ** [get_top_sharpe_stocks] *)

(** One score is appended per ticker. *)
Lemma sharpe_loop_length {num : Type} {F : FloatOps num}
      (returns_df : DataFrame (option num)) (risk_free_rate : num)
      (annualization_factor : Z) (tickers : list ticker) :
  forall sharpe_ratios scores,
    for_each (sharpe_body returns_df risk_free_rate annualization_factor)
             sharpe_ratios tickers = Ok scores ->
    length scores = length sharpe_ratios + length tickers.
Proof.
  induction tickers as [|t tickers IH]; intros acc scores; simpl.
  - intro E. inversion E. lia.
  - unfold sharpe_body at 1. destruct (getitem returns_df t); simpl; [|discriminate].
    intro E. apply IH in E. rewrite E, length_app. simpl. lia.
Qed.

(** X9.  When [calculate_sharpe_ratios] returns and the scores it computes
    are comparable (none is NaN), for [top_k >= 0]
    [get_top_sharpe_stocks] returns the first [min(top_k, N)] entries of
    [get_sharpe_ranking], and no ticker left out has a score above a
    ticker returned. *)
Theorem get_top_sharpe_stocks_head
        {num : Type} {F : FloatOps num}
        (returns_df : DataFrame (option num)) (ordered_tickers : list ticker)
        (top_k : Z) (risk_free_rate : num) (scores : list num) :
  calculate_sharpe_ratios returns_df ordered_tickers risk_free_rate 252 = Ok scores ->
  comparable f_ltb scores ->
  (0 <= top_k)%Z ->
  exists top rest,
    get_top_sharpe_stocks returns_df ordered_tickers top_k risk_free_rate = Ok top /\
    get_sharpe_ranking returns_df ordered_tickers risk_free_rate = Ok (top ++ rest) /\
    length top = Nat.min (Z.to_nat top_k) (length ordered_tickers) /\
    forall x y, In x top -> In y rest -> f_ltb (snd x) (snd y) = false.
Proof.
  intros E Hc Hk.
  destruct (get_sharpe_ranking_sorted returns_df ordered_tickers risk_free_rate E Hc)
    as (ranking & ER & Hp & Hs).
  assert (Hlen : length scores = length ordered_tickers).
  { unfold calculate_sharpe_ratios in E. simpl in E.
    apply sharpe_loop_length in E. simpl in E. exact E. }
  exists (firstn (Z.to_nat top_k) ranking), (skipn (Z.to_nat top_k) ranking).
  split; [|split; [|split]].
  - unfold get_top_sharpe_stocks. rewrite ER. cbn [bind]. unfold slice_to.
    now replace (0 <=? top_k)%Z with true by (symmetry; now apply Z.leb_le).
  - now rewrite firstn_skipn.
  - rewrite length_firstn, (Permutation_length Hp), length_combine, Hlen. lia.
  - rewrite <- (firstn_skipn (Z.to_nat top_k) ranking) in Hs.
    intros x y Hx Hy.
    apply (@StronglySorted_app_cross _ _ _ _ Hs x y Hx Hy).
Qed.

Lemma get_top_sharpe_stocks_head_witness :
  exists top rest,
    get_top_sharpe_stocks (F := integer_ops) example_sharpe_returns
                          ["B"%string; "A"%string] 1 4%Z = Ok top /\
    get_sharpe_ranking (F := integer_ops) example_sharpe_returns
                       ["B"%string; "A"%string] 4%Z = Ok (top ++ rest) /\
    length top = 1 /\
    forall x y, In x top -> In y rest -> (snd x <? snd y)%Z = false.
Proof.
  destruct (@get_top_sharpe_stocks_head Z integer_ops example_sharpe_returns
              ["B"%string; "A"%string] 1 4%Z [0; 33]%Z)
    as (top & rest & H1 & H2 & H3 & H4).
  - reflexivity.
  - split.
    + intros a b _ _. apply Zltb_asym.
    + intros a b c _ _ _. apply Zltb_negtrans.
  - lia.
  - exists top, rest. auto.
Defined.

(** ** The neighbour lists of [get_similar_stocks] *)

Lemma heappop_root {A : Type} (lt : A -> A -> bool) (h : list A) (x : A) (h' : list A) :
  heappop lt h = Ok (x, h') -> exists t, h = x :: t.
Proof.
  unfold heappop. destruct (list_pop h) as [[lastelt h1]|] eqn:E; simpl; [|discriminate].
  apply list_pop_spec in E. subst h.
  destruct h1 as [|r t]; intro H; inversion H; subst; simpl; eauto.
Qed.

(** One push of a ticker that is not yet visited. *)
Lemma heap_inv_push (heap : list entry) (visited : list ticker) (w : Z) (s : ticker) :
  heap_inv (heap, visited) -> ~ In s visited ->
  heap_inv (heappush tuple_lt heap (w, s), visited ++ [s]).
Proof.
  intros (Hok & Hnd & Hin) Hs. unfold heap_inv. simpl in *.
  pose proof (heappush_perm tuple_lt heap (w, s)) as Hp.
  split; [|split].
  - apply heappush_ok; [exact tuple_lt_asym|exact tuple_lt_negtrans|exact Hok].
  - apply (Permutation_NoDup (Permutation_sym (Permutation_map snd Hp))).
    simpl. constructor; auto.
    intro H. apply Hs. apply in_map_iff in H. destruct H as (e & <- & He). auto.
  - intros e He. apply (Permutation_in _ Hp) in He. apply in_or_app.
    destruct He as [<-|He]; simpl; auto.
Qed.

Lemma push_outgoing_heap_inv (outgoing : dict Z) :
  forall st, heap_inv st -> heap_inv (fold_left push_outgoing outgoing st).
Proof.
  induction outgoing as [|[nb w] outgoing IH]; intros [heap visited] Hinv; simpl; auto.
  apply IH. destruct (contains visited nb) eqn:E; simpl; auto.
  apply heap_inv_push; auto. now apply contains_false.
Qed.

Lemma push_incoming_heap_inv (t : ticker) (g : Graph) :
  forall st, heap_inv st -> heap_inv (fold_left (push_incoming t) g st).
Proof.
  induction g as [|[source nbs] g IH]; intros [heap visited] Hinv; simpl; auto.
  apply IH. destruct (dict_get nbs t); auto.
  destruct (contains visited source) eqn:E; simpl; auto.
  apply heap_inv_push; auto. now apply contains_false.
Qed.

(** The popping loop hands the items out in heap order: strongest first. *)
Lemma pop_loop_sorted (n : Z) (fuel : nat) :
  forall heap similar_stocks l,
    heap_ok tuple_lt heap ->
    NoDup (map s_ticker similar_stocks ++ map snd heap) ->
    StronglySorted strength_desc similar_stocks ->
    (forall s e, In s similar_stocks -> In e heap ->
                 (- fst e <= correlation_strength s)%Z) ->
    pop_loop fuel heap similar_stocks n = Ok l ->
    StronglySorted strength_desc l /\ NoDup (map s_ticker l) /\
    (Z.of_nat (length l) <= Z.max (Z.of_nat (length similar_stocks)) n)%Z.
Proof.
  induction fuel as [|fuel IH]; intros heap sim l Hok Hnd Hs Hc; simpl.
  - intro E. inversion E; subst. repeat split; auto; [|lia].
    eapply NoDup_app_remove_r; eauto.
  - destruct heap as [|e0 heap0].
    { intro E. inversion E; subst. repeat split; auto; [|lia].
      now rewrite app_nil_r in Hnd. }
    destruct (Z.ltb_spec (Z.of_nat (length sim)) n) as [Hlt|Hge].
    2:{ intro E. inversion E; subst. repeat split; auto; [|lia].
        eapply NoDup_app_remove_r; eauto. }
    destruct (heappop tuple_lt (e0 :: heap0)) as [[[nw stock] heap']|] eqn:E;
      simpl; [|discriminate].
    pose proof (heappop_ok tuple_lt_asym tuple_lt_negtrans Hok E) as Hok'.
    destruct (heappop_root _ _ E) as (t0 & Hroot).
    pose proof (heappop_perm _ _ E) as Hp.
    intro El. apply IH in El; auto.
    + destruct El as (H1 & H2 & H3). repeat split; auto.
      rewrite length_app in H3. simpl in H3. lia.
    + rewrite map_app. simpl. rewrite <- app_assoc. simpl.
      eapply Permutation_NoDup; [|exact Hnd].
      apply Permutation_app_head. apply (Permutation_map snd Hp).
    + apply StronglySorted_app; auto.
      * repeat constructor.
      * intros s x Hin [<-|[]]. unfold strength_desc. simpl.
        apply (Hc s (nw, stock)); auto.
        apply (Permutation_in _ (Permutation_sym Hp)). now left.
    + intros s e Hin He.
      assert (He' : In e (e0 :: heap0))
        by (apply (Permutation_in _ (Permutation_sym Hp)); now right).
      apply in_app_iff in Hin. destruct Hin as [Hin|[<-|[]]]; auto.
      simpl. rewrite Hroot in Hok, He'.
      pose proof (heap_top_least tuple_lt_asym tuple_lt_negtrans Hok He') as Hle.
      apply tuple_lt_false_fst in Hle. simpl in Hle. lia.
Qed.

(** What [similar_body] does to the results: one entry is set, to the
    empty list for an unknown ticker and to the popped list otherwise. *)
Lemma similar_body_shape (graph : Graph) (n : Z) (results r' : dict (list Similar))
      (t : ticker) :
  similar_body graph n results t = Ok r' ->
  exists l,
    r' = dict_set results t l /\
    ((dict_get graph t = None /\ l = []) \/
     exists outgoing heap visited,
       dict_get graph t = Some outgoing /\
       fold_left (push_incoming t) graph
                 (fold_left push_outgoing outgoing ([], [t])) = (heap, visited) /\
       pop_loop (length heap) heap [] n = Ok l).
Proof.
  unfold similar_body. destruct (dict_get graph t) as [outgoing|] eqn:Hg.
  - destruct (fold_left (push_incoming t) graph _) as [heap visited] eqn:Hf.
    destruct (pop_loop (length heap) heap [] n) as [l|] eqn:Hp; simpl; [|discriminate].
    intro E. inversion E; subst. exists l. split; auto. right.
    exists outgoing, heap, visited. auto.
  - intro E. inversion E; subst. exists []. auto.
Qed.

(** A property of every list [similar_body] produces holds for every list
    of the result. *)
Lemma get_similar_stocks_each (graph : Graph) (n : Z)
      (P : ticker -> list Similar -> Prop) :
  (forall t results r' l,
      similar_body graph n results t = Ok r' -> r' = dict_set results t l -> P t l) ->
  forall tickers results results',
    (forall t l, dict_get results t = Some l -> P t l) ->
    for_each (similar_body graph n) results tickers = Ok results' ->
    forall t l, dict_get results' t = Some l -> P t l.
Proof.
  intro Hbody. induction tickers as [|x tickers IH]; intros results results' Hres; simpl.
  - intro E. inversion E; subst. exact Hres.
  - destruct (similar_body graph n results x) as [r1|] eqn:E1; simpl; [|discriminate].
    apply IH. intros t l Hl.
    destruct (similar_body_shape _ _ _ _ E1) as (lx & -> & _).
    destruct (string_dec x t) as [->|Hne].
    + rewrite dict_get_set_eq in Hl. inversion Hl; subst. eapply Hbody; eauto.
    + rewrite dict_get_set_neq in Hl by auto. now apply Hres.
Qed.

Lemma dict_set_inj {V : Type} (d : dict V) (k : ticker) (v v' : V) :
  dict_set d k v = dict_set d k v' -> v = v'.
Proof.
  intro H. assert (E : dict_get (dict_set d k v) k = dict_get (dict_set d k v') k)
    by now rewrite H.
  rewrite !dict_get_set_eq in E. now inversion E.
Qed.

(** X10.  Every list [get_similar_stocks] returns is sorted descending by
    correlation strength, names no ticker twice, and has at most [n]
    items. *)
Theorem get_similar_stocks_lists (graph : Graph) (tickers : list ticker) (n : Z) :
  exists results,
    get_similar_stocks graph tickers n = Ok results /\
    forall t l,
      dict_get results t = Some l ->
      StronglySorted strength_desc l /\
      NoDup (map s_ticker l) /\
      (Z.of_nat (length l) <= Z.max 0 n)%Z.
Proof.
  destruct (@get_similar_stocks_loop graph n tickers []) as (results & E & _).
  { intros k l H. discriminate. }
  exists results. split; [exact E|].
  unfold get_similar_stocks in E.
  apply (@get_similar_stocks_each graph n
           (fun _ l => StronglySorted strength_desc l /\ NoDup (map s_ticker l) /\
                       (Z.of_nat (length l) <= Z.max 0 n)%Z)
           ) with (tickers := tickers) (results := []); auto.
  - intros t res r' l Hb Hr.
    destruct (similar_body_shape _ _ _ _ Hb) as (l' & Hr' & Hl).
    rewrite Hr' in Hr. apply dict_set_inj in Hr. subst l'.
    destruct Hl as [[_ ->]|(outgoing & heap & visited & Hg & Hf & Hp)].
    { repeat split; [constructor|constructor|simpl; lia]. }
    assert (Hinv : heap_inv (heap, visited)).
    { rewrite <- Hf. apply push_incoming_heap_inv, push_outgoing_heap_inv.
      repeat split; simpl; [apply heap_ok_nil|constructor|contradiction]. }
    destruct Hinv as (Hok & Hnd & _). simpl in *.
    apply (@pop_loop_sorted n (length heap) heap [] l); auto.
    + constructor.
    + intros s e [].
  - intros t l H. discriminate.
Qed.

(** ** [get_similar_stocks] with room for every neighbour *)

(** What the first pushing loop leaves on the heap and in [visited]. *)
Lemma push_outgoing_content (outgoing : dict Z) :
  forall heap visited heap' visited',
    fold_left push_outgoing outgoing (heap, visited) = (heap', visited') ->
    (forall e, In e heap' <->
               In e heap \/
               (~ In (snd e) visited /\ dict_get outgoing (snd e) = Some (- fst e)%Z)) /\
    (forall v, In v visited' <-> In v visited \/ In v (map fst outgoing)).
Proof.
  induction outgoing as [|[nb w] outgoing IH]; intros heap visited heap' visited'; simpl.
  - intro E. inversion E; subst. split; intro x; intuition discriminate.
  - destruct (contains visited nb) eqn:Hc; simpl; intro E; apply IH in E;
      destruct E as (Hh & Hv).
    + apply contains_In in Hc. split.
      * intro e. rewrite Hh. destruct (String.eqb_spec nb (snd e)) as [Heq|Hne].
        -- subst nb. intuition.
        -- reflexivity.
      * intro v. rewrite Hv. intuition (subst; auto).
    + apply contains_false in Hc. split.
      * intros [nw s]. rewrite Hh. simpl.
        pose proof (heappush_perm tuple_lt heap ((- w)%Z, nb)) as Hp.
        rewrite in_app_iff. simpl.
        destruct (String.eqb_spec nb s) as [Heq|Hne].
        -- subst s. split.
           ++ intros [H|[H _]]; [|tauto].
              apply (Permutation_in _ Hp) in H. destruct H as [H|H]; auto.
              inversion H; subst. right. split; auto. f_equal. lia.
           ++ intros [H|[_ H]].
              ** left. apply (Permutation_in _ (Permutation_sym Hp)). now right.
              ** left. apply (Permutation_in _ (Permutation_sym Hp)). left.
                 inversion H. f_equal. lia.
        -- split.
           ++ intros [H|[H1 H2]]; [|tauto].
              apply (Permutation_in _ Hp) in H. destruct H as [H|H]; auto.
              inversion H; subst. contradiction.
           ++ intros [H|[H1 H2]].
              ** left. apply (Permutation_in _ (Permutation_sym Hp)). now right.
              ** right. split; auto. intros [H|[H|[]]]; auto.
      * intro v. rewrite Hv, in_app_iff. simpl. tauto.
Qed.

(** What the second pushing loop adds to the heap. *)
Lemma push_incoming_content (t : ticker) (g : Graph) :
  NoDup (map fst g) ->
  forall heap visited heap' visited',
    fold_left (push_incoming t) g (heap, visited) = (heap', visited') ->
    forall e, In e heap' <->
              In e heap \/
              (~ In (snd e) visited /\ edge g (snd e) t = Some (- fst e)%Z).
Proof.
  unfold edge.
  induction g as [|[src nbs] g IH]; intros Hnd heap visited heap' visited'; simpl.
  - intro E. inversion E; subst. intro x; intuition discriminate.
  - inversion Hnd as [|? ? Hsrc Hnd']; subst.
    assert (Hnone : dict_get g src = None) by now apply dict_get_none.
    destruct (dict_get nbs t) as [w|] eqn:Hw.
    + destruct (contains visited src) eqn:Hc; simpl; intro E0;
        pose proof (IH Hnd' _ _ _ _ E0) as E; clear E0.
      * apply contains_In in Hc. intro e. rewrite E.
        destruct (String.eqb_spec src (snd e)) as [Heq|Hne].
        -- subst src. intuition.
        -- reflexivity.
      * apply contains_false in Hc. intros [nw s]. rewrite E. simpl.
        pose proof (heappush_perm tuple_lt heap ((- w)%Z, src)) as Hp.
        rewrite in_app_iff. simpl.
        destruct (String.eqb_spec src s) as [Heq|Hne].
        -- subst s. rewrite Hw. split.
           ++ intros [H|[H _]]; [|tauto].
              apply (Permutation_in _ Hp) in H. destruct H as [H|H]; auto.
              inversion H; subst. right. split; auto. f_equal. lia.
           ++ intros [H|[_ H]].
              ** left. apply (Permutation_in _ (Permutation_sym Hp)). now right.
              ** left. apply (Permutation_in _ (Permutation_sym Hp)). left.
                 inversion H. f_equal. lia.
        -- split.
           ++ intros [H|[H1 H2]]; [|tauto].
              apply (Permutation_in _ Hp) in H. destruct H as [H|H]; auto.
              inversion H; subst. contradiction.
           ++ intros [H|[H1 H2]].
              ** left. apply (Permutation_in _ (Permutation_sym Hp)). now right.
              ** right. split; auto. intros [H|[H|[]]]; auto.
    + intro E0. pose proof (IH Hnd' _ _ _ _ E0) as E. clear E0. intro e. rewrite E.
      destruct (String.eqb_spec src (snd e)) as [Heq|Hne].
      * subst src. rewrite Hnone, Hw. intuition discriminate.
      * reflexivity.
Qed.

(** With room for the whole heap the popping loop hands out every item. *)
Lemma pop_loop_all (n : Z) (fuel : nat) :
  forall heap similar_stocks l,
    length heap <= fuel ->
    (Z.of_nat (length similar_stocks + length heap) <= n)%Z ->
    pop_loop fuel heap similar_stocks n = Ok l ->
    Permutation (map similar_entry l) (map similar_entry similar_stocks ++ heap).
Proof.
  induction fuel as [|fuel IH]; intros heap sim l Hf Hn; simpl.
  - destruct heap; [|simpl in Hf; lia]. intro E. inversion E; subst.
    now rewrite app_nil_r.
  - destruct heap as [|e0 heap0].
    { intro E. inversion E; subst. now rewrite app_nil_r. }
    simpl in Hn.
    destruct (Z.ltb_spec (Z.of_nat (length sim)) n) as [Hlt|Hge]; [|lia].
    destruct (heappop tuple_lt (e0 :: heap0)) as [[[nw stock] heap']|] eqn:E;
      simpl; [|discriminate].
    pose proof (heappop_perm _ _ E) as Hp.
    pose proof (Permutation_length Hp) as Hlen. simpl in Hlen, Hf.
    intro El. apply IH in El.
    + rewrite El, map_app. simpl. rewrite <- app_assoc. simpl.
      apply Permutation_app_head. unfold similar_entry at 1. simpl.
      rewrite Z.opp_involutive. now apply Permutation_sym.
    + lia.
    + rewrite length_app. simpl. lia.
Qed.

(** The list [similar_body] stores for [t] when there is room for every
    neighbour. *)
Lemma similar_body_complete (graph : Graph) (n : Z) :
  NoDup (map fst graph) ->
  graph_closed graph ->
  (Z.of_nat (length graph) <= n)%Z ->
  forall t res r' l,
    similar_body graph n res t = Ok r' -> r' = dict_set res t l ->
    forall s w,
      In {| s_ticker := s; correlation_strength := w |} l <->
      s <> t /\ strength_of graph t s = Some w.
Proof.
  intros Hnd Hcl Hn t res r' l Hb Hr.
  destruct (similar_body_shape _ _ _ _ Hb) as (l' & Hr' & Hl).
  rewrite Hr' in Hr. apply dict_set_inj in Hr. subst l'.
  destruct Hl as [[Hg ->]|(outgoing & heap & visited & Hg & Hf & Hp)].
  { intros s w. split; [intros []|]. intros (_ & H). exfalso.
    unfold strength_of, edge in H. rewrite Hg in H.
    destruct (dict_get graph s) as [nbs|] eqn:Hs; [|discriminate].
    apply dict_get_in in Hs.
    assert (Ht : In t (map fst graph)).
    { apply (Hcl s nbs t Hs). apply dict_get_in in H.
      apply in_map_iff. exists (t, w). auto. }
    apply dict_get_in_keys in Ht. destruct Ht as (x & Hx). congruence. }
  destruct (fold_left push_outgoing outgoing ([], [t])) as [heap1 visited1] eqn:Hf1.
  pose proof (push_outgoing_content _ _ _ Hf1) as (Hh1 & Hv1).
  pose proof (@push_incoming_content t graph Hnd _ _ _ _ Hf) as Hh2.
  assert (Hinv : heap_inv (heap, visited)).
  { rewrite <- Hf, <- Hf1. apply push_incoming_heap_inv, push_outgoing_heap_inv.
    repeat split; simpl; [apply heap_ok_nil|constructor|contradiction]. }
  destruct Hinv as (_ & Hnd2 & _). simpl in Hnd2.
  assert (Hcontent : forall nw s,
             In (nw, s) heap <-> s <> t /\ strength_of graph t s = Some (- nw)%Z).
  { intros nw s. rewrite Hh2, Hh1. simpl. rewrite Hv1. simpl.
    assert (Het : edge graph t s = dict_get outgoing s)
      by (unfold edge; now rewrite Hg).
    unfold strength_of. rewrite Het.
    split.
    - intros [[[]|(Hv & Ho)]|(Hv & He)].
      + split; [intro; subst; tauto|]. now rewrite Ho.
      + split; [intro; subst; tauto|].
        destruct (dict_get outgoing s) as [x|] eqn:Hx; auto.
        exfalso. apply Hv. right. apply dict_get_in in Hx.
        apply in_map_iff. exists (s, x). auto.
    - intros (Hne & H). destruct (dict_get outgoing s) as [x|] eqn:Hx.
      + left. right. split; [intros [->|[]]; tauto|]. exact H.
      + right. split; auto. intros [[->|[]]|Hk]; try tauto.
        apply dict_get_in_keys in Hk. destruct Hk as (y & Hy). congruence. }
  assert (Hlen : length heap <= length graph).
  { assert (H : length (map snd heap) <= length (map fst graph));
      [|now rewrite !length_map in H].
    apply NoDup_incl_length; auto.
    intros s Hs. apply in_map_iff in Hs. destruct Hs as ([nw s'] & <- & He).
    apply Hcontent in He. destruct He as (_ & He). simpl.
    unfold strength_of, edge in He. rewrite Hg in He.
    destruct (dict_get outgoing s') as [x|] eqn:Hx.
    - apply (Hcl t outgoing s').
      + now apply dict_get_in.
      + apply dict_get_in in Hx. apply in_map_iff. exists (s', x). auto.
    - destruct (dict_get graph s') as [nbs|] eqn:Hs; [|discriminate].
      apply dict_get_in in Hs. apply in_map_iff. exists (s', nbs). auto. }
  apply pop_loop_all in Hp; [|lia|simpl; lia].
  simpl in Hp. intros s w.
  rewrite <- (Z.opp_involutive w) at 2. rewrite <- Hcontent. split.
  + intro H. apply (Permutation_in _ Hp).
    apply in_map_iff. eexists. split; [|exact H]. reflexivity.
  + intro H. apply (Permutation_in _ (Permutation_sym Hp)) in H.
    apply in_map_iff in H. destruct H as ([s' w'] & Hx & H).
    unfold similar_entry in Hx. simpl in Hx. inversion Hx; subst.
    replace w with w' by lia. exact H.
Qed.

(** X11.  On a graph without repeated nodes whose edges all end at nodes,
    and with [n] at least the number of nodes, the list
    [get_similar_stocks] returns for a ticker [t] holds exactly the tickers
    joined to [t] by an edge in either direction, each with the weight of
    that edge (the edge from [t] when there are both). *)
Theorem get_similar_stocks_complete (graph : Graph) (tickers : list ticker) (n : Z) :
  NoDup (map fst graph) ->
  graph_closed graph ->
  (Z.of_nat (length graph) <= n)%Z ->
  exists results,
    get_similar_stocks graph tickers n = Ok results /\
    forall t l,
      dict_get results t = Some l ->
      forall s w,
        In {| s_ticker := s; correlation_strength := w |} l <->
        s <> t /\ strength_of graph t s = Some w.
Proof.
  intros Hnd Hcl Hn.
  destruct (@get_similar_stocks_loop graph n tickers []) as (results & E & _).
  { intros k l H. discriminate. }
  exists results. split; [exact E|].
  unfold get_similar_stocks in E.
  apply (@get_similar_stocks_each graph n
           (fun t l => forall s w,
                In {| s_ticker := s; correlation_strength := w |} l <->
                s <> t /\ strength_of graph t s = Some w))
    with (tickers := tickers) (results := []); auto.
  - now apply similar_body_complete.
  - intros t l H. discriminate.
Qed.

Lemma get_similar_stocks_complete_witness :
  exists results,
    get_similar_stocks example_graph ["B"%string] 3 = Ok results /\
    forall l, dict_get results "B"%string = Some l ->
              In {| s_ticker := "A"%string; correlation_strength := 90%Z |} l.
Proof.
  destruct (@get_similar_stocks_complete example_graph ["B"%string] 3)
    as (results & E & H).
  - repeat constructor; simpl; intuition discriminate.
  - intros s nb u Hin Hu. simpl in Hin.
    destruct Hin as [Hin|[Hin|[Hin|[]]]]; inversion Hin; subst; simpl in Hu;
      [|contradiction|contradiction].
    destruct Hu as [<-|[]]. simpl. auto.
  - simpl. lia.
  - exists results. split; [exact E|].
    intros l Hl. apply (H _ _ Hl). split; [discriminate|reflexivity].
Defined.

(** ** From the matrix to the neighbour lists *)

(** The edges of a built graph all end at nodes. *)
Lemma build_inv_closed (m : CorrelationMatrix) (tickers : list ticker) (threshold : Z)
      (a b : nat) (g : Graph) :
  NoDup tickers -> build_inv m tickers threshold a b g -> graph_closed g.
Proof.
  intros Hnd (Hkeys & Hedges) s nb u Hin Hu.
  assert (Hs : dict_get g s = Some nb).
  { apply dict_get_unique; auto. now rewrite Hkeys. }
  apply dict_get_in_keys in Hu. destruct Hu as (w & Hw).
  assert (He : edge g s u = Some w) by (unfold edge; now rewrite Hs).
  rewrite Hedges in He. unfold edges_upto in He.
  destruct (index_of s tickers); [|discriminate].
  destruct (index_of u tickers) as [j|] eqn:Hj; [|discriminate].
  rewrite Hkeys. now apply index_of_in in Hj.
Qed.

(** In a graph built from a symmetric matrix the strength between two
    tickers is the absolute correlation of the pair, when that exceeds the
    threshold. *)
Lemma built_graph_strength (m : CorrelationMatrix) (tickers : list ticker)
      (threshold : Z) (g : Graph) (i : nat) (t s : ticker) (w : Z) :
  NoDup tickers -> symmetric m (length tickers) = true ->
  build_inv m tickers threshold (length tickers) 0 g ->
  nth_error tickers i = Some t ->
  (s <> t /\ strength_of g t s = Some w) <->
  exists j, nth_error tickers j = Some s /\ j <> i /\
            w = Z.abs (cell m i j) /\ (threshold < w)%Z.
Proof.
  intros Hnd Hsym (Hkeys & Hedges) Hi.
  assert (Hil : i < length tickers) by (apply nth_error_Some; congruence).
  unfold strength_of. rewrite !Hedges. unfold edges_upto.
  rewrite (index_of_NoDup _ Hnd Hi).
  assert (Hproc : forall a c, a < length tickers ->
                              processed (length tickers) 0 a c = true).
  { intros a c Ha. unfold processed.
    replace (a <? length tickers) with true by (symmetry; now apply Nat.ltb_lt).
    reflexivity. }
  destruct (index_of s tickers) as [j|] eqn:Hj.
  - pose proof (index_of_in _ _ Hj) as (_ & Hjl).
    apply index_of_nth in Hj.
    rewrite !Hproc by auto. simpl.
    rewrite (@symmetric_cell m (length tickers) j i Hsym Hjl Hil).
    assert (Hneq : s <> t <-> j <> i).
    { split; intros H E; apply H.
      - subst j. congruence.
      - subst s. eapply NoDup_nth_error; eauto. congruence. }
    split.
    + intros (Hne & H). exists j. split; auto. split; [tauto|].
      destruct (i <? j); simpl in H.
      * destruct (Z.gtb_spec (Z.abs (cell m i j)) threshold).
        -- injection H as <-. split; [reflexivity|lia].
        -- destruct (j <? i); simpl in H; [|discriminate].
           destruct (Z.gtb_spec (Z.abs (cell m i j)) threshold); [lia|discriminate].
      * destruct (j <? i); simpl in H; [|discriminate].
        destruct (Z.gtb_spec (Z.abs (cell m i j)) threshold); [|discriminate].
        injection H as <-. split; [reflexivity|lia].
    + intros (j' & Hj' & Hne & Hw & Hthr).
      assert (j' = j).
      { eapply NoDup_nth_error; eauto; [|congruence].
        apply nth_error_Some. congruence. }
      subst j'. split; [tauto|].
      destruct (Z.gtb_spec (Z.abs (cell m i j)) threshold); [|lia].
      destruct (Nat.ltb_spec i j); simpl; [congruence|].
      destruct (Nat.ltb_spec j i); simpl; [congruence|lia].
  - split.
    + intros (_ & H). discriminate.
    + intros (j & Hj' & _). apply (index_of_NoDup _ Hnd) in Hj'. congruence.
Qed.

(** X12.  Build the graph from a symmetric correlation matrix over distinct
    tickers and ask [get_similar_stocks] with [n = len(ordered_tickers)]:
    the list of a ticker holds exactly the other tickers whose absolute
    correlation with it exceeds the threshold, each with that absolute
    correlation as strength. *)
Theorem built_graph_similar_stocks (m : CorrelationMatrix) (tickers query : list ticker)
        (threshold : Z) :
  NoDup tickers ->
  square m (length tickers) = true ->
  symmetric m (length tickers) = true ->
  exists g results,
    _build_graph m tickers threshold = Ok g /\
    get_similar_stocks g query (Z.of_nat (length tickers)) = Ok results /\
    forall i t l,
      nth_error tickers i = Some t -> dict_get results t = Some l ->
      forall s w,
        In {| s_ticker := s; correlation_strength := w |} l <->
        exists j, nth_error tickers j = Some s /\ j <> i /\
                  w = Z.abs (cell m i j) /\ (threshold < w)%Z.
Proof.
  intros Hnd Hsq Hsym.
  destruct (@build_graph_inv m tickers threshold Hnd Hsq) as (g & E & Hinv).
  pose proof Hinv as (Hkeys & _).
  destruct (@get_similar_stocks_loop g (Z.of_nat (length tickers)) query [])
    as (results & Er & _).
  { intros k l H. discriminate. }
  exists g, results. split; [exact E|]. split; [exact Er|].
  intros i t l Hi Hl s w.
  rewrite <- (@built_graph_strength m tickers threshold g i t s w Hnd Hsym Hinv Hi).
  unfold get_similar_stocks in Er.
  assert (Hcl : graph_closed g) by (eapply build_inv_closed; eauto).
  assert (Hndg : NoDup (map fst g)) by now rewrite Hkeys.
  assert (Hlen : (Z.of_nat (length g) <= Z.of_nat (length tickers))%Z).
  { rewrite <- Hkeys, length_map. lia. }
  revert s w.
  apply (@get_similar_stocks_each g (Z.of_nat (length tickers))
           (fun t l => forall s w,
                In {| s_ticker := s; correlation_strength := w |} l <->
                s <> t /\ strength_of g t s = Some w))
    with (tickers := query) (results := []) (results' := results); auto.
  - intros t0 res r' l0 Hb Hr.
    exact (@similar_body_complete g (Z.of_nat (length tickers))
             Hndg Hcl Hlen t0 res r' l0 Hb Hr).
  - intros t0 l0 H. discriminate.
Qed.

Lemma built_graph_similar_stocks_witness :
  exists g results,
    _build_graph example_matrix example_tickers 70 = Ok g /\
    get_similar_stocks g ["B"%string] 3 = Ok results /\
    forall l, dict_get results "B"%string = Some l ->
              In {| s_ticker := "A"%string; correlation_strength := 90%Z |} l /\
              ~ In {| s_ticker := "C"%string; correlation_strength := 20%Z |} l.
Proof.
  destruct (@built_graph_similar_stocks example_matrix example_tickers
              ["B"%string] 70) as (g & results & E & Er & H).
  - repeat constructor; simpl; intuition discriminate.
  - reflexivity.
  - reflexivity.
  - exists g, results. split; [exact E|]. split; [exact Er|].
    intros l Hl. split.
    + apply (H 1 "B"%string l eq_refl Hl). exists 0.
      split; [reflexivity|]. split; [discriminate|]. split; [reflexivity|lia].
    + intro Hin. apply (H 1 "B"%string l eq_refl Hl) in Hin.
      destruct Hin as (j & Hj & _ & Hw & Hthr). lia.
Defined.

(** ** [get_common_similar_stocks]: errors and results *)



Lemma NoDup_firstn {A : Type} (k : nat) (l : list A) : NoDup l -> NoDup (firstn k l).
Proof.
  intro H. rewrite <- (firstn_skipn k l) in H. eapply NoDup_app_remove_r; eauto.
Qed.










(** The second case happens: B is a candidate for A and Z. *)
Example get_common_similar_stocks_unknown_example :
  get_common_similar_stocks example_graph example_tickers (fun l => l)
                            ["A"%string; "Z"%string] 10 = Raise KeyError /\
  exists results,
    get_similar_stocks example_graph ["A"%string; "Z"%string] 3 = Ok results.
Proof. split; [reflexivity|eexists; reflexivity]. Qed.








(** ** [get_graph_info] on a built graph *)

Lemma for_each_inv {S X : Type} (P : S -> Prop) (body : S -> X -> result S) :
  (forall s x s', P s -> body s x = Ok s' -> P s') ->
  forall l s s', P s -> for_each body s l = Ok s' -> P s'.
Proof.
  intro Hbody. induction l as [|x l IH]; intros s s' Hs; simpl.
  - intro E. now inversion E; subst.
  - destruct (body s x) as [s1|] eqn:E1; simpl; [|discriminate].
    apply IH. eapply Hbody; eauto.
Qed.

Lemma dict_set_NoDup {V : Type} (d : dict V) (k : ticker) (v : V) :
  NoDup (map fst d) -> NoDup (map fst (dict_set d k v)).
Proof.
  intro H. destruct (in_dec string_dec k (map fst d)) as [Hin|Hin].
  - now rewrite dict_set_keys_present.
  - rewrite dict_set_absent by auto. rewrite map_app. simpl.
    apply NoDup_app; auto.
    + repeat constructor. intros [].
    + intros x Hx [<-|[]]. contradiction.
Qed.

Lemma build_inner_nodup (m : CorrelationMatrix) (threshold : Z) (i : nat)
      (ti : ticker) (g : Graph) (jt : nat * ticker) (g' : Graph) :
  inner_nodup g -> build_inner m threshold i ti g jt = Ok g' -> inner_nodup g'.
Proof.
  intro Hg. destruct jt as [j tj]. unfold build_inner.
  destruct (i <? j); [|intro E; now inversion E; subst].
  destruct (iloc m i j) as [corr|]; simpl; [|discriminate].
  destruct (Z.abs corr >? threshold)%Z; [|intro E; now inversion E; subst].
  unfold dict_getitem. destruct (dict_get g ti) as [nb|] eqn:Hnb; simpl; [|discriminate].
  intro E. inversion E; subst. intros s nb' Hin.
  apply dict_set_in in Hin. destruct Hin as [Hin|Hin]; [eauto|].
  inversion Hin; subst. apply dict_set_NoDup.
  apply dict_get_in in Hnb. eauto.
Qed.

Lemma build_graph_inner_nodup (m : CorrelationMatrix) (tickers : list ticker)
      (threshold : Z) (g : Graph) :
  _build_graph m tickers threshold = Ok g -> inner_nodup g.
Proof.
  unfold _build_graph.
  apply for_each_inv with (P := inner_nodup).
  - intros s [i ti] s' Hs. unfold build_outer.
    apply for_each_inv with (P := inner_nodup); auto.
    intros s0 x s1. apply build_inner_nodup.
  - assert (H : forall acc, inner_nodup acc ->
                            inner_nodup (fold_left (fun g t => dict_set g t [])
                                                   tickers acc)).
    { induction tickers as [|t l IH]; intros acc Hacc; simpl; auto.
      apply IH. intros s nb Hin. apply dict_set_in in Hin.
      destruct Hin as [Hin|Hin]; [eauto|]. inversion Hin; subst. constructor. }
    apply H. intros s nb [].
Qed.

(** A dictionary over known keys is as long as the number of keys it holds. *)
Lemma neighbours_length (nb : dict Z) (tickers : list ticker) :
  NoDup (map fst nb) -> NoDup tickers ->
  (forall u, In u (map fst nb) -> In u tickers) ->
  length nb = length (filter (fun u => is_some (dict_get nb u)) tickers).
Proof.
  intros Hnb Hnd Hin. rewrite <- (length_map fst nb).
  apply Permutation_length. apply NoDup_Permutation; auto.
  - now apply NoDup_filter.
  - intro u. rewrite filter_In. split.
    + intro Hu. split; auto.
      apply dict_get_in_keys in Hu. destruct Hu as (w & ->). reflexivity.
    + intros (_ & Hu). apply dict_get_in_keys.
      destruct (dict_get nb u); [eauto|discriminate].
Qed.

Lemma fold_left_add (l : list nat) (acc : nat) :
  fold_left Nat.add l acc = acc + list_sum l.
Proof.
  revert acc. induction l as [|x l IH]; intro acc; simpl; [lia|].
  rewrite IH. lia.
Qed.

Lemma filter_map_length {A B : Type} (p : B -> bool) (f : A -> B) (l : list A) :
  length (filter p (map f l)) = length (filter (fun x => p (f x)) l).
Proof.
  induction l as [|x l IH]; simpl; auto.
  destruct (p (f x)); simpl; auto.
Qed.

Lemma filter_prod_length {A B : Type} (q : A * B -> bool) (l1 : list A) (l2 : list B) :
  length (filter q (list_prod l1 l2)) =
  list_sum (map (fun i => length (filter (fun j => q (i, j)) l2)) l1).
Proof.
  induction l1 as [|x l1 IH]; simpl; auto.
  rewrite filter_app, length_app, IH. f_equal.
  apply (filter_map_length q (fun y => (x, y)) l2).
Qed.

Lemma map_nth_seq {A : Type} (l : list A) (d : A) :
  map (fun i => nth i l d) (seq 0 (length l)) = l.
Proof.
  induction l as [|x l IH]; simpl; auto.
  f_equal. rewrite <- seq_shift, map_map. exact IH.
Qed.

(** Every edge of a graph with distinct keys is counted once. *)
Lemma edge_count (g : Graph) :
  NoDup (map fst g) -> inner_nodup g -> graph_closed g ->
  map (fun sn => length (snd sn)) g =
  map (fun t => length (filter (fun u => is_some (edge g t u)) (map fst g)))
      (map fst g).
Proof.
  intros Hnd Hin Hcl. rewrite map_map. apply map_ext_in.
  intros [s nb] Hs. simpl.
  assert (Hg : dict_get g s = Some nb) by now apply dict_get_unique.
  rewrite (@neighbours_length nb (map fst g)); eauto.
  f_equal. apply filter_ext. intro u. unfold edge. now rewrite Hg.
Qed.

(** X15.  [get_graph_info] of a graph built from a matrix over distinct
    tickers reports the number of tickers as nodes and, as edges, the
    number of pairs of positions [i < j] whose absolute correlation exceeds
    the threshold: every such pair is one edge, counted once. *)
Theorem built_graph_info (m : CorrelationMatrix) (tickers : list ticker)
        (threshold : Z) :
  NoDup tickers -> square m (length tickers) = true ->
  exists g,
    _build_graph m tickers threshold = Ok g /\
    get_graph_info g tickers threshold =
    (length tickers, length (strong_pairs m (length tickers) threshold), threshold).
Proof.
  intros Hnd Hsq.
  destruct (@build_graph_inv m tickers threshold Hnd Hsq) as (g & E & Hinv).
  pose proof Hinv as (Hkeys & Hedges).
  exists g. split; [exact E|].
  unfold get_graph_info. f_equal. f_equal.
  rewrite fold_left_add. simpl.
  rewrite edge_count.
  - rewrite Hkeys. unfold strong_pairs. rewrite filter_prod_length.
    assert (Hmap : forall F : ticker -> nat,
               map F tickers =
               map (fun i => F (nth i tickers ""%string)) (seq 0 (length tickers)))
      by (intro F; rewrite <- (map_map (fun i => nth i tickers ""%string) F);
          now rewrite map_nth_seq).
    assert (Hfil : forall p : ticker -> bool,
               length (filter p tickers) =
               length (filter (fun j => p (nth j tickers ""%string))
                              (seq 0 (length tickers))))
      by (intro p;
          rewrite <- (filter_map_length p (fun j => nth j tickers ""%string));
          now rewrite map_nth_seq).
    rewrite Hmap. f_equal. apply map_ext_in. intros i Hi.
    apply in_seq in Hi.
    rewrite Hfil. f_equal. apply filter_ext_in. intros j Hj.
    apply in_seq in Hj. simpl.
    rewrite Hedges. unfold edges_upto.
    assert (Hni : nth_error tickers i = Some (nth i tickers ""%string))
      by (apply nth_error_nth'; lia).
    assert (Hnj : nth_error tickers j = Some (nth j tickers ""%string))
      by (apply nth_error_nth'; lia).
    rewrite (index_of_NoDup _ Hnd Hni), (index_of_NoDup _ Hnd Hnj).
    unfold processed.
    replace (i <? length tickers) with true by (symmetry; apply Nat.ltb_lt; lia).
    simpl. destruct ((i <? j) && (Z.abs (cell m i j) >? threshold)%Z); reflexivity.
  - now rewrite Hkeys.
  - eapply build_graph_inner_nodup; eauto.
  - eapply build_inv_closed; eauto.
Qed.

Lemma built_graph_info_witness :
  exists g,
    _build_graph example_matrix example_tickers 70 = Ok g /\
    get_graph_info g example_tickers 70 = (3, 1, 70%Z).
Proof.
  destruct (@built_graph_info example_matrix example_tickers 70) as (g & E & H).
  - repeat constructor; simpl; intuition discriminate.
  - reflexivity.
  - exists g. split; [exact E|exact H].
Defined.

(** ** How [_build_graph] can fail *)

(** A loop whose body either goes on, keeping [P], or raises [e], according
    to a property [Q] of the item. *)
Lemma for_each_outcome {S X : Type} (P : S -> Prop) (Q : X -> Prop) (e : PyError)
      (body : S -> X -> result S) (l : list X) :
  (forall s x, P s -> In x l ->
               (Q x /\ exists s', body s x = Ok s' /\ P s') \/
               (~ Q x /\ body s x = Raise e)) ->
  forall s, P s ->
    ((forall x, In x l -> Q x) /\ exists s', for_each body s l = Ok s' /\ P s') \/
    ((exists x, In x l /\ ~ Q x) /\ for_each body s l = Raise e).
Proof.
  induction l as [|x l IH]; intros Hbody s Hs; simpl.
  - left. split; [intros x []|eauto].
  - destruct (Hbody s x Hs (or_introl eq_refl)) as [(Hq & s1 & E1 & Hs1)|(Hq & E1)];
      rewrite E1; simpl.
    + destruct (IH (fun s0 x0 H0 Hx => Hbody s0 x0 H0 (or_intror Hx)) s1 Hs1)
        as [(Hall & Hok)|((y & Hy & Hqy) & Hr)].
      * left. split; auto. intros y [<-|Hy]; auto.
      * right. split; auto. exists y. auto.
    + right. split; auto. exists x. auto.
Qed.

Lemma in_enumerate {A : Type} (l : list A) (i : nat) (a : A) :
  In (i, a) (enumerate l) <-> nth_error l i = Some a.
Proof.
  unfold enumerate. rewrite in_combine_nth. split.
  - intros (j & Hj & Ha).
    assert (Hlt : j < length (seq 0 (length l))) by (apply nth_error_Some; congruence).
    rewrite length_seq in Hlt.
    rewrite (nth_error_nth' _ 0) in Hj by now rewrite length_seq.
    rewrite seq_nth in Hj by auto. simpl in Hj. now inversion Hj; subst.
  - intro Ha. exists i. split; auto.
    assert (Hlt : i < length l) by (apply nth_error_Some; congruence).
    rewrite (nth_error_nth' _ 0) by now rewrite length_seq.
    now rewrite seq_nth.
Qed.

Lemma dict_set_keys_in {V : Type} (d : dict V) (k k' : ticker) (v : V) :
  In k' (map fst d) \/ k' = k -> In k' (map fst (dict_set d k v)).
Proof.
  intro H. destruct (in_dec string_dec k (map fst d)) as [Hin|Hin].
  - rewrite dict_set_keys_present by auto. destruct H; [assumption|now subst].
  - rewrite dict_set_absent, map_app by auto. apply in_or_app. simpl.
    destruct H; auto.
Qed.

Lemma iloc_cases (m : CorrelationMatrix) (i j : nat) :
  (exists v, iloc m i j = Ok v) \/ iloc m i j = Raise IndexError.
Proof.
  unfold iloc. destruct (nth_error (cm_values m) i) as [row|]; auto.
  destruct (nth_error row j); eauto.
Qed.

(** X16.  [_build_graph] never raises [KeyError], whatever the tickers and
    the matrix: it returns a graph when the matrix has a cell at every
    pair of positions [i < j] of the tickers, and raises [IndexError]
    when one of these cells is missing. *)
Theorem build_graph_outcome (m : CorrelationMatrix) (tickers : list ticker)
        (threshold : Z) :
  ((forall i j, i < j < length tickers -> exists v, iloc m i j = Ok v) /\
   exists g, _build_graph m tickers threshold = Ok g) \/
  ((exists i j, i < j < length tickers /\ iloc m i j = Raise IndexError) /\
   _build_graph m tickers threshold = Raise IndexError).
Proof.
  set (P := fun g : Graph => forall t, In t tickers -> In t (map fst g)).
  set (Qin := fun (i : nat) (jt : nat * ticker) =>
                i < fst jt -> exists v, iloc m i (fst jt) = Ok v).
  set (Qout := fun it : nat * ticker =>
                 forall jt, In jt (enumerate tickers) -> Qin (fst it) jt).
  assert (Hinner : forall i ti g jt,
             In ti tickers -> P g ->
             (Qin i jt /\ exists g', build_inner m threshold i ti g jt = Ok g' /\ P g') \/
             (~ Qin i jt /\ build_inner m threshold i ti g jt = Raise IndexError)).
  { intros i ti g [j tj] Hti Hg. unfold Qin, build_inner. simpl.
    destruct (Nat.ltb_spec i j) as [Hlt|Hge].
    2:{ left. split; [lia|eauto]. }
    destruct (iloc_cases m i j) as [(v & Ev)|Ev]; rewrite Ev; simpl.
    - left. split; [eauto|].
      destruct (Z.abs v >? threshold)%Z; [|eauto].
      unfold dict_getitem.
      destruct (proj1 (dict_get_in_keys g ti) (Hg ti Hti)) as (nb & ->). simpl.
      eexists. split; [reflexivity|].
      intros t Ht. apply dict_set_keys_in. left. now apply Hg.
    - right. split; auto. intro H. destruct (H Hlt) as (v & Hv). discriminate. }
  assert (Houter : forall g it,
             P g -> In it (enumerate tickers) ->
             (Qout it /\ exists g', build_outer m tickers threshold g it = Ok g' /\ P g') \/
             (~ Qout it /\ build_outer m tickers threshold g it = Raise IndexError)).
  { intros g [i ti] Hg Hit. apply in_enumerate in Hit.
    assert (Hti : In ti tickers) by (eapply nth_error_In; eauto).
    unfold build_outer.
    destruct (@for_each_outcome _ _ P (Qin i) IndexError
                (build_inner m threshold i ti) (enumerate tickers)
                (fun s x Hs _ => Hinner i ti s x Hti Hs) g Hg)
      as [(Hall & Hok)|((y & Hy & Hqy) & Hr)].
    - left. split; auto.
    - right. split; [|exact Hr]. intro H. apply Hqy. now apply H. }
  assert (Hinit : P (fold_left (fun g t => dict_set g t []) tickers [])).
  { assert (H : forall (l : list ticker) (acc : Graph) (t : ticker),
               In t (map fst acc) \/ In t l ->
               In t (map fst (fold_left (fun g t => dict_set g t []) l acc))).
    { induction l as [|x l IH]; intros acc t Ht; simpl.
      - destruct Ht as [Ht|[]]; auto.
      - apply IH. destruct Ht as [Ht|[<-|Ht]]; auto;
          left; apply dict_set_keys_in; auto. }
    intros t Ht. apply H. now right. }
  unfold _build_graph.
  destruct (@for_each_outcome _ _ P Qout IndexError
              (build_outer m tickers threshold) (enumerate tickers)
              Houter _ Hinit)
    as [(Hall & g & E & _)|(([i ti] & Hit & Hq) & Hr)].
  - left. split; [|eauto]. intros i j Hij.
    destruct (nth_error tickers i) as [ti|] eqn:Hi;
      [|apply nth_error_None in Hi; lia].
    destruct (nth_error tickers j) as [tj|] eqn:Hj;
      [|apply nth_error_None in Hj; lia].
    apply in_enumerate in Hi. apply in_enumerate in Hj.
    apply (Hall (i, ti) Hi (j, tj) Hj). simpl. lia.
  - right. split; auto.
    destruct (nth_error tickers i) as [ti'|] eqn:Hi.
    2:{ apply in_enumerate in Hit. congruence. }
    assert (Hlt : i < length tickers) by (apply nth_error_Some; congruence).
    clear Hr.
    assert (Hex : exists j, j < length tickers /\ i < j /\
                            iloc m i j = Raise IndexError).
    { unfold Qout in Hq. simpl in Hq.
      assert (Hdec : forall l : list (nat * ticker),
                 (forall jt, In jt l -> Qin i jt) \/
                 exists jt, In jt l /\ i < fst jt /\
                            iloc m i (fst jt) = Raise IndexError).
      { induction l as [|[j tj] l IH].
        - left. intros jt [].
        - destruct IH as [IH|(jt & Hjt & H)].
          + destruct (Nat.ltb_spec i j) as [Hij|Hij].
            * destruct (iloc_cases m i j) as [(v & Ev)|Ev].
              -- left. intros jt [<-|Hjt]; auto. unfold Qin. simpl. eauto.
              -- right. exists (j, tj). simpl. auto.
            * left. intros jt [<-|Hjt]; auto. unfold Qin. simpl. lia.
          + right. exists jt. simpl. auto. }
      destruct (Hdec (enumerate tickers)) as [Hall|([j tj] & Hjt & Hij & Ej)].
      - contradiction.
      - apply in_enumerate in Hjt. simpl in *. exists j.
        split; [apply nth_error_Some; congruence|auto]. }
    destruct Hex as (j & Hj & Hij & Ej). exists i, j. split; [lia|exact Ej].
Qed.

(** ** [CompanyDataManager._load_data] *)

Lemma set_if_notna_get {V : Type} (d : dict V) (t0 t : ticker) (o : option V) :
  dict_get (set_if_notna d t0 o) t =
  match (if String.eqb t0 t then o else None) with
  | Some v => Some v
  | None => dict_get d t
  end.
Proof.
  unfold set_if_notna. destruct o as [v|].
  - destruct (String.eqb_spec t0 t) as [->|Hne].
    + apply dict_get_set_eq.
    + now apply dict_get_set_neq.
  - now destruct (String.eqb t0 t).
Qed.

Lemma last_value_snoc {V : Type} (f : CompanyRow -> option V) (pre : list CompanyRow)
      (r : CompanyRow) (t : ticker) :
  last_value f (pre ++ [r]) t =
  match (if String.eqb (r_ticker r) t then f r else None) with
  | Some v => Some v
  | None => last_value f pre t
  end.
Proof.
  induction pre as [|r0 pre IH]; simpl.
  - now destruct (if String.eqb (r_ticker r) t then f r else None).
  - rewrite IH. now destruct (if String.eqb (r_ticker r) t then f r else None).
Qed.

Lemma tickers_of_sector_snoc (pre : list CompanyRow) (r : CompanyRow) (s : string) :
  tickers_of_sector (pre ++ [r]) s =
  tickers_of_sector pre s ++
  match r_sector r with
  | Some s' => if String.eqb s' s then [r_ticker r] else []
  | None => []
  end.
Proof.
  unfold tickers_of_sector. rewrite filter_app, map_app. f_equal. simpl.
  destruct (r_sector r) as [s'|]; auto. now destruct (String.eqb s' s).
Qed.

(** Appending to the list of a sector never fails. *)
Lemma add_to_sector_spec (d : dict (list ticker)) (sector : string) (t : ticker) :
  exists d',
    add_to_sector d sector t = Ok d' /\
    forall s,
      dict_get d' s =
      if String.eqb sector s
      then Some (match dict_get d sector with Some l => l | None => [] end ++ [t])
      else dict_get d s.
Proof.
  unfold add_to_sector, dict_in, dict_getitem.
  destruct (dict_get d sector) as [l|] eqn:Hd; simpl.
  - rewrite Hd. simpl. eexists. split; [reflexivity|].
    intro s. destruct (String.eqb_spec sector s) as [->|Hne].
    + apply dict_get_set_eq.
    + now apply dict_get_set_neq.
  - rewrite dict_get_set_eq. simpl. eexists. split; [reflexivity|].
    intro s. destruct (String.eqb_spec sector s) as [->|Hne].
    + apply dict_get_set_eq.
    + now rewrite !dict_get_set_neq.
Qed.

Lemma load_row_inv (pre : list CompanyRow) (st : CompanyData) (r : CompanyRow) :
  load_inv pre st ->
  exists st', load_row st r = Ok st' /\ load_inv (pre ++ [r]) st'.
Proof.
  intros (Hsec & Hts & Hmc & Hnd). unfold load_row.
  assert (Hs : exists sectors,
             match r_sector r with
             | Some sector => add_to_sector (sector_tickers_dict st) sector (r_ticker r)
             | None => Ok (sector_tickers_dict st)
             end = Ok sectors /\
             forall s, dict_get sectors s = sector_group (pre ++ [r]) s).
  { destruct (r_sector r) as [sector|] eqn:Hr.
    - destruct (add_to_sector_spec (sector_tickers_dict st) sector (r_ticker r))
        as (d' & E & Hd').
      exists d'. split; [exact E|]. intro s. rewrite Hd'.
      unfold sector_group. rewrite tickers_of_sector_snoc, Hr.
      destruct (String.eqb_spec sector s) as [->|Hne].
      + rewrite Hsec. unfold sector_group.
        destruct (tickers_of_sector pre s); reflexivity.
      + rewrite app_nil_r. apply Hsec.
    - exists (sector_tickers_dict st). split; auto. intro s.
      unfold sector_group. rewrite tickers_of_sector_snoc, Hr, app_nil_r.
      apply Hsec. }
  destruct Hs as (sectors & -> & Hsectors). simpl.
  eexists. split; [reflexivity|]. unfold load_inv. simpl.
  split; [exact Hsectors|]. split; [|split].
  - intro t. now rewrite set_if_notna_get, last_value_snoc, Hts.
  - intro t. now rewrite set_if_notna_get, last_value_snoc, Hmc.
  - unfold set_if_notna. destruct (r_market_cap r); auto. now apply dict_set_NoDup.
Qed.

Lemma load_loop_inv (rest : list CompanyRow) :
  forall pre st,
    load_inv pre st ->
    exists st', for_each load_row st rest = Ok st' /\ load_inv (pre ++ rest) st'.
Proof.
  induction rest as [|r rest IH]; intros pre st Hinv; simpl.
  - exists st. now rewrite app_nil_r.
  - destruct (load_row_inv r Hinv) as (st1 & -> & Hinv1). simpl.
    destruct (IH _ _ Hinv1) as (st' & E & Hinv').
    exists st'. split; auto. now rewrite <- app_assoc in Hinv'.
Qed.

(** [_load_data] never fails on a frame that was read, and the loop keeps
    its invariant up to the last row. *)
Lemma load_data_inv (df : list CompanyRow) (asset_prices : option (list string)) :
  exists st,
    _load_data df asset_prices = Ok st /\
    load_inv df st /\
    ordered_tickers st =
    match asset_prices with
    | Some sample_columns =>
        filter (fun col => negb (String.eqb col "date")) sample_columns
    | None =>
        py_sorted (market_cap_or_zero (market_cap_dict st)) Z.ltb true
                  (map fst (market_cap_dict st))
    end.
Proof.
  unfold _load_data.
  destruct (@load_loop_inv df [] empty_company_data) as (st & -> & Hinv).
  { repeat split; simpl; auto. constructor. }
  simpl. eexists. split; [reflexivity|]. split; [exact Hinv|reflexivity].
Qed.

(** With one row per ticker the last value is the value of that row. *)
Lemma last_value_unique {V : Type} (f : CompanyRow -> option V) (df : list CompanyRow)
      (t : ticker) (v : V) :
  NoDup (map r_ticker df) ->
  (last_value f df t = Some v <->
   exists r, In r df /\ r_ticker r = t /\ f r = Some v).
Proof.
  revert v. induction df as [|r0 df IH]; simpl; intros v Hnd.
  - split; [discriminate|]. intros (r & [] & _).
  - inversion Hnd as [|? ? Hr0 Hnd']; subst.
    pose proof (fun v => IH v Hnd') as IH'. clear IH.
    destruct (last_value f df t) as [v'|].
    + split.
      * intro E. apply IH' in E. destruct E as (r & Hr & H). exists r. auto.
      * intros (r & [<-|Hr] & Ht & Hf).
        -- exfalso. destruct (proj1 (IH' v') eq_refl) as (r' & Hr' & Ht' & _).
           apply Hr0. rewrite Ht, <- Ht'. now apply in_map.
        -- apply IH'. eauto.
    + destruct (String.eqb_spec (r_ticker r0) t) as [E|Hne].
      * split; [intro H; exists r0; auto|].
        intros (r & [<-|Hr] & Ht & Hf); auto.
        exfalso. apply Hr0. rewrite E, <- Ht. now apply in_map.
      * split; [discriminate|].
        intros (r & [<-|Hr] & Ht & Hf); [contradiction|].
        apply IH'. eauto.
Qed.

(** X17.  [_load_data] never fails on a frame that was read, and
    [sector_tickers_dict] groups the tickers by sector: the entry of a
    sector lists the tickers of the rows of that sector in row order, and
    a sector without rows has no entry. *)
Theorem load_data_sector_groups (df : list CompanyRow)
        (asset_prices : option (list string)) :
  exists st,
    _load_data df asset_prices = Ok st /\
    forall s, dict_get (sector_tickers_dict st) s = sector_group df s.
Proof.
  destruct (load_data_inv df asset_prices) as (st & E & (Hsec & _) & _).
  exists st. auto.
Qed.

Lemma sector_group_in (df : list CompanyRow) (s : string) (t : ticker) :
  (exists l, sector_group df s = Some l /\ In t l) <-> In t (tickers_of_sector df s).
Proof.
  unfold sector_group. destruct (tickers_of_sector df s) as [|x l]; split.
  - intros (l & H & _). discriminate.
  - intros [].
  - intros (l' & H & Hin). now inversion H; subst.
  - intro H. eauto.
Qed.

(** X18.  With one row per ticker the two sector indexes agree: a ticker
    is listed under a sector in [sector_tickers_dict] exactly when
    [ticker_sector_dict] maps it to that sector. *)
Theorem load_data_sector_indexes (df : list CompanyRow)
        (asset_prices : option (list string)) :
  NoDup (map r_ticker df) ->
  exists st,
    _load_data df asset_prices = Ok st /\
    forall t s,
      (exists l, dict_get (sector_tickers_dict st) s = Some l /\ In t l) <->
      dict_get (ticker_sector_dict st) t = Some s.
Proof.
  intro Hnd.
  destruct (load_data_inv df asset_prices) as (st & E & (Hsec & Hts & _) & _).
  exists st. split; [exact E|]. intros t s.
  rewrite Hts, (last_value_unique r_sector df t s Hnd), Hsec, sector_group_in.
  unfold tickers_of_sector. rewrite in_map_iff. split.
  - intros (r & Ht & Hr).
    apply filter_In in Hr. destruct Hr as (Hr & Hs).
    exists r. repeat split; auto.
    destruct (r_sector r) as [s'|]; [|discriminate].
    apply String.eqb_eq in Hs. now subst.
  - intros (r & Hr & Ht & Hs).
    exists r. split; auto. apply filter_In. split; auto.
    rewrite Hs. apply String.eqb_refl.
Qed.

Lemma load_data_sector_indexes_witness :
  exists st,
    _load_data example_company_info None = Ok st /\
    ((exists l, dict_get (sector_tickers_dict st) "Tech"%string = Some l /\
                In "C"%string l) <->
     dict_get (ticker_sector_dict st) "C"%string = Some "Tech"%string).
Proof.
  destruct (@load_data_sector_indexes example_company_info None) as (st & E & H).
  - repeat constructor; simpl; intuition discriminate.
  - exists st. split; [exact E|apply H].
Defined.

(** A ticker has a value when some row of it has one. *)
Lemma last_value_some {V : Type} (f : CompanyRow -> option V) (df : list CompanyRow)
      (t : ticker) :
  last_value f df t <> None <->
  exists r, In r df /\ r_ticker r = t /\ f r <> None.
Proof.
  induction df as [|r0 df IH]; simpl.
  - split; [congruence|]. intros (r & [] & _).
  - destruct (last_value f df t) as [v|].
    + split; [|discriminate]. intros _.
      destruct (proj1 IH) as (r & Hr & H); [discriminate|]. exists r. auto.
    + destruct (String.eqb_spec (r_ticker r0) t) as [E|Hne].
      * split.
        -- intro H. exists r0. auto.
        -- intros (r & [<-|Hr] & Ht & Hf); auto.
           exfalso. apply (proj2 IH); eauto.
      * split; [congruence|].
        intros (r & [<-|Hr] & Ht & Hf); [contradiction|].
        exfalso. apply (proj2 IH); eauto.
Qed.

(** X19.  When the columns of [asset_prices] cannot be read, the ordered
    tickers are the tickers that have a market cap in some row, each once,
    sorted descending by the market cap stored for them. *)
Theorem load_data_fallback_order (df : list CompanyRow) :
  exists st,
    _load_data df None = Ok st /\
    NoDup (ordered_tickers st) /\
    (forall t, In t (ordered_tickers st) <->
               exists r, In r df /\ r_ticker r = t /\ r_market_cap r <> None) /\
    StronglySorted (market_cap_desc (market_cap_dict st)) (ordered_tickers st).
Proof.
  destruct (load_data_inv df None) as (st & E & (_ & _ & Hmc & Hnd) & Ho).
  exists st. split; [exact E|]. rewrite Ho.
  set (keys := map fst (market_cap_dict st)).
  pose proof (py_sorted_perm (market_cap_or_zero (market_cap_dict st)) Z.ltb true keys)
    as Hp.
  split; [|split].
  - apply (Permutation_NoDup (Permutation_sym Hp)). exact Hnd.
  - intro t. rewrite <- (last_value_some r_market_cap df t), <- Hmc.
    split.
    + intro Hin. apply (Permutation_in _ Hp) in Hin.
      apply dict_get_in_keys in Hin. destruct Hin as (c & Hc). congruence.
    + intro Hsome. apply (Permutation_in _ (Permutation_sym Hp)).
      apply dict_get_in_keys.
      destruct (dict_get (market_cap_dict st) t) as [c|]; [eauto|congruence].
  - pose proof (@py_sorted_sorted _ _ (market_cap_or_zero (market_cap_dict st))
                  Z.ltb true Zltb_asym Zltb_negtrans keys) as H.
    eapply StronglySorted_map with (f := fun x => x) in H.
    + rewrite map_id in H. exact H.
    + intros a b Hab. unfold in_order, goes_behind in Hab.
      unfold market_cap_desc. apply Z.ltb_ge in Hab. exact Hab.
Qed.

(** ** [NetworkVisualizer._build_connected_graph] *)

Lemma set_add_in (s : list ticker) (x u : ticker) :
  In u (set_add s x) <-> In u s \/ u = x.
Proof.
  unfold set_add. destruct (contains s x) eqn:E.
  - apply contains_In in E. split; auto. intros [H| ->]; auto.
  - rewrite in_app_iff. simpl. intuition.
Qed.

Lemma fold_set_add_in (l : list ticker) :
  forall s u, In u (fold_left set_add l s) <-> In u s \/ In u l.
Proof.
  induction l as [|x l IH]; intros s u; simpl; [tauto|].
  rewrite IH, set_add_in. intuition.
Qed.

Lemma has_edge_cons (s : ticker) (targets : dict Z) (g : Graph) (u : ticker) :
  has_edge ((s, targets) :: g) u <->
  (targets <> [] /\ (u = s \/ In u (map fst targets))) \/ has_edge g u.
Proof.
  unfold has_edge. split.
  - intros (s' & t' & [E|Hin] & H).
    + inversion E; subst. auto.
    + right. eauto.
  - intros [H|(s' & t' & Hin & H)].
    + exists s, targets. simpl. auto.
    + exists s', t'. simpl. auto.
Qed.

(** The first loop marks exactly the tickers that have an edge. *)
Lemma mark_connected_in (g : Graph) :
  forall acc u, In u (fold_left mark_connected g acc) <-> In u acc \/ has_edge g u.
Proof.
  induction g as [|[s targets] g IH]; intros acc u; simpl.
  - split; auto. intros [H|(s & t & [] & _)]; auto.
  - rewrite IH, has_edge_cons. destruct targets as [|tw targets].
    + intuition congruence.
    + rewrite fold_set_add_in, set_add_in.
      assert (tw :: targets <> []) by discriminate. intuition.
Qed.

Lemma dict_in_keys {V : Type} (d : dict V) (k : ticker) :
  dict_in k d = true <-> In k (map fst d).
Proof.
  unfold dict_in. rewrite dict_get_in_keys.
  destruct (dict_get d k); split; eauto; try discriminate.
  intros (v & H). discriminate.
Qed.

Lemma add_node_keys (G : DiGraph) (x u : ticker) :
  In u (map fst (add_node G x)) <-> In u (map fst G) \/ u = x.
Proof.
  unfold add_node. destruct (dict_in x G) eqn:E; simpl.
  - apply dict_in_keys in E. split; auto. intros [H| ->]; auto.
  - assert (Hx : ~ In x (map fst G)).
    { intro H. apply dict_in_keys in H. congruence. }
    rewrite dict_set_absent, map_app, in_app_iff by auto. simpl. intuition.
Qed.

Lemma add_node_edge (G : DiGraph) (x s t : ticker) :
  edge (add_node G x) s t = edge G s t.
Proof.
  unfold add_node. destruct (dict_in x G) eqn:E; simpl; auto.
  unfold edge. destruct (String.eqb_spec x s) as [->|Hne].
  - rewrite dict_get_set_eq. unfold dict_in in E.
    destruct (dict_get G s); [discriminate|reflexivity].
  - now rewrite dict_get_set_neq.
Qed.

Lemma add_edge_edge (G : DiGraph) (u v : ticker) (w : Z) (s t : ticker) :
  edge (add_edge G u v w) s t =
  if String.eqb s u && String.eqb t v then Some w else edge G s t.
Proof.
  unfold add_edge. set (G' := add_node (add_node G u) v).
  assert (Hu : In u (map fst G')).
  { unfold G'. rewrite !add_node_keys. auto. }
  apply dict_get_in_keys in Hu. destruct Hu as (adj & Hadj).
  unfold successors. rewrite Hadj.
  rewrite (@edge_update G' u v w adj Hadj).
  unfold G'. now rewrite !add_node_edge.
Qed.

Lemma add_edge_keys (G : DiGraph) (u v : ticker) (w : Z) (x : ticker) :
  In x (map fst (add_edge G u v w)) <-> In x (map fst G) \/ x = u \/ x = v.
Proof.
  unfold add_edge. set (G' := add_node (add_node G u) v).
  assert (Hu : In u (map fst G')).
  { unfold G'. rewrite !add_node_keys. auto. }
  rewrite dict_set_keys_present by auto.
  unfold G'. rewrite !add_node_keys. tauto.
Qed.

(** The inner loop over targets that are all connected. *)
Lemma link_targets_edge (c : list ticker) (source : ticker) (targets : dict Z) :
  NoDup (map fst targets) ->
  (forall x, In x (map fst targets) -> In x c) ->
  forall G s t,
    edge (fold_left (link_target c source) targets G) s t =
    if String.eqb s source
    then match dict_get targets t with
         | Some w => Some w
         | None => edge G s t
         end
    else edge G s t.
Proof.
  induction targets as [|[v w] targets IH]; intros Hnd Hc G s t; simpl.
  - now destruct (String.eqb s source).
  - inversion Hnd as [|? ? Hv Hnd']; subst.
    rewrite (proj2 (contains_In c v)) by (apply Hc; now left).
    rewrite IH by (auto; intros; apply Hc; now right).
    rewrite add_edge_edge.
    destruct (String.eqb s source); simpl; auto.
    destruct (String.eqb_spec v t) as [->|Hne].
    + rewrite (proj2 (dict_get_none targets t) Hv).
      now rewrite String.eqb_refl.
    + destruct (String.eqb_spec t v) as [->|_]; [congruence|reflexivity].
Qed.

Lemma link_targets_keys (c : list ticker) (source : ticker) (targets : dict Z) :
  (forall x, In x (map fst targets) -> In x c) ->
  forall G u,
    In u (map fst (fold_left (link_target c source) targets G)) <->
    In u (map fst G) \/ (targets <> [] /\ (u = source \/ In u (map fst targets))).
Proof.
  induction targets as [|[v w] targets IH]; intros Hc G u; simpl.
  - intuition congruence.
  - rewrite (proj2 (contains_In c v)) by (apply Hc; now left).
    rewrite IH by (intros; apply Hc; now right).
    rewrite add_edge_keys.
    assert ((v, w) :: targets <> []) by discriminate.
    intuition (subst; auto).
Qed.

(** On the sources of the graph the membership tests always succeed. *)
Lemma link_source_all (c : list ticker) (G : DiGraph) (source : ticker)
      (targets : dict Z) :
  (targets <> [] -> In source c) ->
  link_source c G (source, targets) = fold_left (link_target c source) targets G.
Proof.
  intro H. unfold link_source. destruct targets as [|tw targets].
  - simpl. now destruct (contains c source).
  - now rewrite (proj2 (contains_In c source)) by (apply H; discriminate).
Qed.

Lemma link_sources_edge (c : list ticker) (g : Graph) :
  NoDup (map fst g) -> inner_nodup g ->
  (forall u, has_edge g u -> In u c) ->
  forall G s t,
    edge (fold_left (link_source c) g G) s t =
    match dict_get g s with
    | Some targets =>
        match dict_get targets t with
        | Some w => Some w
        | None => edge G s t
        end
    | None => edge G s t
    end.
Proof.
  induction g as [|[source targets] g IH]; intros Hnd Hin Hc G s t; auto.
  inversion Hnd as [|? ? Hs Hnd']; subst.
  assert (Hc' : forall u, has_edge g u -> In u c).
  { intros u Hu. apply Hc. apply has_edge_cons. now right. }
  assert (Hin' : inner_nodup g).
  { intros s' nb H. apply (Hin s' nb). now right. }
  cbn [fold_left].
  rewrite link_source_all
    by (intro H; apply Hc; apply has_edge_cons; left; auto).
  rewrite (IH Hnd' Hin' Hc').
  assert (Htargets : forall x, In x (map fst targets) -> In x c).
  { intros x Hx. apply Hc. apply has_edge_cons. left. split; auto.
    intro E. subst. contradiction. }
  rewrite !(@link_targets_edge c source targets
              (Hin source targets (or_introl eq_refl)) Htargets).
  simpl. destruct (String.eqb_spec source s) as [->|Hne].
  - rewrite (proj2 (dict_get_none g s) Hs). now rewrite String.eqb_refl.
  - destruct (String.eqb_spec s source) as [->|_]; [congruence|reflexivity].
Qed.

Lemma link_sources_keys (c : list ticker) (g : Graph) :
  (forall u, has_edge g u -> In u c) ->
  forall G u,
    In u (map fst (fold_left (link_source c) g G)) <->
    In u (map fst G) \/ has_edge g u.
Proof.
  induction g as [|[source targets] g IH]; intros Hc G u.
  - simpl. split; auto. intros [H|(s & t & [] & _)]; auto.
  - assert (Hc' : forall u, has_edge g u -> In u c).
    { intros x Hx. apply Hc. apply has_edge_cons. now right. }
    cbn [fold_left].
    rewrite link_source_all
      by (intro H; apply Hc; apply has_edge_cons; left; auto).
    rewrite (IH Hc'), has_edge_cons, link_targets_keys; [tauto|].
    intros x Hx. apply Hc. apply has_edge_cons. left. split; auto.
    intro E. subst. contradiction.
Qed.

(** In a graph without repeated nodes, the tickers with an edge are those
    that have a neighbour. *)
Lemma has_edge_neighbour (g : Graph) (u : ticker) :
  NoDup (map fst g) ->
  (has_edge g u <-> exists v, neighbour g u v).
Proof.
  intro Hnd. unfold has_edge, neighbour, edge. split.
  - intros (s & targets & Hin & Hne & Hu).
    pose proof (@dict_get_unique _ g s targets Hnd Hin) as Hs.
    destruct Hu as [->|Hu].
    + destruct targets as [|[v w] targets]; [congruence|].
      exists v. left. exists w. rewrite Hs. simpl. now rewrite String.eqb_refl.
    + apply dict_get_in_keys in Hu. destruct Hu as (w & Hw).
      exists s. right. exists w. now rewrite Hs.
  - intros (v & [(w & H)|(w & H)]).
    + destruct (dict_get g u) as [targets|] eqn:Hg; [|discriminate].
      exists u, targets. split; [now apply dict_get_in|]. split; auto.
      intro E. subst. discriminate.
    + destruct (dict_get g v) as [targets|] eqn:Hg; [|discriminate].
      exists v, targets. split; [now apply dict_get_in|]. split.
      * intro E. subst. discriminate.
      * right. apply dict_get_in_keys. eauto.
Qed.

(** X20.  For a correlation graph whose dictionaries hold no key twice,
    [_build_connected_graph] keeps every edge with its weight and adds
    none (the membership tests of the second loop never skip an edge), and
    the nodes of [self.G], which are also [self.connected_nodes], are
    exactly the tickers that have a neighbour: only isolated tickers are
    dropped. *)
Theorem build_connected_graph_edges (graph : Graph) :
  NoDup (map fst graph) -> inner_nodup graph ->
  (forall s t, edge (fst (_build_connected_graph graph)) s t = edge graph s t) /\
  (forall u, In u (map fst (fst (_build_connected_graph graph))) <->
             exists v, neighbour graph u v) /\
  (forall u, In u (snd (_build_connected_graph graph)) <->
             In u (map fst (fst (_build_connected_graph graph)))).
Proof.
  intros Hnd Hin. unfold _build_connected_graph. simpl.
  set (c := fold_left mark_connected graph []).
  assert (Hc : forall u, In u c <-> has_edge graph u).
  { intro u. unfold c. rewrite mark_connected_in. simpl. tauto. }
  assert (Hc' : forall u, has_edge graph u -> In u c) by (intro u; apply Hc).
  split; [|split].
  - intros s t. rewrite (@link_sources_edge c graph Hnd Hin Hc'). unfold edge. simpl.
    destruct (dict_get graph s) as [targets|]; auto.
    now destruct (dict_get targets t).
  - intro u. rewrite (@link_sources_keys c graph Hc'), <- has_edge_neighbour by auto.
    simpl. tauto.
  - intro u. rewrite (@link_sources_keys c graph Hc'), Hc. simpl. tauto.
Qed.

Lemma build_connected_graph_edges_witness :
  edge (fst (_build_connected_graph example_graph)) "A"%string "B"%string
  = Some 90%Z /\
  ~ In "C"%string (map fst (fst (_build_connected_graph example_graph))).
Proof.
  destruct (@build_connected_graph_edges example_graph) as (He & Hn & _).
  - repeat constructor; simpl; intuition discriminate.
  - intros s nb Hin. simpl in Hin.
    destruct Hin as [Hin|[Hin|[Hin|[]]]]; inversion Hin; subst; simpl;
      try (constructor; [intros []|]); constructor.
  - split.
    + rewrite He. reflexivity.
    + intro H. apply Hn in H. destruct H as (v & [(w & H)|(w & H)]).
      * discriminate H.
      * unfold edge, example_graph in H. cbn [dict_get] in H.
        repeat match type of H with
               | context [String.eqb ?a v] => destruct (String.eqb a v)
               end; simpl in H; discriminate H.
Defined.
